(** * ElTable: the expression engine of a minimal spreadsheet

    A shallow embedding of [eltab.h] and [eltab.cpp]: the cell-identity
    helpers, the [Token] type, the arithmetic reducer [evaluate], the
    formula scanner [parse_expr], the cell resolver [parse_reference] and
    the driver [run], followed by the properties of the engine.

    Modelling conventions.
    - [char] is a byte ([ascii]); where the source promotes a [char] to
      [int] it is read as a signed byte, and [isdigit] is false on the
      bytes above 127.
    - [short] and [int] are integers of [Z]; arithmetic on [int] wraps
      around at 32 bits and a conversion to [short] wraps at 16 bits.
    - [double]: every [n_value] the program stores comes from an [int]
      (the constructor [Token(int)] and the cast closing [evaluate]), so
      [n_value] is carried as that integer.  The [double] computed inside
      [evaluate] is carried as an exact rational, an infinity or a NaN.
      Rounding is left out: sums and differences of two [int]s are exact
      in a [double]; a product that is not exact exceeds the range of
      [int], where the closing cast has no defined result either way; and
      rounding a quotient of two [int]s never crosses an integer, so its
      truncation is unchanged.
    - Exceptions, reads outside the table and casts without a defined
      result are outcomes of a computation, next to normal return.
    - The state is the cache [map_ref_cells] and the lines written to
      [cerr].  It also carries a trace of the insertions and assignments
      made to the cache; the trace is not in the source, no function
      reads it, and it is there for the properties to speak about the
      order of events.
    - The recursion of [parse_expr] through [parse_reference] is bounded
      by a fuel argument; the engine is shown to need only finitely much
      of it, and its result not to depend on it. *)

From Stdlib Require Import ZArith QArith Ascii String List Lia.
From stdpp Require Import base decidable option list gmap strings pretty.

Local Open Scope string_scope.
Local Open Scope list_scope.
Local Open Scope Z_scope.

(** ** Machine integers and characters *)

Definition INT_MIN : Z := -2147483648.
Definition INT_MAX : Z := 2147483647.

(** Two's complement wrap-around of a value to [w] bits. *)
Definition wrap (w : Z) (z : Z) : Z :=
  (z + 2 ^ (w - 1)) mod 2 ^ w - 2 ^ (w - 1).

Definition to_int (z : Z) : Z := wrap 32 z.
Definition to_short (z : Z) : Z := wrap 16 z.

(** The byte stored when an [int] is narrowed to [char]. *)
Definition to_char (z : Z) : ascii := ascii_of_N (Z.to_N (z mod 256)).

(** A [char] promoted to [int] (signed byte). *)
Definition char_val (c : ascii) : Z :=
  let n := Z.of_N (N_of_ascii c) in if n <? 128 then n else n - 256.

Definition isdigit (c : ascii) : bool :=
  (48 <=? char_val c) && (char_val c <=? 57).

(** [s[0]], which is the terminating zero byte on an empty string. *)
Definition front (s : string) : ascii :=
  match s with
  | EmptyString => zero
  | String c _ => c
  end.

(** [s.substr(1)] on a non-empty string. *)
Definition substr1 (s : string) : string :=
  match s with
  | EmptyString => EmptyString
  | String _ rest => rest
  end.

Definition empty (s : string) : bool :=
  match s with
  | EmptyString => true
  | String _ _ => false
  end.

(** ** Utility functions of [eltab.h] *)

Definition is_string_literal (s : string) : bool :=
  bool_decide (front s = "'"%char).

Definition is_expression (str : string) : bool :=
  bool_decide (front str = "="%char).

Fixpoint all_digits (s : string) : bool :=
  match s with
  | EmptyString => true
  | String c rest => isdigit c && all_digits rest
  end.

Definition is_number (s : string) : bool :=
  negb (empty s) && all_digits s.

Definition coords : Type := Z * Z.

(** [std::to_string] of an [int]. *)
Definition to_string (z : Z) : string := pretty z.

(** [row] is a [short], so [row + 1] is computed in [int] without
    overflow. *)
Definition get_cell_by_coords (coords : coords) : string :=
  let row := coords.1 in
  let col := coords.2 in
  let c :=
    if col <? 26 then to_char (char_val "A" + col)
    else if (26 <=? col) && (col <? 52) then to_char (char_val "a" + col)
    else " "%char in
  String c (to_string (row + 1)).

(** [get_number_by_str]: the loop body runs on the character under the
    iterator; [rest] is what follows it.  The result pairs the number with
    the text that follows the iterator's final position. *)
Fixpoint get_number_loop (num : Z) (c : ascii) (rest : string) : Z * string :=
  let num := to_int (char_val c - char_val "0" + num * 10) in
  match rest with
  | EmptyString => (num, EmptyString)
  | String d rest' =>
      if isdigit d then get_number_loop num d rest' else (num, rest)
  end.

Definition get_number_by_str (it : string) : Z * string :=
  match it with
  | EmptyString => (0, EmptyString)
  | String c rest => get_number_loop 0 c rest
  end.

(** ** Expressions and tokens *)

Record Expr := mkExpr { m_coords : coords; m_value : string }.

Inductive Token :=
| T_UNDEFINED
| T_NUMBER (n_value : Z)
| T_STRING (s_value : string).

#[global] Instance Token_eq_dec : EqDecision Token.
Proof. solve_decision. Defined.

Definition Token_to_string (t : Token) : string :=
  match t with
  | T_NUMBER n => to_string n
  | T_STRING s => s
  | T_UNDEFINED => EmptyString
  end.

Definition is_incomplete (t : Token) : bool :=
  match t with
  | T_UNDEFINED => true
  | _ => false
  end.

Inductive oper := OP_NONE | OP_ADD | OP_SUB | OP_MUL | OP_DIV | OP_UNKNOWN.

#[global] Instance oper_eq_dec : EqDecision oper.
Proof. solve_decision. Defined.

Definition get_operator (ch : ascii) : oper :=
  if bool_decide (ch = "*"%char) then OP_MUL
  else if bool_decide (ch = "/"%char) then OP_DIV
  else if bool_decide (ch = "+"%char) then OP_ADD
  else if bool_decide (ch = "-"%char) then OP_SUB
  else OP_UNKNOWN.

Definition is_operator (ch : ascii) : bool :=
  negb (bool_decide (get_operator ch = OP_UNKNOWN)).

(** The immutable members of [Tokenizer]. *)
Record Tokenizer := mkTokenizer {
  m_rows : Z;
  m_cols : Z;
  m_table : list (list string);
  m_expressions : list Expr
}.

Definition is_ref_candidate (tk : Tokenizer) (c : ascii) : bool :=
  ((m_cols tk <=? 26) &&
     ((char_val "A" <=? char_val c) &&
      (char_val c <=? char_val "A" + (m_cols tk - 1)))) ||
  ((26 <? m_cols tk) && (m_cols tk <=? 52) &&
     ((char_val "a" <=? char_val c) &&
      (char_val c <=? char_val "a" + (m_cols tk - 26 - 1)))).

Definition get_col_by_char (tk : Tokenizer) (c : ascii) : Z :=
  if m_cols tk <=? 26 then to_short (char_val c - char_val "A")
  else if (26 <? m_cols tk) && (m_cols tk <=? 52)
       then to_short (char_val c - char_val "a")
       else -1.

(** [m_table[row][col]]; [None] is a read outside the table. *)
Definition table_at (tk : Tokenizer) (row col : Z) : option string :=
  if (row <? 0) || (col <? 0) then None
  else match m_table tk !! Z.to_nat row with
       | Some line => line !! Z.to_nat col
       | None => None
       end.

(** ** The [double] computed inside [evaluate] *)

Inductive double :=
| Finite (q : Q)
| Infinity (negative : bool)
| NaN.

Definition isinf (d : double) : bool :=
  match d with
  | Infinity _ => true
  | _ => false
  end.

(** The four compound assignments on [n_value], on operands that hold
    [int]s. *)
Definition d_add (l r : Z) : double := Finite (inject_Z l + inject_Z r).
Definition d_sub (l r : Z) : double := Finite (inject_Z l - inject_Z r).
Definition d_mul (l r : Z) : double := Finite (inject_Z l * inject_Z r).
Definition d_div (l r : Z) : double :=
  if r =? 0 then (if l =? 0 then NaN else Infinity (l <? 0))
  else Finite (inject_Z l / inject_Z r).

(** Truncation toward zero. *)
Definition trunc (q : Q) : Z := Z.quot (Qnum q) (Zpos (Qden q)).

(** [static_cast<int>] of a [double]: the truncated value when [int] can
    hold it, and no defined result otherwise. *)
Definition static_cast_int (d : double) : option Z :=
  match d with
  | Finite q =>
      let z := trunc q in
      if (INT_MIN <=? z) && (z <=? INT_MAX) then Some z else None
  | _ => None
  end.

(** ** Outcomes, the mutable state and its monad *)

Inductive exn :=
| domain_error (what : string)
| logic_error (what : string)
| out_of_range (what : string).

Inductive outcome (A : Type) :=
| Ret (a : A)
| Throw (e : exn)
| Undefined
| OutOfFuel.

Arguments Ret {A} a.
Arguments Throw {A} e.
Arguments Undefined {A}.
Arguments OutOfFuel {A}.

(** What happens to the cache, recorded next to it. *)
Inductive event :=
| Reserve (scell : string)
| Commit (scell : string) (tok : Token).

Record state := mkState {
  map_ref_cells : gmap string Token;
  cerr : list string;
  trace : list event
}.

Definition initial : state := mkState ∅ [] [].

Definition M (A : Type) : Type := state -> outcome A * state.

Definition ret {A} (a : A) : M A := fun st => (Ret a, st).
Definition throw {A} (e : exn) : M A := fun st => (Throw e, st).
Definition undefined {A} : M A := fun st => (Undefined, st).

Definition bind {A B} (m : M A) (k : A -> M B) : M B :=
  fun st =>
    match m st with
    | (Ret a, st') => k a st'
    | (Throw e, st') => (Throw e, st')
    | (Undefined, st') => (Undefined, st')
    | (OutOfFuel, st') => (OutOfFuel, st')
    end.

(** [try { m } catch (...) { h e }]: [h] returns [None] for an exception
    no handler of the statement matches. *)
Definition try_catch {A} (m : M A) (h : exn -> option (M A)) : M A :=
  fun st =>
    match m st with
    | (Throw e, st') =>
        match h e with
        | Some k => k st'
        | None => (Throw e, st')
        end
    | r => r
    end.

Declare Scope cpp_scope.
Delimit Scope cpp_scope with cpp.
Notation "x <- m ;; k" := (bind m (fun x => k))
  (at level 100, m at next level, right associativity) : cpp_scope.
Notation "m ;;; k" := (bind m (fun _ => k))
  (at level 100, right associativity) : cpp_scope.

(** [map_ref_cells.find(scell) != map_ref_cells.end()] *)
Definition contains (scell : string) : M bool :=
  fun st => (Ret (bool_decide (is_Some (map_ref_cells st !! scell))), st).

(** [map_ref_cells.emplace(make_pair(scell, Token()))]: inserts the
    token of [Token()] unless the key has an entry. *)
Definition reserve (scell : string) (st : state) : state :=
  mkState (<[scell := T_UNDEFINED]> (map_ref_cells st))
          (cerr st) (trace st ++ [Reserve scell]).

Definition emplace (scell : string) : M unit :=
  fun st =>
    match map_ref_cells st !! scell with
    | Some _ => (Ret tt, st)
    | None => (Ret tt, reserve scell st)
    end.

(** [map_ref_cells[scell] = tok] *)
Definition commit (scell : string) (tok : Token) (st : state) : state :=
  mkState (<[scell := tok]> (map_ref_cells st))
          (cerr st) (trace st ++ [Commit scell tok]).

Definition assign (scell : string) (tok : Token) : M unit :=
  fun st => (Ret tt, commit scell tok st).

(** [map_ref_cells[scell]] read: inserts a default token if absent. *)
Definition at_key (scell : string) : M Token :=
  fun st =>
    match map_ref_cells st !! scell with
    | Some t => (Ret t, st)
    | None => (Ret T_UNDEFINED,
               mkState (<[scell := T_UNDEFINED]> (map_ref_cells st))
                       (cerr st) (trace st))
    end.

(** [cerr << msg << endl] *)
Definition report (msg : string) (st : state) : state :=
  mkState (map_ref_cells st) (cerr st ++ [msg]) (trace st).

Definition print_cerr (msg : string) : M unit :=
  fun st => (Ret tt, report msg st).

(** ** [Tokenizer::evaluate] *)

(** The vector [toks] is kept with its back at the head of the list. *)
Definition evaluate (toks : list Token) (op : oper) : outcome (Token * list Token) :=
  match toks with
  | tright :: tleft :: toks' =>
      match tleft, tright with
      | T_NUMBER l, T_NUMBER r =>
          let computed :=
            match op with
            | OP_ADD => Ret (d_add l r)
            | OP_SUB => Ret (d_sub l r)
            | OP_MUL => Ret (d_mul l r)
            | OP_DIV =>
                let d := d_div l r in
                if isinf d then Throw (domain_error "#E_INFINITE") else Ret d
            | _ => Throw (domain_error "#E_UNKNOWN_OP")
            end in
          match computed with
          | Ret d =>
              match static_cast_int d with
              | Some z => Ret (T_NUMBER z, toks')
              | None => Undefined
              end
          | Throw e => Throw e
          | Undefined => Undefined
          | OutOfFuel => OutOfFuel
          end
      | _, _ => Throw (domain_error "#E_UNEXP_EXPR")
      end
  | _ => Undefined
  end.

Arguments evaluate : simpl never.

(** [std::stoi] on a string of digits. *)
Fixpoint digits_value (acc : Z) (s : string) : Z :=
  match s with
  | EmptyString => acc
  | String c rest => digits_value (acc * 10 + (char_val c - char_val "0")) rest
  end.

Definition stoi (s : string) : outcome Z :=
  let v := digits_value 0 s in
  if v <=? INT_MAX then Ret v else Throw (out_of_range "stoi").

Definition out_of_fuel {A} : M A := fun st => (OutOfFuel, st).

(** A call of a function that does not touch the state. *)
Definition lift {A} (r : outcome A) : M A := fun st => (r, st).

(** ** [Tokenizer::parse_reference] and [Tokenizer::parse_expr] *)

(** The local variables of [parse_expr]. *)
Record locals := mkLocals {
  toks : list Token;
  op : oper;
  tok : Token
}.

Local Open Scope cpp_scope.

Section Resolver.

Variable tk : Tokenizer.

(** The call of [parse_expr] made by [parse_reference]. *)
Variable parse_expr_rec : string -> M Token.

Definition catch_domain_error (e : exn) : option (M Token) :=
  match e with
  | domain_error what => Some (ret (T_STRING what))
  | _ => None
  end.

Definition parse_reference (coords : coords) : M Token :=
  let row := coords.1 in
  let col := coords.2 in
  match table_at tk row col with
  | None => undefined
  | Some s =>
      let scell := get_cell_by_coords coords in
      found <- contains scell;;
      if (found : bool)
      then throw (logic_error "Internal error: parse_reference()")
      else
        emplace scell;;;
        tok <- (if is_expression s then
                  try_catch (parse_expr_rec (substr1 s)) catch_domain_error
                else if is_number s then
                  n <- lift (stoi s);; ret (T_NUMBER n)
                else if is_string_literal s then
                  ret (T_STRING (substr1 s))
                else if empty s then
                  ret (T_STRING EmptyString)
                else
                  throw (domain_error "E_WRONG_REF"));;
        assign scell tok;;;
        ret tok
  end.

(** The reduction that follows each push in [parse_expr]. *)
Definition reduce (ls : locals) : M locals :=
  if (length (toks ls) =? 2)%nat
     && negb (bool_decide (op ls = OP_NONE))
     && negb (bool_decide (op ls = OP_UNKNOWN))
  then
    r <- lift (evaluate (toks ls) (op ls));;
    ret (mkLocals (r.1 :: r.2) OP_NONE r.1)
  else ret ls.

(** One turn of the [for] loop of [parse_expr], on the character [c]
    under the iterator and the text [rest] after it.  Returns the text
    the next turn starts from, and the locals. *)
Definition step (c : ascii) (rest : string) (ls : locals) : M (string * locals) :=
  if is_operator c then
    if negb (bool_decide (op ls = OP_NONE)) || bool_decide (toks ls = [])
    then throw (domain_error "#E_UNEXP_SYMBOL")
    else ret (rest, mkLocals (toks ls) (get_operator c) (tok ls))
  else if isdigit c then
    let r := get_number_by_str (String c rest) in
    ls' <- reduce (mkLocals (T_NUMBER r.1 :: toks ls) (op ls) (tok ls));;
    ret (r.2, ls')
  else if is_ref_candidate tk c then
    let col := get_col_by_char tk c in
    let r := get_number_by_str rest in
    let row := to_short (to_int (r.1 - 1)) in
    if (row + 1 >? m_rows tk) || (row <? 0)
    then throw (domain_error "#E_INVALID_REF")
    else
      let coords := (row, col) in
      let scell := get_cell_by_coords coords in
      found <- contains scell;;
      t <- (if (found : bool) then
              t <- at_key scell;;
              if is_incomplete t
              then throw (domain_error "#E_CROSS_REF")
              else at_key scell
            else parse_reference coords);;
      ls' <- reduce (mkLocals (t :: toks ls) (op ls) t);;
      ret (r.2, ls')
  else throw (domain_error "#E_UNEXP_SYMB").

(** The [for] loop; [gas] bounds the number of turns. *)
Fixpoint scan (gas : nat) (it : string) (ls : locals) : M locals :=
  match it with
  | EmptyString => ret ls
  | String c rest =>
      match gas with
      | O => out_of_fuel
      | S gas' => r <- step c rest ls;; scan gas' r.1 r.2
      end
  end.

End Resolver.

(** The locals [parse_expr] starts its loop with. *)
Definition start : locals := mkLocals [] OP_NONE T_UNDEFINED.

(** What [parse_expr] returns once its loop is over: the only operand
    if the stack holds exactly one, else [tok] as it was last assigned. *)
Definition result (ls : locals) : Token :=
  if (length (toks ls) =? 1)%nat then hd T_UNDEFINED (toks ls) else tok ls.

Fixpoint parse_expr (tk : Tokenizer) (fuel : nat) (str : string) : M Token :=
  match fuel with
  | O => out_of_fuel
  | S fuel' =>
      ls <- scan tk (parse_expr tk fuel') (String.length str) str start;;
      ret (result ls)
  end.

(** ** [Tokenizer::run] and [Tokenizer::get_value] *)

Definition catch_in_run (e : exn) : option (M Token) :=
  match e with
  | domain_error what => Some (ret (T_STRING what))
  | logic_error what | out_of_range what =>
      Some (print_cerr what;;; ret T_UNDEFINED)
  end.

Fixpoint run_loop (tk : Tokenizer) (fuel : nat) (exprs : list Expr) : M unit :=
  match exprs with
  | [] => ret tt
  | ex :: exprs' =>
      let scell := get_cell_by_coords (m_coords ex) in
      found <- contains scell;;
      if (found : bool) then run_loop tk fuel exprs'
      else
        emplace scell;;;
        tok <- try_catch (parse_expr tk fuel (m_value ex)) catch_in_run;;
        assign scell tok;;;
        run_loop tk fuel exprs'
  end.

Definition run (tk : Tokenizer) (fuel : nat) : M unit :=
  run_loop tk fuel (m_expressions tk).

Definition get_value (coords : coords) : M string :=
  t <- at_key (get_cell_by_coords coords);;
  ret (Token_to_string t).

(** ** Vocabulary of the properties *)

(** The cells whose entry a trace reserves, and those it commits. *)
Definition reserved (tr : list event) : list string :=
  omap (fun e => match e with Reserve k => Some k | _ => None end) tr.



(** How the engine moves the state: by whole resolutions of cells that
    had no entry, each one reserving the entry first, and by reports on
    [cerr]. *)
Inductive grows : state -> state -> Prop :=
| grows_refl st : grows st st
| grows_done st k st1 t st2 :
    map_ref_cells st !! k = None ->
    grows (reserve k st) st1 ->
    grows (commit k t st1) st2 ->
    grows st st2
| grows_open st k st1 :
    map_ref_cells st !! k = None ->
    grows (reserve k st) st1 ->
    grows st st1
| grows_report st msg st1 :
    grows (report msg st) st1 ->
    grows st st1.

(** The outcomes the engine can produce: the only exception that is
    not a [domain_error] is the [out_of_range] of [stoi]. *)
Definition expected {A} (r : outcome A) : Prop :=
  match r with
  | Throw (logic_error _) => False
  | Throw (out_of_range what) => what = "stoi"
  | _ => True
  end.

(** The identities a reference of a formula can name: a row of the
    grid and one of the first 26 columns. *)
Definition grid_ids (tk : Tokenizer) : gset string :=
  list_to_set
    (r ← seqZ 0 (m_rows tk); c ← seqZ 0 26; [get_cell_by_coords (r, c)]).

(** ** Grids *)

(** The formula records [main] collects while it fills the table: row
    by row, left to right, each with the text after the marker. *)
Definition expressions_of (table : list (list string)) : list Expr :=
  concat
    (imap (fun i line =>
             omap (fun x => x)
                  (imap (fun j data =>
                           if is_expression data
                           then Some (mkExpr (Z.of_nat i, Z.of_nat j) (substr1 data))
                           else None) line))
          table).

(** The [Tokenizer] that [main] builds for a table. *)
Definition load (rows cols : Z) (table : list (list string)) : Tokenizer :=
  mkTokenizer rows cols table (expressions_of table).

(** The example in the comment above [main]. *)
Definition sample_grid : Tokenizer :=
  load 3 4 [ ["12"; "=C2"; "3"; "'Sample"];
             ["=A1+B1*C1/5"; "=A2*B1"; "=B3-C3"; "'Spread"];
             ["'Test"; "=4-3"; "5"; "'Sheet"] ].

(** Two cells that refer to each other. *)
Definition cycle_grid : Tokenizer := load 1 2 [ ["=B1"; "=A1"] ].

(** A formula with no text after the marker, and a reference to it. *)
Definition empty_formula_grid : Tokenizer := load 1 2 [ ["="; "=A1"] ].

(** A reference to a number that [int] cannot hold. *)
Definition long_number_grid : Tokenizer := load 1 2 [ ["=B1"; "99999999999"] ].

(** A division by zero, and the division of zero by zero. *)
Definition division_grid : Tokenizer := load 1 2 [ ["=5/0"; "=7/2+1"] ].

Definition zero_by_zero_grid : Tokenizer := load 1 1 [ ["=0/0"] ].

(** What [main] prints for the cell at [coords] once [run] is over;
    [None] when the run has no defined result or the fuel was short. *)
Definition display (tk : Tokenizer) (fuel : nat) (coords : coords) : option string :=
  match run tk fuel initial with
  | (Ret _, st) =>
      match get_value coords st with
      | (Ret s, _) => Some s
      | _ => None
      end
  | _ => None
  end.

(** A grid without the two inputs that leave a token of [Token()]
    behind: every formula has text after its marker, every number
    literal fits [int]; and every formula record is that of its cell. *)
Definition cell_ok (s : string) : bool :=
  if is_expression s then negb (empty (substr1 s))
  else if is_number s then digits_value 0 s <=? INT_MAX
  else true.

Definition record_ok (tk : Tokenizer) (ex : Expr) : bool :=
  match table_at tk (m_coords ex).1 (m_coords ex).2 with
  | Some s => is_expression s && bool_decide (m_value ex = substr1 s)
  | None => false
  end.

Definition well_formed (tk : Tokenizer) : bool :=
  forallb (forallb cell_ok) (m_table tk) &&
  forallb (record_ok tk) (m_expressions tk).

(** ** Statements about a whole run *)



(** What [run] reports on [cerr]: nothing but the [what()] of the
    [out_of_range] of [stoi]. *)
Definition reports_only_stoi (st st' : state) : Prop :=
  exists msgs, cerr st' = cerr st ++ msgs /\ Forall (eq "stoi") msgs /\
               "Internal error: parse_reference()" ∉ msgs.

(** Whether the text starts with a digit. *)
Definition starts_with_digit (s : string) : bool :=
  match s with
  | EmptyString => false
  | String c _ => isdigit c
  end.

(** The number a run of digits stands for: what [get_number_by_str]
    returns on it. *)
Definition number (d : string) : Z := (get_number_by_str d).1.

(** ** Formulas over numbers *)

(** The text that follows the first number: each operator with the run
    of digits after it. *)
Fixpoint tail_text (more : list (ascii * string)) : string :=
  match more with
  | [] => EmptyString
  | (o, d) :: more' => String o (d +:+ tail_text more')
  end.

Definition formula (d0 : string) (more : list (ascii * string)) : string :=
  d0 +:+ tail_text more.

(** Flat precedence, strictly left to right: the value so far and the
    next number are reduced by the operator between them, the result is
    the value so far for what follows. *)
Fixpoint reduce_flat (acc : Token) (more : list (ascii * string)) : outcome Token :=
  match more with
  | [] => Ret acc
  | (o, d) :: more' =>
      match evaluate [T_NUMBER (number d); acc] (get_operator o) with
      | Ret r => reduce_flat r.1 more'
      | Throw e => Throw e
      | Undefined => Undefined
      | OutOfFuel => OutOfFuel
      end
  end.

(** The immediate reduction: with exactly two operands on the stack and
    an operator pending, both are popped, the operator is applied, the
    result is pushed and the operator cleared. *)
Definition reduces_at_once : Prop :=
  forall (a b : Token) (o : oper) (t0 : Token) (st : state),
    o <> OP_NONE -> o <> OP_UNKNOWN ->
    reduce (mkLocals [b; a] o t0) st =
    match evaluate [b; a] o with
    | Ret r => (Ret (mkLocals [r.1] OP_NONE r.1), st)
    | Throw e => (Throw e, st)
    | Undefined => (Undefined, st)
    | OutOfFuel => (OutOfFuel, st)
    end.

(** ** The loop of [parse_expr] *)

(** What holds of the locals before each turn of the loop, [it] being
    the text not yet read: the pending operator is a known one; an
    operand is never followed by a digit; with two operands or more on
    the stack [tok] is one of them, and it is the last pushed when no
    operator is pending. *)
Definition loop_invariant (it : string) (ls : locals) : Prop :=
  op ls <> OP_UNKNOWN /\
  (toks ls <> [] -> op ls = OP_NONE -> starts_with_digit it = false) /\
  ((2 <= length (toks ls))%nat -> tok ls ∈ toks ls) /\
  (op ls = OP_NONE -> (2 <= length (toks ls))%nat ->
   tok ls = hd T_UNDEFINED (toks ls)).

(** A reference to a cell whose entry holds the token of [Token()]
    raises "#E_CROSS_REF", whatever the locals and whatever follows; the
    loop of [parse_expr] ends there and the state is as it was. *)
Definition pending_reference_raises (tk : Tokenizer) : Prop :=
  forall (prec : string -> M Token) (c : ascii) (rest : string)
         (ls : locals) (st : state) (gas : nat),
    is_ref_candidate tk c = true ->
    let r := get_number_by_str rest in
    let row := to_short (to_int (r.1 - 1)) in
    (row + 1 >? m_rows tk) || (row <? 0) = false ->
    map_ref_cells st !! get_cell_by_coords (row, get_col_by_char tk c)
      = Some T_UNDEFINED ->
    step tk prec c rest ls st = (Throw (domain_error "#E_CROSS_REF"), st) /\
    scan tk prec (S gas) (String c rest) ls st =
      (Throw (domain_error "#E_CROSS_REF"), st).

(** The cells of the grid that have no entry yet. *)
Definition unresolved (tk : Tokenizer) (st : state) : nat :=
  size (grid_ids tk ∖ dom (map_ref_cells st)).

(** The outcomes after which the caller goes on: a return, or a
    [domain_error], which the nearest resolution turns into a text. *)
Definition settled {A} (r : outcome A) : Prop :=
  match r with
  | Ret _ | Throw (domain_error _) => True
  | _ => False
  end.

(** The identity of a cell of the grid that holds no formula. *)
Definition not_a_formula (tk : Tokenizer) (k : string) : Prop :=
  exists row col s,
    k = get_cell_by_coords (row, col) /\ 0 <= col < 26 /\
    table_at tk row col = Some s /\ is_expression s = false.

(** The entries a call leaves with the token of [Token()] that did not
    hold it before are those of cells that hold no formula. *)
Definition pending_are_not_formulas (tk : Tokenizer) (st st' : state) : Prop :=
  forall k, map_ref_cells st' !! k = Some T_UNDEFINED ->
            map_ref_cells st !! k = Some T_UNDEFINED \/ not_a_formula tk k.

(** What a call of [parse_expr] on [str] does in a well-formed grid:
    [stoi] never throws, the token returned for a formula with text is a
    number or a text, and no formula cell is left pending. *)
Definition resolves (tk : Tokenizer) (str : string)
    (r : outcome Token) (st st' : state) : Prop :=
  (forall what, r <> Throw (out_of_range what)) /\
  (forall t, r = Ret t -> str <> EmptyString -> t <> T_UNDEFINED) /\
  (settled r -> pending_are_not_formulas tk st st').

(** The operands on the stack are numbers and texts. *)
Definition operands_defined (ls : locals) : Prop :=
  Forall (fun t => t <> T_UNDEFINED) (toks ls).

(** After a run that ended in [st']: every formula record of the work
    list has an entry, and the entry is a number or a text. *)
Definition formulas_resolved (tk : Tokenizer) (st' : state) : Prop :=
  forall ex, ex ∈ m_expressions tk ->
    exists t, map_ref_cells st' !! get_cell_by_coords (m_coords ex) = Some t /\
              t <> T_UNDEFINED.

(** A [domain_error] that leaves the formula of a cell of the work list
    becomes the text of the cell, and [run] goes on with the cells that
    follow. *)
Definition converts_domain_errors (tk : Tokenizer) (fuel : nat) : Prop :=
  forall (ex : Expr) (exprs : list Expr) (st st1 : state) (what : string),
    map_ref_cells st !! get_cell_by_coords (m_coords ex) = None ->
    parse_expr tk fuel (m_value ex)
      (reserve (get_cell_by_coords (m_coords ex)) st)
      = (Throw (domain_error what), st1) ->
    run_loop tk fuel (ex :: exprs) st =
    run_loop tk fuel exprs
      (commit (get_cell_by_coords (m_coords ex)) (T_STRING what) st1).

(** A grid of 27 columns: a number in the first column and, in the 27th,
    a formula that names the first letter of the second block. *)
Definition wide_grid : Tokenizer :=
  load 1 27 [ "7" :: repeat EmptyString 25 ++ ["=a1"] ].

(** What a call does to the state: it grows it, writes nothing to
    [cerr], and ends in an expected outcome. *)
Definition sound {A} (r : outcome A) (st st' : state) : Prop :=
  grows st st' /\ cerr st' = cerr st /\ expected r.



(** [p'] agrees with [p] wherever [p] has enough fuel. *)
Definition extends (p p' : string -> M Token) : Prop :=
  forall str st r st', p str st = (r, st') -> r <> OutOfFuel -> p' str st = (r, st').

(** ** [main]: the table it fills and what it prints *)

(** The character that separates the cells of a line. *)
Definition tab : ascii := ascii_of_N 9.

(** [getline(linestream, data, '\t')] on what is left of the line: the
    characters before the first tab, and what follows that tab. *)
Fixpoint upto_tab (s : string) : string * string :=
  match s with
  | EmptyString => (EmptyString, EmptyString)
  | String c rest =>
      if bool_decide (c = tab) then (EmptyString, rest)
      else let r := upto_tab rest in (String c r.1, r.2)
  end.

(** The extraction fails when nothing is left of the line. *)
Definition getline_tab (linestream : string) : option (string * string) :=
  if empty linestream then None else Some (upto_tab linestream).

(** The two variables [main] fills while it reads its input. *)
Record filling := mkFilling {
  cells : list (list string);
  expressions : list Expr
}.

(** [new string*[n_rows]], each row a [new string[n_cols]]. *)
Definition allocate (n_rows n_cols : Z) : list (list string) :=
  replicate (Z.to_nat n_rows) (replicate (Z.to_nat n_cols) EmptyString).

(** [cells[i][j] = data]; a write outside the arrays has no defined
    result. *)
Definition set_cell (cells : list (list string)) (i j : Z) (data : string)
    : M (list (list string)) :=
  if (i <? 0) || (j <? 0) then undefined
  else match cells !! Z.to_nat i with
       | Some line =>
           if (Z.to_nat j <? length line)%nat
           then ret (<[Z.to_nat i := <[Z.to_nat j := data]> line]> cells)
           else undefined
       | None => undefined
       end.

(** The body of the inner loop of [main], on the cell text [data] read
    for row [i] and column [j]. *)
Definition store (f : filling) (i j : Z) (data : string) : M filling :=
  if is_expression data then
    cells' <- set_cell (cells f) i j data;;
    ret (mkFilling cells' (expressions f ++ [mkExpr (i, j) (substr1 data)]))
  else if empty data || is_number data || is_string_literal data then
    cells' <- set_cell (cells f) i j data;;
    ret (mkFilling cells' (expressions f))
  else
    cells' <- set_cell (cells f) i j "#E_UNKNOWN";;
    ret (mkFilling cells' (expressions f)).

(** The inner loop of [main] over the cells of one line; [gas] bounds
    the number of turns.  [j] stays below [n_cols], so [j++] does not
    leave [short]. *)
Fixpoint fill_line (gas : nat) (n_cols i : Z) (linestream : string) (j : Z)
    (f : filling) : M filling :=
  match getline_tab linestream with
  | None => ret f
  | Some (data, linestream') =>
      if j >? n_cols - 1 then ret f
      else
        match gas with
        | O => out_of_fuel
        | S gas' =>
            f' <- store f i j data;;
            fill_line gas' n_cols i linestream' (j + 1) f'
        end
  end.

(** The outer loop of [main] over the lines that follow the header. *)
Fixpoint fill_lines (n_rows n_cols : Z) (lines : list string) (i : Z)
    (f : filling) : M filling :=
  match lines with
  | [] => ret f
  | line :: lines' =>
      if i =? n_rows then ret f
      else
        f' <- fill_line (String.length line) n_cols i line 0 f;;
        fill_lines n_rows n_cols lines' (i + 1) f'
  end.

(** What [main] writes to [cout] for the cell at row [i], column [j]. *)
Definition print_cell (tokenizer : Tokenizer) (i j : Z) : M string :=
  match table_at tokenizer i j with
  | None => undefined
  | Some cell =>
      if is_string_literal cell then
        ret (substr1 cell +:+ String tab EmptyString)
      else if is_expression cell then
        v <- get_value (i, j);;
        ret (v +:+ String tab EmptyString)
      else ret (cell +:+ String tab EmptyString)
  end.

Fixpoint print_line (tokenizer : Tokenizer) (i : Z) (js : list Z) : M string :=
  match js with
  | [] => ret EmptyString
  | j :: js' =>
      s <- print_cell tokenizer i j;;
      rest <- print_line tokenizer i js';;
      ret (s +:+ rest)
  end.

(** The lines written to [cout], each one ended by [endl]. *)
Fixpoint print_lines (tokenizer : Tokenizer) (rows : list Z) : M (list string) :=
  match rows with
  | [] => ret []
  | i :: rows' =>
      l <- print_line tokenizer i (seqZ 0 (m_cols tokenizer));;
      ls <- print_lines tokenizer rows';;
      ret (l :: ls)
  end.

(** [main] once the two numbers of the header are read: [lines] are the
    lines of the input after the header.  Returns the exit status and
    the lines written to [cout]. *)
Definition main (n_rows n_cols : Z) (lines : list string) (fuel : nat)
    : M (Z * list string) :=
  if (n_rows <=? 0) || (n_cols <=? 0) then
    print_cerr ("Error: Incorrect table header: rows=" +:+ to_string n_rows
                +:+ ", cols=" +:+ to_string n_cols);;;
    ret (1, [])
  else
    f <- fill_lines n_rows n_cols lines 0 (mkFilling (allocate n_rows n_cols) []);;
    let tokenizer := mkTokenizer n_rows n_cols (cells f) (expressions f) in
    run tokenizer fuel;;;
    out <- print_lines tokenizer (seqZ 0 n_rows);;
    ret (0, out).

(** A line of the input or of the output from the texts of its cells:
    [tabbed] puts a tab between them, [tab_ended] one after each. *)
Fixpoint tabbed (texts : list string) : string :=
  match texts with
  | [] => EmptyString
  | [t] => t
  | t :: texts' => t +:+ String tab (tabbed texts')
  end.

Fixpoint tab_ended (texts : list string) : string :=
  match texts with
  | [] => EmptyString
  | t :: texts' => t +:+ String tab (tab_ended texts')
  end.

(** ** Grids for the properties of references *)

(** A cell [main] marks as unsupported, and two formulas that name it. *)
Definition unsupported_grid : Tokenizer :=
  load 1 3 [ ["#E_UNKNOWN"; "=A1"; "=A1"] ].

(** ** Vocabulary of the further properties *)

(** A token whose number, if it holds one, is an [int]. *)
Definition int_token (t : Token) : Prop :=
  match t with
  | T_NUMBER n => INT_MIN <= n <= INT_MAX
  | _ => True
  end.

(** Every number in the cache is an [int]; every number among the
    locals of [parse_expr] is. *)
Definition ints_only (st : state) : Prop :=
  forall k t, map_ref_cells st !! k = Some t -> int_token t.

Definition int_operands (ls : locals) : Prop :=
  Forall int_token (toks ls) /\ int_token (tok ls).

(** The entries of [st] are entries of [st'], with the same token. *)
Definition keeps_entries (st st' : state) : Prop :=
  forall k t, map_ref_cells st !! k = Some t -> map_ref_cells st' !! k = Some t.

(** A table of [n_rows] rows of [n_cols] cells. *)
Definition shaped (n_rows n_cols : Z) (table : list (list string)) : Prop :=
  length table = Z.to_nat n_rows /\
  Forall (fun line => length line = Z.to_nat n_cols) table.

(** The texts a line is made of: those between its tabs, without the
    empty text after a tab that ends the line. *)
Fixpoint fields (line : string) : list string :=
  match line with
  | EmptyString => []
  | String c rest =>
      if bool_decide (c = tab) then EmptyString :: fields rest
      else match fields rest with
           | [] => [String c EmptyString]
           | data :: others => String c data :: others
           end
  end.

(** What the inner loop of [main] writes to the table for a text. *)
Definition stored (data : string) : string :=
  if is_expression data then data
  else if empty data || is_number data || is_string_literal data then data
  else "#E_UNKNOWN".

(** The row of the table for a line of the input: its texts in their
    stored form, cut or filled up with empty texts to [n_cols] cells. *)
Definition row_of (n_cols : Z) (line : string) : list string :=
  resize (Z.to_nat n_cols) EmptyString (stored <$> fields line).

(** The table for the lines of the input: their rows, cut or filled up
    with rows of empty cells to [n_rows] rows. *)
Definition table_of (n_rows n_cols : Z) (lines : list string) : list (list string) :=
  resize (Z.to_nat n_rows) (replicate (Z.to_nat n_cols) EmptyString)
         (row_of n_cols <$> lines).

(** The formula records of the texts of row [i] from column [j] on, and
    those of the rows of a table from row [i] on. *)
Fixpoint exprs_from (i j : Z) (texts : list string) : list Expr :=
  match texts with
  | [] => []
  | data :: texts' =>
      (if is_expression data then [mkExpr (i, j) (substr1 data)] else [])
      ++ exprs_from i (j + 1) texts'
  end.

Fixpoint rows_from (i : Z) (table : list (list string)) : list Expr :=
  match table with
  | [] => []
  | line :: table' => exprs_from i 0 line ++ rows_from (i + 1) table'
  end.

(** The five kinds of text a cell of the table holds. *)
Definition classified (s : string) : Prop :=
  is_expression s = true \/ s = EmptyString \/ is_number s = true \/
  is_string_literal s = true \/ s = "#E_UNKNOWN".

(** What [main] prints before the tab for the cell at row [i], column
    [j], from the table and the cache: for a formula, the text of its
    entry. *)
Definition shown (tokenizer : Tokenizer) (st : state) (i j : Z) : string :=
  match table_at tokenizer i j with
  | Some cell =>
      if is_string_literal cell then substr1 cell
      else if is_expression cell then
        Token_to_string
          (default T_UNDEFINED (map_ref_cells st !! get_cell_by_coords (i, j)))
      else cell
  | None => EmptyString
  end.

(** The formula record of the cell at [coords] of a table. *)
Definition record_of (tokenizer : Tokenizer) (ex : Expr) : Prop :=
  exists s, table_at tokenizer (m_coords ex).1 (m_coords ex).2 = Some s /\
            is_expression s = true /\ m_value ex = substr1 s.

(** The codes of the errors a formula can end with. *)
Definition error_codes : list string :=
  [ "#E_UNEXP_SYMBOL"; "#E_UNEXP_SYMB"; "#E_INVALID_REF"; "#E_CROSS_REF";
    "#E_UNEXP_EXPR"; "#E_INFINITE"; "E_WRONG_REF" ].

(** The texts a token of the engine can hold: an error code, the empty
    text, or what follows the quote in a cell of the table. *)
Definition known_text (tk : Tokenizer) (s : string) : Prop :=
  s ∈ error_codes \/ s = EmptyString \/
  exists row col cell,
    table_at tk row col = Some cell /\ is_string_literal cell = true /\
    s = substr1 cell.

Definition known_token (tk : Tokenizer) (t : Token) : Prop :=
  match t with
  | T_STRING s => known_text tk s
  | _ => True
  end.

Definition known_cache (tk : Tokenizer) (st : state) : Prop :=
  forall k t, map_ref_cells st !! k = Some t -> known_token tk t.

Definition known_operands (tk : Tokenizer) (ls : locals) : Prop :=
  Forall (known_token tk) (toks ls) /\ known_token tk (tok ls).

(** The [domain_error]s carry error codes. *)
Definition known_error {A} (r : outcome A) : Prop :=
  forall what, r = Throw (domain_error what) -> what ∈ error_codes.

(** A text without a tab. *)
Fixpoint no_tab (s : string) : bool :=
  match s with
  | EmptyString => true
  | String c rest => negb (bool_decide (c = tab)) && no_tab rest
  end.

(** The texts [main] prints for the rows of the table, from the table
    and the cache. *)
Definition shown_rows (tokenizer : Tokenizer) (st : state) : list (list string) :=
  (fun i => shown tokenizer st i <$> seqZ 0 (m_cols tokenizer))
    <$> seqZ 0 (m_rows tokenizer).

(** ** Formulas over numbers and resolved cells *)

(** An operand of a formula: a run of digits, or a column letter and
    the digits of a row. *)
Inductive operand :=
| Digits (d : string)
| Ref (c : ascii) (d : string).

Definition operand_text (x : operand) : string :=
  match x with
  | Digits d => d
  | Ref c d => String c d
  end.

(** The cell a reference names, as the loop of [parse_expr] computes
    it. *)
Definition named_cell (tk : Tokenizer) (c : ascii) (d : string) : coords :=
  (to_short (to_int (number d - 1)), get_col_by_char tk c).

(** The token an operand stands for: the number of the digits, or the
    entry of the cell. *)
Definition operand_token (tk : Tokenizer) (st : state) (x : operand) : Token :=
  match x with
  | Digits d => T_NUMBER (number d)
  | Ref c d =>
      default T_UNDEFINED
              (map_ref_cells st !! get_cell_by_coords (named_cell tk c d))
  end.

(** An operand that needs no resolution: digits, or a reference to a
    cell of the grid whose entry holds a number or a text. *)
Definition resolved_operand (tk : Tokenizer) (st : state) (x : operand) : bool :=
  match x with
  | Digits d => is_number d
  | Ref c d =>
      is_ref_candidate tk c && is_number d &&
      negb (((named_cell tk c d).1 + 1 >? m_rows tk) || ((named_cell tk c d).1 <? 0)) &&
      match map_ref_cells st !! get_cell_by_coords (named_cell tk c d) with
      | Some t => negb (is_incomplete t)
      | None => false
      end
  end.

(** The text that follows the first operand: each operator with the
    operand after it. *)
Fixpoint tail_operands (more : list (ascii * operand)) : string :=
  match more with
  | [] => EmptyString
  | (o, x) :: more' => String o (operand_text x +:+ tail_operands more')
  end.

(** Flat precedence, strictly left to right, over the tokens of the
    operands. *)
Fixpoint fold_flat (tk : Tokenizer) (st : state) (acc : Token)
    (more : list (ascii * operand)) : outcome Token :=
  match more with
  | [] => Ret acc
  | (o, x) :: more' =>
      match evaluate [operand_token tk st x; acc] (get_operator o) with
      | Ret r => fold_flat tk st r.1 more'
      | Throw e => Throw e
      | Undefined => Undefined
      | OutOfFuel => OutOfFuel
      end
  end.

(** ** The overwrite of an entry *)








(** * Properties *)

(** ** Truncation and the arithmetic of [evaluate] *)

Lemma trunc_inject_Z (z : Z) : trunc (inject_Z z) = z.
Proof. unfold trunc; simpl. apply Z.quot_1_r. Qed.

Lemma trunc_add (l r : Z) : trunc (inject_Z l + inject_Z r) = l + r.
Proof. unfold trunc; simpl. rewrite !Z.mul_1_r. apply Z.quot_1_r. Qed.

Lemma trunc_sub (l r : Z) : trunc (inject_Z l - inject_Z r) = l - r.
Proof. unfold trunc; simpl. rewrite !Z.mul_1_r, Z.quot_1_r. lia. Qed.

Lemma trunc_mul (l r : Z) : trunc (inject_Z l * inject_Z r) = l * r.
Proof. unfold trunc; simpl. apply Z.quot_1_r. Qed.

Lemma trunc_div (l r : Z) : r <> 0 -> trunc (inject_Z l / inject_Z r) = Z.quot l r.
Proof.
  intros Hr. unfold trunc, Qdiv, Qinv, Qmult, inject_Z. simpl Qnum at 2.
  destruct r as [|p|p]; [congruence| |]; simpl.
  - now rewrite Z.mul_1_r.
  - change (Z.neg p) with (- Z.pos p).
    rewrite Z.quot_opp_r by discriminate.
    rewrite <- Z.quot_opp_l by discriminate.
    f_equal. lia.
Qed.


(** What [evaluate] returns on two numbers, operator by operator. *)
Lemma evaluate_numbers (l r : Z) (op : oper) (ts : list Token) :
  evaluate (T_NUMBER r :: T_NUMBER l :: ts) op =
  let cast z := if (INT_MIN <=? z) && (z <=? INT_MAX)
                then Ret (T_NUMBER z, ts) else Undefined in
  match op with
  | OP_ADD => cast (l + r)
  | OP_SUB => cast (l - r)
  | OP_MUL => cast (l * r)
  | OP_DIV => if r =? 0
              then (if l =? 0 then Undefined else Throw (domain_error "#E_INFINITE"))
              else cast (Z.quot l r)
  | _ => Throw (domain_error "#E_UNKNOWN_OP")
  end.
Proof.
  unfold evaluate, d_add, d_sub, d_mul, d_div, static_cast_int.
  destruct op; simpl; try reflexivity.
  - rewrite trunc_add. now destruct (_ && _).
  - rewrite trunc_sub. now destruct (_ && _).
  - rewrite trunc_mul. now destruct (_ && _).
  - destruct (Z.eqb_spec r 0) as [->|Hr].
    + now destruct (l =? 0).
    + simpl. rewrite trunc_div by assumption. now destruct (_ && _).
Qed.

(** [evaluate] fails on any operand that is not a number. *)
Lemma evaluate_not_numbers (a b : Token) (op : oper) (ts : list Token) :
  (forall l r, (a, b) <> (T_NUMBER l, T_NUMBER r)) ->
  evaluate (b :: a :: ts) op = Throw (domain_error "#E_UNEXP_EXPR").
Proof.
  intros H. destruct a as [|l|s], b as [|r|s']; try reflexivity.
  now destruct (H l r).
Qed.



(** C2.  Division by the number 0: a non-zero dividend gives an infinity
    and [evaluate] throws "#E_INFINITE", which [run] turns into the text
    displayed for the cell of [=5/0]; the dividend 0 gives a NaN, which
    [isinf] does not see, so nothing is thrown and the cast that follows
    has no defined result. *)
Theorem evaluate_zero_by_zero (tk : Tokenizer) (fuel : nat) (st : state) :
  evaluate [T_NUMBER 0; T_NUMBER 0] OP_DIV = Undefined /\
  parse_expr tk (S fuel) "0/0" st = (Undefined, st) /\
  fst (run zero_by_zero_grid (S fuel) initial) = Undefined /\
  evaluate [T_NUMBER 0; T_NUMBER 5] OP_DIV = Throw (domain_error "#E_INFINITE") /\
  parse_expr tk (S fuel) "5/0" st = (Throw (domain_error "#E_INFINITE"), st) /\
  display division_grid (S fuel) (0, 0) = Some "#E_INFINITE" /\
  display division_grid (S fuel) (0, 1) = Some "4".
Proof. repeat split; reflexivity. Qed.

(** ** Unfolding the monad *)

Ltac unfold_monad :=
  unfold bind, ret, throw, undefined, out_of_fuel, lift, try_catch,
    contains, emplace, assign, at_key, print_cerr in *.

(** [evaluate] throws nothing but a [domain_error] and needs no fuel. *)
Lemma evaluate_outcome (ts : list Token) (o : oper) :
  match evaluate ts o with
  | Ret _ | Throw (domain_error _) | Undefined => True
  | _ => False
  end.
Proof.
  destruct ts as [|a [|b ts]]; try exact I.
  destruct a as [|r|?], b as [|l|?]; try exact I.
  rewrite evaluate_numbers; cbv zeta.
  destruct o; repeat (match goal with |- context [if ?b then _ else _] => destruct b end);
    exact I.
Qed.

(** [reduce] leaves the state alone. *)
Lemma reduce_state (ls : locals) (st : state) :
  exists r, reduce ls st = (r, st) /\
            match r with
            | Ret _ | Throw (domain_error _) | Undefined => True
            | _ => False
            end.
Proof.
  unfold reduce. destruct (_ && _); unfold_monad;
    [|eexists; split; [reflexivity|exact I]].
  pose proof (evaluate_outcome (toks ls) (op ls)) as H.
  destruct (evaluate (toks ls) (op ls)) as [[t ts]|e| |];
    (eexists; split; [reflexivity|assumption]).
Qed.

(** ** How the state grows *)

Lemma grows_trans (a b c : state) : grows a b -> grows b c -> grows a c.
Proof.
  induction 1; intros Hc; eauto using grows.
Qed.

Lemma grows_cache_stable (st st' : state) (k : string) (t : Token) :
  grows st st' ->
  map_ref_cells st !! k = Some t -> map_ref_cells st' !! k = Some t.
Proof.
  induction 1 as [st|st j st1 u st2 Hj _ IH1 _ IH2|st j st1 Hj _ IH|st msg st1 _ IH];
    intros Hk; auto.
  - apply IH2. simpl. rewrite lookup_insert_ne by congruence.
    apply IH1. simpl. rewrite lookup_insert_ne by congruence. assumption.
  - apply IH. simpl. rewrite lookup_insert_ne by congruence. assumption.
Qed.

Lemma grows_dom (st st' : state) :
  grows st st' -> dom (map_ref_cells st) ⊆ dom (map_ref_cells st').
Proof.
  intros H k [t Hk]%elem_of_dom. apply elem_of_dom.
  eauto using grows_cache_stable.
Qed.




(** ** Every call grows the state *)

Lemma sound_refl {A} (r : outcome A) (st : state) : expected r -> sound r st st.
Proof. intros H. repeat split; [constructor|assumption]. Qed.

Section Sound.

Variable tk : Tokenizer.
Variable prec : string -> M Token.

Hypothesis prec_sound :
  forall str st r st', prec str st = (r, st') -> sound r st st'.

Lemma parse_reference_sound (coords : coords) (st : state) r st' :
  map_ref_cells st !! get_cell_by_coords coords = None ->
  parse_reference tk prec coords st = (r, st') -> sound r st st'.
Proof.
  intros Hk H. unfold parse_reference in H.
  destruct (table_at tk coords.1 coords.2) as [s|]; unfold_monad.
  2:{ injection H as <- <-. now apply sound_refl. }
  rewrite Hk in H. simpl in H. rewrite Hk in H. simpl in H.
  destruct (is_expression s).
  { destruct (prec (substr1 s) (reserve (get_cell_by_coords coords) st))
      as [r1 st1] eqn:E1.
    apply prec_sound in E1 as (G1 & C1 & L1).
    destruct r1 as [t|[w|w|w]| |]; simpl in H; injection H as <- <-;
      (split; [|split; [assumption|]]);
      try (eapply grows_open; eassumption);
      try (eapply grows_done; [eassumption|eassumption|constructor]);
      try exact I; assumption. }
  destruct (is_number s).
  { unfold stoi in H. destruct (_ <=? _); simpl in H; injection H as <- <-;
      (split; [|split; [reflexivity|reflexivity || exact I]]).
    - eapply grows_done; [eassumption|constructor|constructor].
    - eapply grows_open; [eassumption|constructor]. }
  destruct (is_string_literal s);
    [|destruct (empty s)]; simpl in H; injection H as <- <-;
    (split; [|split; [reflexivity|exact I]]);
    try (eapply grows_done; [eassumption|constructor|constructor]).
  eapply grows_open; [eassumption|constructor].
Qed.

Lemma reduce_sound (ls0 : locals) (it : string) (st st0 : state) r0 st0' :
  sound (Ret tt) st st0 ->
  (ls' <- reduce ls0;; ret (it, ls')) st0 = (r0, st0') ->
  sound r0 st st0'.
Proof.
  intros (G & C & _) H. unfold_monad.
  destruct (reduce_state ls0 st0) as (x & Ex & Hx). rewrite Ex in H.
  destruct x as [?|[w|w|w]| |]; try contradiction; injection H as <- <-;
    (split; [assumption|split; [assumption|exact I]]).
Qed.

Lemma step_sound (c : ascii) (rest : string) (ls : locals) (st : state) r st' :
  step tk prec c rest ls st = (r, st') -> sound r st st'.
Proof.
  unfold step. intros H.
  destruct (is_operator c).
  { destruct (_ || _); unfold_monad; injection H as <- <-;
      now apply sound_refl. }
  destruct (isdigit c).
  { eapply reduce_sound; [|exact H]. now apply sound_refl. }
  destruct (is_ref_candidate tk c);
    [|unfold_monad; injection H as <- <-; now apply sound_refl].
  destruct (_ || _);
    [unfold_monad; injection H as <- <-; now apply sound_refl|].
  set (k := get_cell_by_coords _) in H.
  unfold bind at 1 in H. unfold contains in H.
  destruct (map_ref_cells st !! k) as [t|] eqn:Ek; simpl in H.
  - unfold bind at 1 in H. unfold bind at 1 in H. unfold at_key at 1 in H.
    rewrite Ek in H. destruct (is_incomplete t).
    + unfold_monad. injection H as <- <-. now apply sound_refl.
    + unfold at_key in H. rewrite Ek in H.
      eapply reduce_sound; [|exact H]. now apply sound_refl.
  - unfold bind at 1 in H.
    destruct (parse_reference tk prec _ st) as [r1 st1] eqn:E1.
    apply parse_reference_sound in E1 as (G1 & C1 & L1); [|exact Ek].
    destruct r1 as [t|e| |];
      try (injection H as <- <-; repeat split; assumption).
    eapply reduce_sound; [|exact H]. repeat split; assumption.
Qed.

Lemma scan_sound (gas : nat) (it : string) (ls : locals) (st : state) r st' :
  scan tk prec gas it ls st = (r, st') -> sound r st st'.
Proof.
  revert it ls st. induction gas as [|gas IH]; intros it ls st H;
    destruct it as [|c rest]; simpl in H; unfold_monad;
    try (injection H as <- <-; now apply sound_refl).
  destruct (step tk prec c rest ls st) as [r1 st1] eqn:E1.
  apply step_sound in E1 as (G1 & C1 & L1).
  destruct r1 as [[it1 ls1]|e| |];
    try (injection H as <- <-; repeat split; assumption).
  apply IH in H as (G2 & C2 & L2).
  repeat split; [eapply grows_trans; eassumption|congruence|assumption].
Qed.

End Sound.

Lemma parse_expr_sound (tk : Tokenizer) (fuel : nat) (str : string) (st : state) r st' :
  parse_expr tk fuel str st = (r, st') -> sound r st st'.
Proof.
  revert str st r st'. induction fuel as [|fuel IH]; intros str st r st' H;
    simpl in H; unfold_monad.
  - injection H as <- <-. now apply sound_refl.
  - destruct (scan tk (parse_expr tk fuel) _ str _ st) as [r1 st1] eqn:E1.
    apply scan_sound in E1 as (G1 & C1 & L1); [|exact IH].
    destruct r1 as [ls|e| |]; injection H as <- <-;
      repeat split; assumption.
Qed.

(** ** The driver *)

(** One turn of the loop of [run], for a cell without an entry. *)
Lemma run_turn (tk : Tokenizer) (fuel : nat) (ex : Expr) (exprs : list Expr) (st : state) :
  map_ref_cells st !! get_cell_by_coords (m_coords ex) = None ->
  run_loop tk fuel (ex :: exprs) st =
  let k := get_cell_by_coords (m_coords ex) in
  match parse_expr tk fuel (m_value ex) (reserve k st) with
  | (Ret t, st1) => run_loop tk fuel exprs (commit k t st1)
  | (Throw (domain_error w), st1) =>
      run_loop tk fuel exprs (commit k (T_STRING w) st1)
  | (Throw (logic_error w), st1) | (Throw (out_of_range w), st1) =>
      run_loop tk fuel exprs (commit k T_UNDEFINED (report w st1))
  | (Undefined, st1) => (Undefined, st1)
  | (OutOfFuel, st1) => (OutOfFuel, st1)
  end.
Proof.
  intros Hk. cbn [run_loop]. unfold_monad. rewrite Hk. simpl. rewrite Hk. simpl.
  destruct (parse_expr tk fuel (m_value ex) _) as [[t|[w|w|w]| |] st1];
    reflexivity.
Qed.

(** A turn for a cell that has an entry is skipped. *)
Lemma run_skip (tk : Tokenizer) (fuel : nat) (ex : Expr) (exprs : list Expr)
    (st : state) (t : Token) :
  map_ref_cells st !! get_cell_by_coords (m_coords ex) = Some t ->
  run_loop tk fuel (ex :: exprs) st = run_loop tk fuel exprs st.
Proof. intros Hk. cbn [run_loop]. unfold_monad. now rewrite Hk. Qed.

Lemma run_loop_sound (tk : Tokenizer) (fuel : nat) (exprs : list Expr) (st : state) r st' :
  run_loop tk fuel exprs st = (r, st') ->
  grows st st' /\
  (exists msgs, cerr st' = cerr st ++ msgs /\ Forall (eq "stoi") msgs) /\
  match r with
  | Ret _ =>
      forall ex, ex ∈ exprs ->
                 is_Some (map_ref_cells st' !! get_cell_by_coords (m_coords ex))
  | Throw _ => False
  | _ => True
  end.
Proof.
  revert st. induction exprs as [|ex exprs IH]; intros st H.
  - injection H as <- <-. split; [constructor|]. split.
    + exists []. now rewrite app_nil_r.
    + intros ex Hex. inversion Hex.
  - set (k := get_cell_by_coords (m_coords ex)).
    destruct (map_ref_cells st !! k) as [t|] eqn:Ek.
    + rewrite (run_skip _ _ _ _ _ t Ek) in H.
      destruct (IH _ H) as (G & C & R). split; [assumption|]. split; [assumption|].
      destruct r; try assumption.
      intros ex' [->|Hin]%elem_of_cons; [|now apply R].
      exists t. eapply grows_cache_stable; eassumption.
    + rewrite (run_turn _ _ _ _ _ Ek) in H. cbv zeta in H. fold k in H.
      destruct (parse_expr tk fuel (m_value ex) (reserve k st)) as [r1 st1] eqn:E1.
      apply parse_expr_sound in E1 as (G1 & C1 & L1).
      assert (Hdone : forall t st2 msgs,
                 cerr st2 = cerr st1 ++ msgs -> Forall (eq "stoi") msgs ->
                 grows st1 st2 ->
                 run_loop tk fuel exprs (commit k t st2) = (r, st') ->
                 grows st st' /\
                 (exists msgs, cerr st' = cerr st ++ msgs /\ Forall (eq "stoi") msgs) /\
                 match r with
                 | Ret _ =>
                     forall ex0, ex0 ∈ ex :: exprs ->
                       is_Some (map_ref_cells st' !! get_cell_by_coords (m_coords ex0))
                 | Throw _ => False
                 | _ => True
                 end).
      { intros t st2 msgs Hc Hm G2 H2.
        destruct (IH _ H2) as (G & (msgs' & C & M) & R). split; [|split].
        - eapply grows_done; [exact Ek| |exact G].
          eapply grows_trans; eassumption.
        - exists (msgs ++ msgs'). split.
          + rewrite C. simpl. rewrite Hc, C1. simpl. now rewrite app_assoc.
          + now apply Forall_app.
        - destruct r; try assumption.
          intros ex' [->|Hin]%elem_of_cons; [|now apply R].
          exists t. eapply grows_cache_stable; [exact G|]. simpl.
          apply lookup_insert_eq. }
      destruct r1 as [t|[w|w|w]| |].
      * eapply (Hdone t st1 []); [now rewrite app_nil_r|constructor|constructor|exact H].
      * eapply (Hdone _ st1 []); [now rewrite app_nil_r|constructor|constructor|exact H].
      * contradiction.
      * simpl in L1. subst w.
        eapply (Hdone _ (report "stoi" st1) ["stoi"]);
          [reflexivity|repeat constructor| |exact H].
        apply (grows_report _ "stoi"). constructor.
      * injection H as <- <-. split; [eapply grows_open; eassumption|].
        split; [|exact I]. exists []. now rewrite app_nil_r.
      * injection H as <- <-. split; [eapply grows_open; eassumption|].
        split; [|exact I]. exists []. now rewrite app_nil_r.
Qed.

(** ** Commits in the trace of a move *)







(** ** References *)

Lemma char_val_A : char_val "A" = 65.
Proof. reflexivity. Qed.

Lemma char_val_a : char_val "a" = 97.
Proof. reflexivity. Qed.

(** A reference candidate is a letter of the block the column count
    selects. *)
Lemma is_ref_candidate_range (tk : Tokenizer) (c : ascii) :
  is_ref_candidate tk c = true ->
  (m_cols tk <= 26 /\ 65 <= char_val c <= 64 + m_cols tk) \/
  (26 < m_cols tk <= 52 /\ 97 <= char_val c <= 70 + m_cols tk).
Proof.
  unfold is_ref_candidate. rewrite char_val_A, char_val_a.
  intros H. apply orb_prop in H as [H|H];
    repeat (apply andb_prop in H as [? H]); [left|right]; lia.
Qed.

Lemma is_ref_candidate_not_operator (tk : Tokenizer) (c : ascii) :
  is_ref_candidate tk c = true -> is_operator c = false /\ isdigit c = false.
Proof.
  intros H. apply is_ref_candidate_range in H.
  split.
  - assert (Hne : forall d, char_val d < 65 -> c <> d) by (intros d Hd ->; lia).
    unfold is_operator, get_operator.
    rewrite (bool_decide_eq_false_2 (c = "*"%char)) by (apply Hne; reflexivity).
    rewrite (bool_decide_eq_false_2 (c = "/"%char)) by (apply Hne; reflexivity).
    rewrite (bool_decide_eq_false_2 (c = "+"%char)) by (apply Hne; reflexivity).
    rewrite (bool_decide_eq_false_2 (c = "-"%char)) by (apply Hne; reflexivity).
    reflexivity.
  - unfold isdigit. lia.
Qed.

Lemma to_short_small (z : Z) : -32768 <= z < 32768 -> to_short z = z.
Proof.
  intros H. unfold to_short, wrap.
  change (2 ^ (16 - 1)) with 32768. change (2 ^ 16) with 65536.
  rewrite Z.mod_small by lia. lia.
Qed.

Lemma get_col_by_char_range (tk : Tokenizer) (c : ascii) :
  is_ref_candidate tk c = true -> 0 <= get_col_by_char tk c < 26.
Proof.
  intros H. apply is_ref_candidate_range in H. unfold get_col_by_char.
  rewrite char_val_A, char_val_a.
  destruct H as [[H1 H2]|[H1 H2]].
  - destruct (Z.leb_spec (m_cols tk) 26); [|lia].
    rewrite to_short_small; lia.
  - destruct (Z.leb_spec (m_cols tk) 26); [lia|].
    destruct (Z.ltb_spec 26 (m_cols tk)); [|lia].
    destruct (Z.leb_spec (m_cols tk) 52); [|lia]. simpl.
    rewrite to_short_small; lia.
Qed.

(** The turn of the loop of [parse_expr] on a reference. *)
Lemma step_reference (tk : Tokenizer) (prec : string -> M Token)
    (c : ascii) (rest : string) (ls : locals) (st : state) :
  is_ref_candidate tk c = true ->
  step tk prec c rest ls st =
  let col := get_col_by_char tk c in
  let r := get_number_by_str rest in
  let row := to_short (to_int (r.1 - 1)) in
  if (row + 1 >? m_rows tk) || (row <? 0)
  then (Throw (domain_error "#E_INVALID_REF"), st)
  else
    match map_ref_cells st !! get_cell_by_coords (row, col) with
    | Some T_UNDEFINED => (Throw (domain_error "#E_CROSS_REF"), st)
    | Some t =>
        (ls' <- reduce (mkLocals (t :: toks ls) (op ls) t);; ret (r.2, ls')) st
    | None =>
        (t <- parse_reference tk prec (row, col);;
         ls' <- reduce (mkLocals (t :: toks ls) (op ls) t);; ret (r.2, ls')) st
    end.
Proof.
  intros H. destruct (is_ref_candidate_not_operator _ _ H) as [Ho Hd].
  unfold step. rewrite Ho, Hd, H. cbv zeta.
  destruct (_ || _); [reflexivity|].
  unfold bind at 1. unfold contains.
  destruct (map_ref_cells st !! _) as [t|] eqn:Ek; simpl.
  - unfold bind at 1. unfold bind at 1. unfold at_key at 1. rewrite Ek.
    destruct t; simpl; try reflexivity;
      unfold bind at 1; unfold at_key; now rewrite Ek.
  - reflexivity.
Qed.

(** ** The cache over a run *)



(** C10.  [parse_expr] calls [parse_reference] only for a cell it found
    no entry for, so the internal error of [parse_reference] is never
    thrown: nothing raised within the engine is that [logic_error], and
    nothing [run] reports is its message. *)
Theorem internal_error_unreachable
    (tk : Tokenizer) (fuel : nat) (st : state) (r : outcome unit) (st' : state) :
  run tk fuel st = (r, st') ->
  (forall str s0 what,
      fst (parse_expr tk fuel str s0) <> Throw (logic_error what)) /\
  reports_only_stoi st st'.
Proof.
  intros H. split.
  - intros str s0 what Hr.
    destruct (parse_expr tk fuel str s0) as [r0 s1] eqn:E. simpl in Hr. subst r0.
    apply parse_expr_sound in E as (_ & _ & L). exact L.
  - apply run_loop_sound in H as (_ & (msgs & C & M) & _).
    exists msgs. repeat split; try assumption.
    intros Hin. rewrite Forall_forall in M. now specialize (M _ Hin).
Qed.

Lemma internal_error_unreachable_witness :
  (forall str s0 what,
      fst (parse_expr long_number_grid 3 str s0) <> Throw (logic_error what)) /\
  reports_only_stoi initial (snd (run long_number_grid 3 initial)).
Proof.
  apply (internal_error_unreachable long_number_grid 3 initial (Ret tt)).
  vm_compute. reflexivity.
Defined.

(** The handler of [run] for [logic_error] does fire: a reference to a
    number literal that [int] cannot hold makes [stoi] throw
    [out_of_range], which only that handler catches. *)
Lemma long_number_fires_handler :
  fst (run long_number_grid 3 initial) = Ret tt /\
  cerr (snd (run long_number_grid 3 initial)) = ["stoi"] /\
  cerr (snd (run long_number_grid 3 initial)) <> cerr initial.
Proof. vm_compute. repeat split; discriminate. Qed.

(** ** Digit runs *)

Lemma append_cons (c : ascii) (s t : string) : String c s +:+ t = String c (s +:+ t).
Proof. reflexivity. Qed.

Lemma append_nil_l (t : string) : EmptyString +:+ t = t.
Proof. reflexivity. Qed.

Lemma append_nil_r (s : string) : s +:+ EmptyString = s.
Proof. induction s as [|c s IH]; [reflexivity|]. now rewrite append_cons, IH. Qed.

Lemma get_number_loop_rest (num : Z) (c : ascii) (rest : string) :
  starts_with_digit (get_number_loop num c rest).2 = false /\
  (String.length (get_number_loop num c rest).2 <= String.length rest)%nat.
Proof.
  revert num c. induction rest as [|d rest IH]; intros num c; simpl.
  - split; [reflexivity|lia].
  - destruct (isdigit d) eqn:Ed.
    + destruct (IH (to_int (char_val c - char_val "0" + num * 10)) d) as [H1 H2].
      split; [assumption|lia].
    + simpl. split; [assumption|lia].
Qed.

(** A digit run is read whole, and nothing after it is touched. *)
Lemma get_number_loop_app (num : Z) (c : ascii) (d more : string) :
  all_digits d = true -> starts_with_digit more = false ->
  get_number_loop num c (d +:+ more) = ((get_number_loop num c d).1, more).
Proof.
  revert num c. induction d as [|y d IH]; intros num c Hd Hm;
    rewrite ?append_cons, ?append_nil_l; simpl.
  - destruct more as [|x more]; [reflexivity|]. simpl in Hm |- *. now rewrite Hm.
  - simpl in Hd. apply andb_prop in Hd as [Hy Hd]. rewrite Hy.
    now apply IH.
Qed.

Lemma get_number_by_str_app (d more : string) :
  is_number d = true -> starts_with_digit more = false ->
  get_number_by_str (d +:+ more) = (number d, more).
Proof.
  unfold is_number, number. destruct d as [|c d]; [discriminate|].
  rewrite append_cons. simpl. intros [_ Hd]%andb_prop Hm.
  now apply get_number_loop_app.
Qed.

Lemma get_number_by_str_digits (d : string) :
  is_number d = true -> get_number_by_str d = (number d, EmptyString).
Proof.
  intros H. pose proof (get_number_by_str_app d EmptyString H eq_refl) as E.
  now rewrite append_nil_r in E.
Qed.

Lemma is_number_front (d : string) :
  is_number d = true -> exists c rest, d = String c rest /\ isdigit c = true.
Proof.
  unfold is_number. destruct d as [|c d]; [discriminate|]. simpl.
  intros [Hc _]%andb_prop. eauto.
Qed.

Lemma isdigit_not_operator (c : ascii) : isdigit c = true -> is_operator c = false.
Proof.
  intros H. assert (Hne : forall d, isdigit d = false -> c <> d)
    by (intros d Hd ->; congruence).
  unfold is_operator, get_operator.
  rewrite (bool_decide_eq_false_2 (c = "*"%char)) by (apply Hne; reflexivity).
  rewrite (bool_decide_eq_false_2 (c = "/"%char)) by (apply Hne; reflexivity).
  rewrite (bool_decide_eq_false_2 (c = "+"%char)) by (apply Hne; reflexivity).
  rewrite (bool_decide_eq_false_2 (c = "-"%char)) by (apply Hne; reflexivity).
  reflexivity.
Qed.

Lemma is_operator_not_digit (c : ascii) : is_operator c = true -> isdigit c = false.
Proof.
  intros H. destruct (isdigit c) eqn:E; [|reflexivity].
  apply isdigit_not_operator in E. congruence.
Qed.

Lemma is_operator_known (c : ascii) :
  is_operator c = true ->
  get_operator c <> OP_UNKNOWN /\ get_operator c <> OP_NONE.
Proof.
  unfold is_operator. intros H. apply negb_true_iff, bool_decide_eq_false in H.
  split; [assumption|]. unfold get_operator.
  repeat (destruct (bool_decide _); [discriminate|]). discriminate.
Qed.

(** The turn of the loop of [parse_expr] on a digit. *)
Lemma step_digit (tk : Tokenizer) (prec : string -> M Token)
    (c : ascii) (rest : string) (ls : locals) (st : state) :
  isdigit c = true ->
  step tk prec c rest ls st =
  let r := get_number_by_str (String c rest) in
  bind (reduce (mkLocals (T_NUMBER r.1 :: toks ls) (op ls) (tok ls)))
       (fun ls' => ret (r.2, ls')) st.
Proof.
  intros H. unfold step. now rewrite (isdigit_not_operator _ H), H.
Qed.

(** The turn of the loop of [parse_expr] on an operator. *)
Lemma step_operator (tk : Tokenizer) (prec : string -> M Token)
    (c : ascii) (rest : string) (ls : locals) (st : state) :
  is_operator c = true ->
  step tk prec c rest ls st =
  if negb (bool_decide (op ls = OP_NONE)) || bool_decide (toks ls = [])
  then (Throw (domain_error "#E_UNEXP_SYMBOL"), st)
  else (Ret (rest, mkLocals (toks ls) (get_operator c) (tok ls)), st).
Proof.
  intros H. unfold step. rewrite H. now destruct (_ || _).
Qed.

(** ** Flat reduction *)

Lemma length_append (s t : string) :
  String.length (s +:+ t) = (String.length s + String.length t)%nat.
Proof.
  induction s as [|c s IH]; [reflexivity|].
  rewrite append_cons. simpl. now rewrite IH.
Qed.

Lemma evaluate_two (a b : Token) (o : oper) (r : Token * list Token) :
  evaluate [b; a] o = Ret r -> r.2 = [].
Proof.
  destruct a as [|l|?], b as [|n|?]; try discriminate.
  rewrite evaluate_numbers. cbv zeta.
  destruct o; try discriminate;
    repeat (match goal with |- context [if ?b then _ else _] => destruct b end);
    try discriminate; now intros [= <-].
Qed.

Lemma reduces_at_once_holds : reduces_at_once.
Proof.
  intros a b o t0 st Hn Hu. unfold reduce. simpl.
  rewrite !bool_decide_eq_false_2 by assumption. simpl.
  unfold_monad.
  destruct (evaluate [b; a] o) as [r| | |] eqn:E; try reflexivity.
  now rewrite (evaluate_two _ _ _ _ E).
Qed.

Lemma tail_text_no_digit (more : list (ascii * string)) :
  Forall (fun p => is_operator p.1 = true /\ is_number p.2 = true) more ->
  starts_with_digit (tail_text more) = false.
Proof.
  intros H. destruct H as [|[o d] more [Ho _] _]; [reflexivity|].
  simpl. now apply is_operator_not_digit.
Qed.

Section Flat.

Variable tk : Tokenizer.
Variable prec : string -> M Token.

Lemma scan_flat (more : list (ascii * string)) (gas : nat)
    (acc t0 : Token) (st : state) :
  Forall (fun p => is_operator p.1 = true /\ is_number p.2 = true) more ->
  (String.length (tail_text more) <= gas)%nat ->
  match reduce_flat acc more with
  | Ret t => exists t1,
      scan tk prec gas (tail_text more) (mkLocals [acc] OP_NONE t0) st =
      (Ret (mkLocals [t] OP_NONE t1), st)
  | Throw e =>
      scan tk prec gas (tail_text more) (mkLocals [acc] OP_NONE t0) st =
      (Throw e, st)
  | Undefined =>
      scan tk prec gas (tail_text more) (mkLocals [acc] OP_NONE t0) st =
      (Undefined, st)
  | OutOfFuel => False
  end.
Proof.
  intros Hall. revert gas acc t0.
  induction Hall as [|[o d] more [Ho Hd] Hmore IH]; intros gas acc t0 Hgas.
  - simpl. exists t0. now destruct gas.
  - simpl in Ho, Hd.
    destruct (is_number_front _ Hd) as (c & d' & -> & Hc).
    cbn [tail_text] in Hgas |- *. rewrite append_cons in Hgas |- *.
    simpl String.length in Hgas. rewrite length_append in Hgas.
    destruct gas as [|[|gas]]; [lia|lia|].
    destruct (is_operator_known _ Ho) as [Hu Hn].
    assert (Hscan :
      scan tk prec (S (S gas)) (String o (String c (d' +:+ tail_text more)))
           (mkLocals [acc] OP_NONE t0) st =
      match evaluate [T_NUMBER (number (String c d')); acc] (get_operator o) with
      | Ret r => scan tk prec gas (tail_text more) (mkLocals [r.1] OP_NONE r.1) st
      | Throw e => (Throw e, st)
      | Undefined => (Undefined, st)
      | OutOfFuel => (OutOfFuel, st)
      end).
    { cbn [scan]. unfold bind at 1.
      rewrite step_operator by assumption. simpl.
      unfold bind at 1. rewrite step_digit by assumption. cbv zeta.
      rewrite <- append_cons.
      rewrite (get_number_by_str_app _ _ Hd (tail_text_no_digit _ Hmore)).
      cbn [fst snd toks op tok]. unfold bind at 1.
      rewrite reduces_at_once_holds by assumption.
      now destruct (evaluate _ _). }
    rewrite Hscan. cbn [reduce_flat].
    pose proof (evaluate_outcome [T_NUMBER (number (String c d')); acc]
                  (get_operator o)) as Hev.
    destruct (evaluate _ _) as [r|e| |]; try reflexivity; try contradiction.
    apply IH. lia.
Qed.

End Flat.

(** C5.  A formula over numbers is evaluated strictly left to right with
    flat precedence: each number is reduced with the value so far as
    soon as it is pushed, whatever the operators, so that [2+3*4] is 20. *)
Theorem parse_expr_flat_left_to_right
    (tk : Tokenizer) (fuel : nat) (st : state)
    (d0 : string) (more : list (ascii * string)) :
  is_number d0 = true ->
  Forall (fun p => is_operator p.1 = true /\ is_number p.2 = true) more ->
  parse_expr tk (S fuel) (formula d0 more) st =
    (reduce_flat (T_NUMBER (number d0)) more, st) /\
  reduces_at_once /\
  parse_expr tk (S fuel) "2+3*4" st = (Ret (T_NUMBER 20), st).
Proof.
  intros Hd Hall. split; [|split; [apply reduces_at_once_holds|reflexivity]].
  destruct (is_number_front _ Hd) as (c & d' & -> & Hc).
  set (gas := (String.length d' + String.length (tail_text more))%nat).
  assert (Hfirst :
    scan tk (parse_expr tk fuel) (String.length (formula (String c d') more))
         (formula (String c d') more) start st =
    scan tk (parse_expr tk fuel) gas (tail_text more)
         (mkLocals [T_NUMBER (number (String c d'))] OP_NONE T_UNDEFINED) st).
  { unfold formula, start. rewrite length_append, append_cons.
    cbn [String.length Nat.add scan]. fold gas.
    unfold bind at 1. rewrite step_digit by assumption. cbv zeta.
    rewrite <- append_cons.
    rewrite (get_number_by_str_app _ _ Hd (tail_text_no_digit _ Hall)).
    reflexivity. }
  cbn [parse_expr]. unfold bind at 1. rewrite Hfirst.
  pose proof (scan_flat tk (parse_expr tk fuel) more gas
                (T_NUMBER (number (String c d'))) T_UNDEFINED st Hall
                ltac:(unfold gas; lia)) as H.
  destruct (reduce_flat _ more) as [t|e| |].
  - destruct H as [t1 ->]. reflexivity.
  - now rewrite H.
  - now rewrite H.
  - contradiction.
Qed.

Lemma parse_expr_flat_left_to_right_witness :
  parse_expr sample_grid 1 (formula "2" [("+"%char, "3"); ("*"%char, "4")]) initial =
    (reduce_flat (T_NUMBER (number "2")) [("+"%char, "3"); ("*"%char, "4")], initial) /\
  reduces_at_once /\
  parse_expr sample_grid 1 "2+3*4" initial = (Ret (T_NUMBER 20), initial).
Proof.
  apply (parse_expr_flat_left_to_right sample_grid 0 initial "2"
           [("+"%char, "3"); ("*"%char, "4")]).
  - reflexivity.
  - repeat constructor.
Defined.

(** ** The loop of [parse_expr] *)

Lemma parse_expr_unfold (tk : Tokenizer) (fuel : nat) (str : string) (st : state) :
  parse_expr tk (S fuel) str st =
  match scan tk (parse_expr tk fuel) (String.length str) str start st with
  | (Ret ls, st') => (Ret (result ls), st')
  | (Throw e, st') => (Throw e, st')
  | (Undefined, st') => (Undefined, st')
  | (OutOfFuel, st') => (OutOfFuel, st')
  end.
Proof. reflexivity. Qed.

Lemma get_number_by_str_rest (it : string) :
  starts_with_digit (get_number_by_str it).2 = false /\
  (String.length (get_number_by_str it).2 <= String.length it)%nat /\
  (it <> EmptyString ->
   (String.length (get_number_by_str it).2 < String.length it)%nat).
Proof.
  destruct it as [|c rest]; simpl.
  - repeat split; [lia|congruence].
  - destruct (get_number_loop_rest 0 c rest) as [H1 H2].
    repeat split; [assumption|lia|lia].
Qed.

Lemma start_invariant (it : string) : loop_invariant it start.
Proof.
  unfold loop_invariant, start. simpl.
  repeat split; try congruence; lia.
Qed.

Section Loop.

Variable tk : Tokenizer.
Variable prec : string -> M Token.

(** What a push followed by [reduce] leaves, when it returns. *)
Lemma reduce_pushed (t t0 : Token) (ts : list Token) (o : oper)
    (st : state) (ls' : locals) (st' : state) :
  reduce (mkLocals (t :: ts) o t0) st = (Ret ls', st') ->
  st' = st /\
  ((length ts = 1%nat /\ o <> OP_NONE /\ o <> OP_UNKNOWN /\
    exists v, evaluate (t :: ts) o = Ret (v, []) /\ ls' = mkLocals [v] OP_NONE v) \/
   (~ (length ts = 1%nat /\ o <> OP_NONE /\ o <> OP_UNKNOWN) /\
    ls' = mkLocals (t :: ts) o t0)).
Proof.
  unfold reduce. cbn [toks op tok length].
  destruct (Nat.eqb_spec (S (length ts)) 2) as [Hl|Hl];
    [destruct (decide (o = OP_NONE)) as [Hn|Hn];
     [|destruct (decide (o = OP_UNKNOWN)) as [Hu|Hu]]|].
  - rewrite (bool_decide_eq_true_2 _ Hn). simpl. intros [= <- <-].
    split; [reflexivity|]. right. split; [tauto|reflexivity].
  - rewrite (bool_decide_eq_false_2 _ Hn), (bool_decide_eq_true_2 _ Hu). simpl.
    intros [= <- <-]. split; [reflexivity|]. right. split; [tauto|reflexivity].
  - rewrite (bool_decide_eq_false_2 _ Hn), (bool_decide_eq_false_2 _ Hu). simpl.
    unfold_monad. destruct ts as [|a [|b ts]]; try discriminate.
    destruct (evaluate [t; a] o) as [[v ts']| | |] eqn:E; try discriminate.
    intros [= <- <-]. split; [reflexivity|]. left.
    repeat split; try assumption. exists v.
    pose proof (evaluate_two _ _ _ _ E) as Hts. simpl in Hts. subst ts'.
    split; reflexivity.
  - simpl. intros [= <- <-]. split; [reflexivity|]. right.
    split; [|reflexivity]. intros [Hl' _]. lia.
Qed.

Lemma step_invariant (c : ascii) (rest : string) (ls : locals) (st : state)
    (it' : string) (ls' : locals) (st' : state) :
  loop_invariant (String c rest) ls ->
  step tk prec c rest ls st = (Ret (it', ls'), st') ->
  loop_invariant it' ls' /\ toks ls' <> [] /\
  (String.length it' <= String.length rest)%nat.
Proof.
  intros (Iu & Id & Im & Ih) H.
  destruct (is_operator c) eqn:Eo.
  { rewrite step_operator in H by assumption.
    destruct (negb _ || _) eqn:Ec; [discriminate|].
    apply orb_false_elim in Ec as [_ Ec]. apply bool_decide_eq_false in Ec.
    injection H as <- <- <-.
    destruct (is_operator_known _ Eo) as [Hu Hn].
    unfold loop_invariant. cbn [toks op tok].
    repeat split; try assumption; try (intros; congruence). lia. }
  assert (Hpush : forall t t0 it0 st0,
             (t0 = t \/ (t0 = tok ls /\ isdigit c = true)) ->
             starts_with_digit it0 = false ->
             bind (reduce (mkLocals (t :: toks ls) (op ls) t0))
                  (fun l => ret (it0, l)) st0 = (Ret (it', ls'), st') ->
             loop_invariant it' ls' /\ toks ls' <> [] /\ it' = it0).
  { intros t t0 it0 st0 Ht0 Hit Hr. unfold bind in Hr.
    destruct (reduce _ st0) as [[l| | |] st1] eqn:Er; try discriminate.
    injection Hr as <- <- <-.
    apply reduce_pushed in Er as [_ [(Hl & Hn & Hu & v & _ & ->)|[Hnot ->]]].
    - unfold loop_invariant. cbn.
      repeat split; try congruence; try lia; intros; try congruence; lia.
    - unfold loop_invariant. cbn [toks op tok].
      split; [|split; [discriminate|reflexivity]].
      assert (Hcase : toks ls = [] \/ t0 = t \/
                      ((2 <= length (toks ls))%nat /\ t0 = tok ls /\ op ls <> OP_NONE)).
      { destruct Ht0 as [->|[-> Hdig]]; [tauto|].
        destruct (toks ls) as [|a [|b ts]] eqn:Et; [tauto| |].
        - exfalso.
          destruct (decide (op ls = OP_NONE)) as [Hn|Hn].
          + assert (Hx : starts_with_digit (String c rest) = false)
              by (apply Id; congruence).
            simpl in Hx. congruence.
          + apply Hnot. tauto.
        - right. right. split; [simpl; lia|]. split; [reflexivity|].
          intros Hn.
          assert (Hx : starts_with_digit (String c rest) = false)
            by (apply Id; congruence).
          simpl in Hx. congruence. }
      repeat split; try assumption.
      + intros _ _. assumption.
      + cbn [length]. intros Hlen.
        destruct Hcase as [Hc|[->|(Hc & -> & _)]].
        * rewrite Hc in Hlen. simpl in Hlen. lia.
        * apply elem_of_cons. now left.
        * apply elem_of_cons. right. now apply Im.
      + cbn [length hd]. intros Hn Hlen.
        destruct Hcase as [Hc|[->|(_ & _ & Hc)]]; [|reflexivity|contradiction].
        rewrite Hc in Hlen. simpl in Hlen. lia. }
  destruct (isdigit c) eqn:Ed.
  { rewrite step_digit in H by assumption. cbv zeta in H.
    destruct (get_number_by_str_rest (String c rest)) as (R1 & R2 & R3).
    apply Hpush in H as (HI & Ht & ->); auto.
    split; [assumption|split; [assumption|]].
    specialize (R3 ltac:(discriminate)). simpl in R3 |- *. lia. }
  destruct (is_ref_candidate tk c) eqn:Er.
  2:{ unfold step in H. rewrite Eo, Ed, Er in H. discriminate. }
  rewrite step_reference in H by assumption. cbv zeta in H.
  destruct (get_number_by_str_rest rest) as (R1 & R2 & _).
  destruct (_ || _); [discriminate|].
  destruct (map_ref_cells st !! _) as [[|n|s]|]; try discriminate.
  - apply Hpush in H as (HI & Ht & ->); auto.
  - apply Hpush in H as (HI & Ht & ->); auto.
  - unfold bind at 1 in H.
    destruct (parse_reference tk prec _ st) as [[t| | |] st1]; try discriminate.
    apply Hpush in H as (HI & Ht & ->); auto.
Qed.

Lemma scan_invariant (gas : nat) (it : string) (ls : locals) (st : state)
    (ls' : locals) (st' : state) :
  loop_invariant it ls ->
  scan tk prec gas it ls st = (Ret ls', st') ->
  loop_invariant EmptyString ls' /\
  (it <> EmptyString \/ toks ls <> [] -> toks ls' <> []).
Proof.
  revert it ls st. induction gas as [|gas IH]; intros it ls st HI H;
    destruct it as [|c rest]; simpl in H; try discriminate;
    try (injection H as <- <-; split; [assumption|]; intros [?|?]; congruence).
  unfold bind in H.
  destruct (step tk prec c rest ls st) as [[[it1 ls1]| | |] st1] eqn:E;
    try discriminate.
  destruct (step_invariant _ _ _ _ _ _ _ HI E) as (HI1 & Ht1 & _).
  destruct (IH _ _ _ HI1 H) as [HI' Ht']. auto.
Qed.

(** Gas beyond the length of the text changes nothing. *)
Lemma scan_gas (g1 g2 : nat) (it : string) (ls : locals) (st : state) :
  loop_invariant it ls ->
  (String.length it <= g1)%nat -> (String.length it <= g2)%nat ->
  scan tk prec g1 it ls st = scan tk prec g2 it ls st.
Proof.
  revert g2 it ls st. induction g1 as [|g1 IH]; intros g2 it ls st HI H1 H2;
    destruct it as [|c rest]; simpl in H1, H2; try lia;
    destruct g2 as [|g2]; try lia; try reflexivity.
  simpl. unfold bind.
  destruct (step tk prec c rest ls st) as [[[it1 ls1]| | |] st1] eqn:E;
    try reflexivity.
  destruct (step_invariant _ _ _ _ _ _ _ HI E) as (HI1 & _ & Hlen).
  apply IH; [assumption|simpl; lia..].
Qed.

(** Text appended after the loop's position is not looked at by a turn
    that returns, provided it does not start with a digit. *)
Lemma get_number_loop_more (num : Z) (c : ascii) (rest more : string) :
  starts_with_digit more = false ->
  get_number_loop num c (rest +:+ more) =
  ((get_number_loop num c rest).1, (get_number_loop num c rest).2 +:+ more).
Proof.
  intros Hm. revert num c. induction rest as [|y rest IH]; intros num c;
    rewrite ?append_cons, ?append_nil_l.
  - destruct more as [|x more]; [reflexivity|]. simpl in Hm |- *. now rewrite Hm.
  - simpl. destruct (isdigit y); [apply IH|reflexivity].
Qed.

Lemma step_more (c : ascii) (rest more : string) (ls : locals) (st : state)
    (it' : string) (ls' : locals) (st' : state) :
  starts_with_digit more = false ->
  step tk prec c rest ls st = (Ret (it', ls'), st') ->
  step tk prec c (rest +:+ more) ls st = (Ret (it' +:+ more, ls'), st').
Proof.
  intros Hm H.
  assert (Hpush : forall l0 it0,
             bind (reduce l0) (fun l => ret (it0, l)) st = (Ret (it', ls'), st') ->
             forall it1, it1 = it0 +:+ more ->
             bind (reduce l0) (fun l => ret (it1, l)) st =
             (Ret (it' +:+ more, ls'), st')).
  { intros l0 it0 Hr it1 ->. unfold bind in *.
    destruct (reduce l0 st) as [[l| | |] st1]; try discriminate.
    now injection Hr as <- <- <-. }
  destruct (is_operator c) eqn:Eo.
  { rewrite step_operator in H |- * by assumption.
    destruct (negb _ || _); [discriminate|]. now injection H as <- <- <-. }
  destruct (isdigit c) eqn:Ed.
  { rewrite step_digit in H |- * by assumption. cbv zeta in H |- *.
    simpl get_number_by_str in H |- *.
    rewrite get_number_loop_more by assumption. cbn [fst snd].
    eapply Hpush; [exact H|reflexivity]. }
  destruct (is_ref_candidate tk c) eqn:Er.
  2:{ unfold step in H. rewrite Eo, Ed, Er in H. discriminate. }
  rewrite step_reference in H |- * by assumption. cbv zeta in H |- *.
  destruct rest as [|y rest].
  { change (get_number_by_str EmptyString) with (0, EmptyString) in H.
    cbn [fst] in H. change (to_short (to_int (0 - 1))) with (-1) in H.
    change (-1 <? 0) with true in H. rewrite orb_true_r in H. discriminate. }
  rewrite append_cons. simpl get_number_by_str in H |- *.
  rewrite get_number_loop_more by assumption. cbn [fst snd].
  destruct (_ || _); [discriminate|].
  destruct (map_ref_cells st !! _) as [[|n|s]|]; try discriminate;
    try (eapply Hpush; [exact H|reflexivity]).
  unfold bind at 1 in H. unfold bind at 1.
  destruct (parse_reference tk prec _ st) as [[t| | |] st1]; try discriminate.
  unfold bind in *.
  destruct (reduce _ st1) as [[l| | |] st2]; try discriminate.
  now injection H as <- <- <-.
Qed.

Lemma scan_more (gas : nat) (it more : string) (ls : locals) (st : state)
    (ls' : locals) (st' : state) :
  starts_with_digit more = false ->
  scan tk prec gas it ls st = (Ret ls', st') ->
  forall g, exists g',
    (g <= g')%nat /\
    scan tk prec (gas + g) (it +:+ more) ls st = scan tk prec g' more ls' st'.
Proof.
  intros Hm. revert it ls st. induction gas as [|gas IH]; intros it ls st H g;
    destruct it as [|c rest]; simpl in H; try discriminate;
    try (injection H as <- <-; rewrite append_nil_l; eexists; split;
         [|reflexivity]; lia).
  rewrite append_cons. cbn [Nat.add scan]. unfold bind in H |- *.
  destruct (step tk prec c rest ls st) as [[[it1 ls1]| | |] st1] eqn:E;
    try discriminate.
  rewrite (step_more _ _ _ _ _ _ _ _ Hm E). cbn [fst snd] in H |- *.
  apply IH. assumption.
Qed.

End Loop.

Lemma result_last_pushed (ls : locals) (o : oper) :
  loop_invariant EmptyString ls -> op ls = OP_NONE -> toks ls <> [] ->
  result (mkLocals (toks ls) o (tok ls)) = hd T_UNDEFINED (toks ls) /\
  result ls = hd T_UNDEFINED (toks ls).
Proof.
  intros (_ & _ & _ & Hh) Hn Ht. unfold result. cbn [toks tok].
  destruct (toks ls) as [|a [|b ts]] eqn:E; [congruence|auto|].
  simpl. rewrite Hh; [|assumption|simpl; lia]. auto.
Qed.

(** C8.  A formula that ends with an operator nothing follows is not an
    error: when the text before the operator is scanned without error
    and leaves operands on the stack and no operator pending, the result
    is the operand pushed last, the one the text without the dangling
    operator evaluates to; [5+] and [2+3+] both give 5. *)
Theorem dangling_operator_returns_last_operand
    (tk : Tokenizer) (fuel : nat) (str : string) (c : ascii)
    (st : state) (ls : locals) (st' : state) :
  is_operator c = true ->
  scan tk (parse_expr tk fuel) (String.length str) str start st = (Ret ls, st') ->
  op ls = OP_NONE ->
  toks ls <> [] ->
  parse_expr tk (S fuel) (str +:+ String c EmptyString) st =
    (Ret (hd T_UNDEFINED (toks ls)), st') /\
  parse_expr tk (S fuel) str st = (Ret (hd T_UNDEFINED (toks ls)), st') /\
  parse_expr tk (S fuel) "5+" st = (Ret (T_NUMBER 5), st) /\
  parse_expr tk (S fuel) "2+3+" st = (Ret (T_NUMBER 5), st).
Proof.
  intros Hc Hs Hn Ht.
  destruct (scan_invariant _ _ _ _ _ _ _ _ (start_invariant str) Hs) as [HI _].
  destruct (result_last_pushed ls (get_operator c) HI Hn Ht) as [R1 R2].
  split; [|split; [|split; reflexivity]].
  - rewrite parse_expr_unfold, length_append. cbn [String.length].
    destruct (scan_more _ _ _ _ (String c EmptyString) _ _ _ _
                (is_operator_not_digit _ Hc) Hs 1) as (g' & Hg & ->).
    destruct g' as [|g']; [lia|]. cbn [scan]. unfold bind.
    rewrite step_operator by assumption.
    rewrite (bool_decide_eq_true_2 _ Hn), (bool_decide_eq_false_2 _ Ht).
    cbn [negb orb fst snd]. destruct g'; cbn [scan]; unfold ret; now rewrite R1.
  - rewrite parse_expr_unfold, Hs. now rewrite R2.
Qed.

Lemma dangling_operator_returns_last_operand_witness :
  parse_expr sample_grid 1 ("2+3" +:+ String "+" EmptyString) initial =
    (Ret (hd T_UNDEFINED [T_NUMBER 5]), initial) /\
  parse_expr sample_grid 1 "2+3" initial =
    (Ret (hd T_UNDEFINED [T_NUMBER 5]), initial) /\
  parse_expr sample_grid 1 "5+" initial = (Ret (T_NUMBER 5), initial) /\
  parse_expr sample_grid 1 "2+3+" initial = (Ret (T_NUMBER 5), initial).
Proof.
  apply (dangling_operator_returns_last_operand sample_grid 0 "2+3" "+"%char
           initial (mkLocals [T_NUMBER 5] OP_NONE (T_NUMBER 5)) initial).
  - reflexivity.
  - reflexivity.
  - reflexivity.
  - discriminate.
Defined.

(** ** References to pending cells *)

Lemma pending_reference_raises_holds (tk : Tokenizer) : pending_reference_raises tk.
Proof.
  intros prec c rest ls st gas Hc r row Hrow Hk.
  assert (Hs : step tk prec c rest ls st =
               (Throw (domain_error "#E_CROSS_REF"), st)).
  { rewrite step_reference by assumption. cbv zeta. fold r. fold row.
    now rewrite Hrow, Hk. }
  split; [assumption|]. cbn [scan]. unfold bind. now rewrite Hs.
Qed.

(** C9.  A formula with no text after its marker: [parse_expr] returns
    the token of [Token()] without an error, [run] commits it, the cell
    displays as the empty text, the entry stays that way, and a formula
    that refers to the cell afterwards gets "#E_CROSS_REF" though no
    cell refers back. *)
Theorem empty_formula_left_pending
    (tk : Tokenizer) (fuel : nat) (coords : coords) (st : state) :
  map_ref_cells st !! get_cell_by_coords coords = None ->
  let k := get_cell_by_coords coords in
  let st1 := commit k T_UNDEFINED (reserve k st) in
  parse_expr tk (S fuel) EmptyString st = (Ret T_UNDEFINED, st) /\
  run_loop tk (S fuel) [mkExpr coords EmptyString] st = (Ret tt, st1) /\
  get_value coords st1 = (Ret EmptyString, st1) /\
  (forall st2, grows st1 st2 -> map_ref_cells st2 !! k = Some T_UNDEFINED) /\
  pending_reference_raises tk /\
  display empty_formula_grid (S (S fuel)) (0, 0) = Some EmptyString /\
  display empty_formula_grid (S (S fuel)) (0, 1) = Some "#E_CROSS_REF" /\
  trace (snd (run empty_formula_grid (S (S fuel)) initial)) =
    [Reserve "A1"; Commit "A1" T_UNDEFINED;
     Reserve "B1"; Commit "B1" (T_STRING "#E_CROSS_REF")].
Proof.
  intros Hk k st1.
  assert (H1 : map_ref_cells st1 !! k = Some T_UNDEFINED)
    by (simpl; apply lookup_insert_eq).
  split; [reflexivity|]. split; [|split; [|split; [|split]]].
  - rewrite run_turn by assumption. reflexivity.
  - unfold get_value, bind, at_key. fold k. now rewrite H1.
  - intros st2 G. now apply (grows_cache_stable _ _ _ _ G).
  - apply pending_reference_raises_holds.
  - repeat split; vm_compute; reflexivity.
Qed.

Lemma empty_formula_left_pending_witness :
  let k := get_cell_by_coords (0, 0) in
  let st1 := commit k T_UNDEFINED (reserve k initial) in
  parse_expr empty_formula_grid 1 EmptyString initial = (Ret T_UNDEFINED, initial) /\
  run_loop empty_formula_grid 1 [mkExpr (0, 0) EmptyString] initial = (Ret tt, st1) /\
  get_value (0, 0) st1 = (Ret EmptyString, st1) /\
  (forall st2, grows st1 st2 -> map_ref_cells st2 !! k = Some T_UNDEFINED) /\
  pending_reference_raises empty_formula_grid /\
  display empty_formula_grid 2 (0, 0) = Some EmptyString /\
  display empty_formula_grid 2 (0, 1) = Some "#E_CROSS_REF" /\
  trace (snd (run empty_formula_grid 2 initial)) =
    [Reserve "A1"; Commit "A1" T_UNDEFINED;
     Reserve "B1"; Commit "B1" (T_STRING "#E_CROSS_REF")].
Proof.
  apply (empty_formula_left_pending empty_formula_grid 0 (0, 0) initial).
  reflexivity.
Defined.

(** ** The engine needs finitely much fuel *)

Lemma elem_of_grid_ids (tk : Tokenizer) (row col : Z) :
  0 <= row < m_rows tk -> 0 <= col < 26 ->
  get_cell_by_coords (row, col) ∈ grid_ids tk.
Proof.
  intros Hr Hc. unfold grid_ids. apply elem_of_list_to_set.
  apply list_elem_of_bind. exists row. split; [|apply elem_of_seqZ; lia].
  apply list_elem_of_bind. exists col. split; [|apply elem_of_seqZ; lia].
  apply list_elem_of_singleton. reflexivity.
Qed.

Lemma unresolved_reserve (tk : Tokenizer) (k : string) (st : state) :
  k ∈ grid_ids tk -> map_ref_cells st !! k = None ->
  (unresolved tk (reserve k st) < unresolved tk st)%nat.
Proof.
  intros Hin Hk. unfold unresolved. simpl. rewrite dom_insert_L.
  apply subset_size. apply not_elem_of_dom in Hk. set_solver.
Qed.

Lemma unresolved_grows (tk : Tokenizer) (st st' : state) :
  grows st st' -> (unresolved tk st' <= unresolved tk st)%nat.
Proof.
  intros G%grows_dom. unfold unresolved. apply subseteq_size. set_solver.
Qed.

Lemma unresolved_le (tk : Tokenizer) (st : state) :
  (unresolved tk st <= size (grid_ids tk))%nat.
Proof. unfold unresolved. apply subseteq_size. set_solver. Qed.

Section Total.

Variable tk : Tokenizer.
Variable prec : string -> M Token.
Variable f : nat.

Hypothesis prec_sound :
  forall str st r st', prec str st = (r, st') -> sound r st st'.

Hypothesis prec_total :
  forall str st, (unresolved tk st < f)%nat -> fst (prec str st) <> OutOfFuel.

Lemma reduce_then_total (l : locals) (it : string) (st : state) :
  fst (bind (reduce l) (fun ls' => ret (it, ls')) st) <> OutOfFuel.
Proof.
  unfold bind. destruct (reduce_state l st) as (x & -> & Hx).
  destruct x; simpl; try discriminate. contradiction.
Qed.

Lemma parse_reference_total (row col : Z) (st : state) :
  0 <= row < m_rows tk -> 0 <= col < 26 ->
  map_ref_cells st !! get_cell_by_coords (row, col) = None ->
  (unresolved tk st <= f)%nat ->
  fst (parse_reference tk prec (row, col) st) <> OutOfFuel.
Proof.
  intros Hr Hc Hk Hf. unfold parse_reference. cbn [fst snd].
  destruct (table_at tk row col) as [s|]; [|discriminate].
  unfold_monad. rewrite Hk. simpl. rewrite Hk. simpl.
  destruct (is_expression s).
  { pose proof (prec_total (substr1 s) (reserve (get_cell_by_coords (row, col)) st)) as Ht.
    pose proof (unresolved_reserve tk _ st (elem_of_grid_ids tk _ _ Hr Hc) Hk).
    specialize (Ht ltac:(lia)).
    destruct (prec (substr1 s) _) as [[t|[w|w|w]| |] st1]; simpl in *;
      try discriminate. congruence. }
  destruct (is_number s).
  { unfold stoi. destruct (_ <=? _); discriminate. }
  destruct (is_string_literal s); [discriminate|].
  destruct (empty s); discriminate.
Qed.

Lemma step_total (c : ascii) (rest : string) (ls : locals) (st : state) :
  (unresolved tk st <= f)%nat ->
  fst (step tk prec c rest ls st) <> OutOfFuel.
Proof.
  intros Hf.
  destruct (is_operator c) eqn:Eo.
  { rewrite step_operator by assumption. destruct (_ || _); discriminate. }
  destruct (isdigit c) eqn:Ed.
  { rewrite step_digit by assumption. apply reduce_then_total. }
  destruct (is_ref_candidate tk c) eqn:Er.
  2:{ unfold step. rewrite Eo, Ed, Er. discriminate. }
  rewrite step_reference by assumption. cbv zeta.
  set (row := to_short _).
  destruct (Z.gtb_spec (row + 1) (m_rows tk)); [discriminate|].
  destruct (Z.ltb_spec row 0); [discriminate|]. cbn [orb].
  destruct (map_ref_cells st !! _) as [[|n|s]|] eqn:Ek;
    try discriminate; try apply reduce_then_total.
  unfold bind at 1.
  pose proof (parse_reference_total row (get_col_by_char tk c) st
                ltac:(lia) (get_col_by_char_range _ _ Er) Ek Hf) as Ht.
  destruct (parse_reference tk prec _ st) as [[t| | |] st1]; simpl in *;
    try discriminate; [apply reduce_then_total|congruence].
Qed.

Lemma scan_total (gas : nat) (it : string) (ls : locals) (st : state) :
  loop_invariant it ls ->
  (String.length it <= gas)%nat ->
  (unresolved tk st <= f)%nat ->
  fst (scan tk prec gas it ls st) <> OutOfFuel.
Proof.
  revert it ls st. induction gas as [|gas IH]; intros it ls st HI Hg Hf;
    destruct it as [|c rest]; simpl in Hg; try lia; try discriminate.
  cbn [scan]. unfold bind.
  pose proof (step_total c rest ls st Hf) as Ht.
  destruct (step tk prec c rest ls st) as [[[it1 ls1]| | |] st1] eqn:E;
    simpl in *; try discriminate; [|congruence].
  destruct (step_invariant _ _ _ _ _ _ _ _ _ HI E) as (HI1 & _ & Hlen).
  apply step_sound in E as (G & _ & _); [|assumption].
  apply IH; [assumption|lia|].
  pose proof (unresolved_grows tk _ _ G). lia.
Qed.

End Total.

Lemma parse_expr_total (tk : Tokenizer) (fuel : nat) (str : string) (st : state) :
  (unresolved tk st < fuel)%nat ->
  fst (parse_expr tk fuel str st) <> OutOfFuel.
Proof.
  revert str st. induction fuel as [|fuel IH]; intros str st Hf; [lia|].
  rewrite parse_expr_unfold.
  pose proof (scan_total tk (parse_expr tk fuel) fuel
                (parse_expr_sound tk fuel) IH (String.length str) str start st
                (start_invariant str) ltac:(lia) ltac:(lia)) as Ht.
  destruct (scan _ _ _ _ _ _) as [[ls| | |] st1]; simpl in *;
    try discriminate. congruence.
Qed.

Lemma run_loop_total (tk : Tokenizer) (fuel : nat) (exprs : list Expr) (st : state) :
  (size (grid_ids tk) < fuel)%nat ->
  fst (run_loop tk fuel exprs st) <> OutOfFuel.
Proof.
  intros Hf. revert st. induction exprs as [|ex exprs IH]; intros st;
    [discriminate|].
  destruct (map_ref_cells st !! get_cell_by_coords (m_coords ex)) as [t|] eqn:Ek.
  - rewrite (run_skip _ _ _ _ _ t Ek). apply IH.
  - rewrite (run_turn _ _ _ _ _ Ek). cbv zeta.
    pose proof (parse_expr_total tk fuel (m_value ex)
                  (reserve (get_cell_by_coords (m_coords ex)) st)) as Ht.
    pose proof (unresolved_le tk (reserve (get_cell_by_coords (m_coords ex)) st)).
    specialize (Ht ltac:(lia)).
    destruct (parse_expr tk fuel (m_value ex) _) as [[t|[w|w|w]| |] st1];
      simpl in *; try apply IH; try discriminate. congruence.
Qed.

(** ** Cell identities *)

Lemma to_char_first_block (col : Z) :
  0 <= col < 26 -> Z.of_N (N_of_ascii (to_char (char_val "A" + col))) = 65 + col.
Proof.
  intros H. unfold to_char. rewrite char_val_A, N_ascii_embedding.
  - rewrite Z2N.id; [apply Z.mod_small; lia|]. apply Z.mod_pos_bound. lia.
  - apply N2Z.inj_lt. rewrite Z2N.id by (apply Z.mod_pos_bound; lia).
    pose proof (Z.mod_pos_bound (65 + col) 256). simpl. lia.
Qed.

Lemma to_char_second_block (col : Z) :
  26 <= col < 52 -> Z.of_N (N_of_ascii (to_char (char_val "a" + col))) = 97 + col.
Proof.
  intros H. unfold to_char. rewrite char_val_a, N_ascii_embedding.
  - rewrite Z2N.id; [apply Z.mod_small; lia|]. apply Z.mod_pos_bound. lia.
  - apply N2Z.inj_lt. rewrite Z2N.id by (apply Z.mod_pos_bound; lia).
    pose proof (Z.mod_pos_bound (97 + col) 256). simpl. lia.
Qed.

(** A cell in the first 26 columns shares its identity with no other
    cell of a grid. *)
Lemma get_cell_by_coords_inj (row col row' col' : Z) :
  0 <= col < 26 -> 0 <= col' ->
  get_cell_by_coords (row, col) = get_cell_by_coords (row', col') ->
  row = row' /\ col = col'.
Proof.
  intros Hc Hc'. unfold get_cell_by_coords. cbn [fst snd].
  destruct (Z.ltb_spec col 26); [|lia].
  intros [= Hch Hrow]. apply (inj pretty) in Hrow.
  split; [lia|].
  apply (f_equal (fun a => Z.of_N (N_of_ascii a))) in Hch.
  rewrite to_char_first_block in Hch by assumption.
  destruct (Z.ltb_spec col' 26).
  - rewrite to_char_first_block in Hch by lia. lia.
  - destruct (Z.leb_spec 26 col'); [|lia]. destruct (Z.ltb_spec col' 52).
    + simpl in Hch. rewrite to_char_second_block in Hch by lia. lia.
    + simpl in Hch. lia.
Qed.

(** ** Well-formed grids *)

Lemma table_at_cell_ok (tk : Tokenizer) (row col : Z) (s : string) :
  forallb (forallb cell_ok) (m_table tk) = true ->
  table_at tk row col = Some s -> cell_ok s = true.
Proof.
  intros Hwf. unfold table_at. destruct (_ || _); [discriminate|].
  destruct (m_table tk !! Z.to_nat row) as [line|] eqn:El; [|discriminate].
  intros Hs. rewrite forallb_forall in Hwf.
  apply list_elem_of_lookup_2, list_elem_of_In in El.
  specialize (Hwf _ El). rewrite forallb_forall in Hwf.
  apply Hwf. apply list_elem_of_In. eapply list_elem_of_lookup_2. eassumption.
Qed.

Lemma table_at_nonneg (tk : Tokenizer) (row col : Z) (s : string) :
  table_at tk row col = Some s -> 0 <= row /\ 0 <= col.
Proof.
  unfold table_at. destruct (Z.ltb_spec row 0), (Z.ltb_spec col 0);
    simpl; try discriminate. lia.
Qed.

(** ** In a well-formed grid every formula resolves *)

Lemma pending_are_not_formulas_refl (tk : Tokenizer) (st : state) :
  pending_are_not_formulas tk st st.
Proof. intros k Hk. now left. Qed.

Lemma pending_are_not_formulas_trans (tk : Tokenizer) (a b c : state) :
  pending_are_not_formulas tk a b -> pending_are_not_formulas tk b c ->
  pending_are_not_formulas tk a c.
Proof.
  intros Hab Hbc k Hk. destruct (Hbc k Hk) as [Hb|Hd]; [|now right].
  now apply Hab.
Qed.

(** Closing the resolution of [k] with a number or a text. *)
Lemma pending_are_not_formulas_done (tk : Tokenizer) (k : string) (t : Token)
    (st st1 : state) :
  t <> T_UNDEFINED ->
  pending_are_not_formulas tk (reserve k st) st1 ->
  pending_are_not_formulas tk st (commit k t st1).
Proof.
  intros Ht H k' Hk'. simpl in Hk'.
  destruct (decide (k = k')) as [<-|Hne].
  - rewrite lookup_insert_eq in Hk'. congruence.
  - rewrite lookup_insert_ne in Hk' by assumption.
    destruct (H k' Hk') as [Hr|Hd]; [|now right].
    simpl in Hr. rewrite lookup_insert_ne in Hr by assumption. now left.
Qed.

Lemma evaluate_returns_number (ts : list Token) (o : oper) (r : Token * list Token) :
  evaluate ts o = Ret r -> r.1 <> T_UNDEFINED.
Proof.
  destruct ts as [|b [|a ts]]; try discriminate.
  destruct a as [|l|?], b as [|n|?]; try discriminate.
  rewrite evaluate_numbers. cbv zeta.
  destruct o; try discriminate;
    repeat (match goal with |- context [if ?b then _ else _] => destruct b end);
    try discriminate; now intros [= <-].
Qed.

Section Resolves.

Variable tk : Tokenizer.
Variable prec : string -> M Token.

Hypothesis cells_ok : forallb (forallb cell_ok) (m_table tk) = true.

Hypothesis prec_resolves :
  forall str st r st', prec str st = (r, st') -> resolves tk str r st st'.

(** [parse_reference] returns a number or a text, whatever the cell. *)
Lemma parse_reference_resolves (row col : Z) (st : state) r st' :
  0 <= col < 26 ->
  map_ref_cells st !! get_cell_by_coords (row, col) = None ->
  parse_reference tk prec (row, col) st = (r, st') ->
  (forall what, r <> Throw (out_of_range what)) /\
  (forall t, r = Ret t -> t <> T_UNDEFINED) /\
  (settled r -> pending_are_not_formulas tk st st').
Proof.
  intros Hc Hk H. unfold parse_reference in H. cbn [fst snd] in H.
  destruct (table_at tk row col) as [s|] eqn:Es; unfold_monad.
  2:{ injection H as <- <-. repeat split; try discriminate. contradiction. }
  pose proof (table_at_cell_ok _ _ _ _ cells_ok Es) as Hok. unfold cell_ok in Hok.
  rewrite Hk in H. simpl in H. rewrite Hk in H. simpl in H.
  set (k := get_cell_by_coords (row, col)) in *.
  assert (Hdone : forall t, t <> T_UNDEFINED ->
             pending_are_not_formulas tk st (commit k t (reserve k st))).
  { intros t Ht. apply pending_are_not_formulas_done; [assumption|].
    apply pending_are_not_formulas_refl. }
  destruct (is_expression s) eqn:Ee.
  { assert (Hne : substr1 s <> EmptyString)
      by (destruct (substr1 s); [discriminate|congruence]).
    destruct (prec (substr1 s) (reserve k st)) as [r1 st1] eqn:E1.
    apply prec_resolves in E1 as (O1 & D1 & P1).
    destruct r1 as [t|[w|w|w]| |]; simpl in H; injection H as <- <-;
      repeat split; try discriminate; try contradiction.
    - intros t' [= Et]. subst t'. now apply D1.
    - intros _. apply pending_are_not_formulas_done; [now apply D1|now apply P1].
    - intros t' [= Et]. subst t'. discriminate.
    - intros _. apply pending_are_not_formulas_done; [discriminate|now apply P1].
    - now destruct (O1 w). }
  destruct (is_number s).
  { unfold stoi in H. rewrite Hok in H. simpl in H. injection H as <- <-.
    repeat split; try discriminate;
      try (intros ? [= ?]; subst; discriminate). intros _. now apply Hdone. }
  destruct (is_string_literal s);
    [|destruct (empty s)]; simpl in H; injection H as <- <-;
    repeat split; try discriminate;
    try (intros ? [= ?]; subst; discriminate);
    try (intros _; now apply Hdone).
  intros _ k' Hk'. simpl in Hk'.
  destruct (decide (k = k')) as [<-|Hne].
  - right. exists row, col, s. auto.
  - rewrite lookup_insert_ne in Hk' by assumption. now left.
Qed.

Lemma reduce_defined (l : locals) (it : string) (st : state) r st' :
  operands_defined l ->
  bind (reduce l) (fun ls' => ret (it, ls')) st = (r, st') ->
  st' = st /\ (forall what, r <> Throw (out_of_range what)) /\
  (forall p, r = Ret p -> operands_defined p.2).
Proof.
  intros Hl H. unfold bind, reduce in H.
  destruct (_ && _) eqn:Ec; unfold_monad.
  - pose proof (evaluate_outcome (toks l) (op l)) as Ho.
    destruct (evaluate (toks l) (op l)) as [p|[w|w|w]| |] eqn:E;
      try contradiction; injection H as <- <-; repeat split; try discriminate.
    intros p' [= <-]. unfold operands_defined. cbn [snd toks].
    apply andb_prop in Ec as [[Hlen _]%andb_prop _].
    apply Nat.eqb_eq in Hlen.
    destruct (toks l) as [|b [|a [|]]]; try discriminate.
    rewrite (evaluate_two _ _ _ _ E). constructor; [|constructor].
    eapply evaluate_returns_number. eassumption.
  - injection H as <- <-. repeat split; try discriminate.
    now intros p [= <-].
Qed.

Lemma step_resolves (c : ascii) (rest : string) (ls : locals) (st : state) r st' :
  operands_defined ls ->
  step tk prec c rest ls st = (r, st') ->
  (forall what, r <> Throw (out_of_range what)) /\
  (forall p, r = Ret p -> operands_defined p.2) /\
  (settled r -> pending_are_not_formulas tk st st').
Proof.
  intros Hls H.
  assert (Hpush : forall t it0 t0 st0,
             t <> T_UNDEFINED ->
             pending_are_not_formulas tk st st0 ->
             bind (reduce (mkLocals (t :: toks ls) (op ls) t0))
                  (fun l => ret (it0, l)) st0 = (r, st') ->
             (forall what, r <> Throw (out_of_range what)) /\
             (forall p, r = Ret p -> operands_defined p.2) /\
             (settled r -> pending_are_not_formulas tk st st')).
  { intros t it0 t0 st0 Ht Hp Hr.
    apply reduce_defined in Hr as (-> & O & D); [auto|].
    constructor; assumption. }
  destruct (is_operator c) eqn:Eo.
  { rewrite step_operator in H by assumption.
    destruct (_ || _); injection H as <- <-; repeat split; try discriminate;
      try (intros _; apply pending_are_not_formulas_refl).
    now intros p [= <-]. }
  destruct (isdigit c) eqn:Ed.
  { rewrite step_digit in H by assumption. cbv zeta in H.
    eapply Hpush; [|apply pending_are_not_formulas_refl|exact H]. discriminate. }
  destruct (is_ref_candidate tk c) eqn:Er.
  2:{ unfold step in H. rewrite Eo, Ed, Er in H. unfold_monad.
      injection H as <- <-. repeat split; try discriminate.
      intros _. apply pending_are_not_formulas_refl. }
  rewrite step_reference in H by assumption. cbv zeta in H.
  destruct (_ || _).
  { injection H as <- <-. repeat split; try discriminate.
    intros _. apply pending_are_not_formulas_refl. }
  destruct (map_ref_cells st !! _) as [[|n|s]|] eqn:Ek.
  - injection H as <- <-. repeat split; try discriminate.
    intros _. apply pending_are_not_formulas_refl.
  - eapply Hpush; [|apply pending_are_not_formulas_refl|exact H]. discriminate.
  - eapply Hpush; [|apply pending_are_not_formulas_refl|exact H]. discriminate.
  - unfold bind at 1 in H.
    destruct (parse_reference tk prec _ st) as [r1 st1] eqn:E1.
    apply parse_reference_resolves in E1 as (O1 & D1 & P1);
      [|apply get_col_by_char_range; assumption|assumption].
    destruct r1 as [t|[w|w|w]| |]; try (injection H as <- <-).
    + eapply Hpush; [|apply P1; exact I|exact H]. now apply D1.
    + repeat split; try discriminate. intros _. now apply P1.
    + repeat split; try discriminate. contradiction.
    + now destruct (O1 w).
    + repeat split; try discriminate. contradiction.
    + repeat split; try discriminate. contradiction.
Qed.

Lemma scan_resolves (gas : nat) (it : string) (ls : locals) (st : state) r st' :
  operands_defined ls ->
  scan tk prec gas it ls st = (r, st') ->
  (forall what, r <> Throw (out_of_range what)) /\
  (forall l, r = Ret l -> operands_defined l) /\
  (settled r -> pending_are_not_formulas tk st st').
Proof.
  revert it ls st. induction gas as [|gas IH]; intros it ls st Hls H;
    destruct it as [|c rest]; simpl in H; unfold_monad;
    try (injection H as <- <-; repeat split; try discriminate;
         try (now intros l [= <-]);
         try (intros _; apply pending_are_not_formulas_refl); contradiction).
  destruct (step tk prec c rest ls st) as [r1 st1] eqn:E1.
  apply step_resolves in E1 as (O1 & D1 & P1); [|assumption].
  destruct r1 as [[it1 ls1]|[w|w|w]| |]; try (injection H as <- <-).
  - apply IH in H as (O2 & D2 & P2); [|now apply (D1 _ eq_refl)].
    repeat split; try assumption. intros Hs.
    eapply pending_are_not_formulas_trans; [apply P1; exact I|now apply P2].
  - repeat split; try discriminate. intros _. now apply P1.
  - repeat split; try discriminate. contradiction.
  - now destruct (O1 w).
  - repeat split; try discriminate. contradiction.
  - repeat split; try discriminate. contradiction.
Qed.

End Resolves.

Lemma parse_expr_resolves (tk : Tokenizer) (fuel : nat) (str : string)
    (st : state) r st' :
  forallb (forallb cell_ok) (m_table tk) = true ->
  parse_expr tk fuel str st = (r, st') -> resolves tk str r st st'.
Proof.
  intros Hok. revert str st r st'.
  induction fuel as [|fuel IH]; intros str st r st' H.
  - injection H as <- <-. repeat split; try discriminate. contradiction.
  - rewrite parse_expr_unfold in H.
    destruct (scan tk (parse_expr tk fuel) _ str start st) as [r1 st1] eqn:E1.
    pose proof E1 as E2.
    apply scan_resolves in E1 as (O1 & D1 & P1);
      [|assumption|exact IH|constructor].
    destruct r1 as [ls|[w|w|w]| |]; injection H as <- <-;
      repeat split; try discriminate; try contradiction.
    + intros t [= <-] Hne.
      destruct (scan_invariant _ _ _ _ _ _ _ _ (start_invariant str) E2)
        as [(_ & _ & Hm & _) Ht].
      specialize (Ht (or_introl Hne)). specialize (D1 _ eq_refl).
      unfold operands_defined in D1. rewrite Forall_forall in D1.
      unfold result. destruct (toks ls) as [|a [|b ts]] eqn:Et; [congruence| |].
      * simpl. apply D1. apply elem_of_cons. now left.
      * simpl. apply D1. apply Hm. simpl. lia.
    + intros _. now apply P1.
    + intros _. now apply P1.
    + now destruct (O1 w).
Qed.

Lemma record_ok_spec (tk : Tokenizer) (ex : Expr) :
  forallb (forallb cell_ok) (m_table tk) = true ->
  record_ok tk ex = true ->
  exists s, table_at tk (m_coords ex).1 (m_coords ex).2 = Some s /\
            is_expression s = true /\ m_value ex <> EmptyString.
Proof.
  intros Hok. unfold record_ok.
  destruct (table_at tk _ _) as [s|] eqn:Es; [|discriminate].
  intros [He Hv%bool_decide_eq_true]%andb_prop.
  exists s. repeat split; try assumption.
  pose proof (table_at_cell_ok _ _ _ _ Hok Es) as Hc. unfold cell_ok in Hc.
  rewrite He in Hc. rewrite Hv. destruct (substr1 s); [discriminate|congruence].
Qed.

Lemma run_loop_resolves (tk : Tokenizer) (fuel : nat) (exprs : list Expr)
    (st : state) r st' :
  forallb (forallb cell_ok) (m_table tk) = true ->
  forallb (record_ok tk) exprs = true ->
  (forall k, map_ref_cells st !! k = Some T_UNDEFINED -> not_a_formula tk k) ->
  run_loop tk fuel exprs st = (r, st') ->
  cerr st' = cerr st /\
  (r = Ret tt ->
   forall k, map_ref_cells st' !! k = Some T_UNDEFINED -> not_a_formula tk k).
Proof.
  intros Hok. revert st. induction exprs as [|ex exprs IH]; intros st Hrec Hinv H.
  - injection H as <- <-. auto.
  - simpl in Hrec. apply andb_prop in Hrec as [Hex Hrec].
    destruct (record_ok_spec _ _ Hok Hex) as (s & Es & He & Hne).
    destruct (map_ref_cells st !! get_cell_by_coords (m_coords ex)) as [t|] eqn:Ek.
    + rewrite (run_skip _ _ _ _ _ t Ek) in H. now apply IH.
    + rewrite (run_turn _ _ _ _ _ Ek) in H. cbv zeta in H.
      set (k := get_cell_by_coords (m_coords ex)) in *.
      destruct (parse_expr tk fuel (m_value ex) (reserve k st)) as [r1 st1] eqn:E1.
      pose proof (parse_expr_sound _ _ _ _ _ _ E1) as (_ & C1 & L1).
      apply parse_expr_resolves in E1 as (O1 & D1 & P1); [|assumption].
      assert (Hnext : forall t, t <> T_UNDEFINED -> settled r1 ->
                 run_loop tk fuel exprs (commit k t st1) = (r, st') ->
                 cerr st' = cerr st /\
                 (r = Ret tt ->
                  forall k, map_ref_cells st' !! k = Some T_UNDEFINED ->
                            not_a_formula tk k)).
      { intros t Ht Hs Hr. apply IH in Hr as [C R]; [| assumption|].
        - split; [|assumption]. rewrite C. simpl. now rewrite C1.
        - intros k' Hk'.
          destruct (pending_are_not_formulas_done tk k t st st1 Ht (P1 Hs) k' Hk')
            as [Hp|Hd]; auto. }
      destruct r1 as [t|[w|w|w]| |].
      * apply (Hnext t); [now apply D1|exact I|assumption].
      * apply (Hnext (T_STRING w)); [discriminate|exact I|assumption].
      * contradiction.
      * now destruct (O1 w).
      * injection H as <- <-. split; [now rewrite C1|discriminate].
      * injection H as <- <-. split; [now rewrite C1|discriminate].
Qed.

Lemma converts_domain_errors_holds (tk : Tokenizer) (fuel : nat) :
  converts_domain_errors tk fuel.
Proof.
  intros ex exprs st st1 what Hk H. rewrite run_turn by assumption.
  cbv zeta. now rewrite H.
Qed.

(** C4.  [run] never ends by an exception and needs only finitely much
    fuel; a [domain_error] becomes the text of the cell whose formula
    raised it and the run goes on; when the run is over every cell of the
    work list has an entry.  In a grid where every formula has text
    after its marker and every number literal fits [int], nothing is
    reported and each of these entries is a number or a text. *)
Theorem run_resolves_formula_cells
    (tk : Tokenizer) (fuel : nat) (r : outcome unit) (st' : state) :
  run tk fuel initial = (r, st') ->
  (forall e, r <> Throw e) /\
  ((size (grid_ids tk) < fuel)%nat -> r <> OutOfFuel) /\
  converts_domain_errors tk fuel /\
  (r = Ret tt ->
   forall ex, ex ∈ m_expressions tk ->
     is_Some (map_ref_cells st' !! get_cell_by_coords (m_coords ex))) /\
  (well_formed tk = true -> r = Ret tt ->
   cerr st' = [] /\ formulas_resolved tk st').
Proof.
  intros H. pose proof (run_loop_sound _ _ _ _ _ _ H) as (_ & _ & R).
  split; [|split; [|split; [|split]]].
  - intros e ->. exact R.
  - intros Hf ->. apply (run_loop_total tk fuel (m_expressions tk) initial Hf).
    unfold run in H. now rewrite H.
  - apply converts_domain_errors_holds.
  - intros ->. exact R.
  - intros [Hok Hrec]%andb_prop ->.
    assert (Hinit : forall k, map_ref_cells initial !! k = Some T_UNDEFINED ->
                              not_a_formula tk k).
    { intros k Hk. simpl in Hk. rewrite lookup_empty in Hk. discriminate. }
    destruct (run_loop_resolves _ _ _ _ _ _ Hok Hrec Hinit H) as [C P].
    split; [exact C|]. intros ex Hex. destruct (R ex Hex) as [t Ht].
    exists t. split; [assumption|]. intros ->.
    destruct (P eq_refl _ Ht) as (row & col & s & Hid & Hcol & Es & He).
    rewrite forallb_forall in Hrec.
    apply list_elem_of_In in Hex. specialize (Hrec _ Hex).
    destruct (record_ok_spec _ _ Hok Hrec) as (s' & Es' & He' & _).
    destruct (m_coords ex) as [row' col'] eqn:Ec. cbn [fst snd] in Es'.
    destruct (table_at_nonneg _ _ _ _ Es') as [_ Hc'].
    symmetry in Hid.
    destruct (get_cell_by_coords_inj _ _ _ _ Hcol Hc' Hid) as [-> ->].
    congruence.
Qed.

Lemma run_resolves_formula_cells_witness :
  cerr (snd (run sample_grid 100 initial)) = [] /\
  formulas_resolved sample_grid (snd (run sample_grid 100 initial)).
Proof.
  refine (proj2 (proj2 (proj2 (proj2
    (run_resolves_formula_cells sample_grid 100 (Ret tt)
       (snd (run sample_grid 100 initial)) _)))) _ _).
  - vm_compute. reflexivity.
  - vm_compute. reflexivity.
  - reflexivity.
Defined.

(** A formula cell of the work list left with the token of [Token()]
    after a run in which nothing was reported: the formula has no text
    after its marker. *)
Lemma empty_formula_stays_pending :
  fst (run empty_formula_grid 2 initial) = Ret tt /\
  mkExpr (0, 0) EmptyString ∈ m_expressions empty_formula_grid /\
  map_ref_cells (snd (run empty_formula_grid 2 initial))
    !! get_cell_by_coords (0, 0) = Some T_UNDEFINED /\
  cerr (snd (run empty_formula_grid 2 initial)) = [] /\
  ~ formulas_resolved empty_formula_grid (snd (run empty_formula_grid 2 initial)).
Proof.
  assert (Hin : mkExpr (0, 0) EmptyString ∈ m_expressions empty_formula_grid)
    by (apply elem_of_cons; now left).
  assert (Hk : map_ref_cells (snd (run empty_formula_grid 2 initial))
                 !! get_cell_by_coords (0, 0) = Some T_UNDEFINED)
    by (vm_compute; reflexivity).
  repeat split; try assumption; try (vm_compute; reflexivity).
  intros Hres. destruct (Hres _ Hin) as (t & Ht & Hne).
  cbn [m_coords] in Ht. rewrite Hk in Ht. congruence.
Qed.

(** ** Two cells that refer to each other *)



Section Cycle.

Variable tk : Tokenizer.
Variables (line : list string) (rows : list (list string)).

Hypothesis table_cycle : m_table tk = ("=B1" :: "=A1" :: line) :: rows.
Hypothesis rows_ok : 1 <= m_rows tk.
Hypothesis cols_ok : 2 <= m_cols tk <= 26.





End Cycle.



(** ** Column letters *)

(** In the first block the identity is the letter of the column and the
    row counted from 1. *)
Lemma get_cell_by_coords_first_block (row col : Z) :
  0 <= col < 26 ->
  get_cell_by_coords (row, col) =
    String (ascii_of_N (Z.to_N (65 + col))) (to_string (row + 1)).
Proof.
  intros H. unfold get_cell_by_coords. cbn [fst snd].
  destruct (Z.ltb_spec col 26); [|lia].
  unfold to_char. rewrite char_val_A, Z.mod_small by lia. reflexivity.
Qed.

(** In a grid of at most 26 columns [get_col_by_char] gives back the
    column whose letter starts the identity. *)
Lemma get_col_by_char_first_block (tk : Tokenizer) (row col : Z) :
  m_cols tk <= 26 -> 0 <= col < 26 ->
  get_col_by_char tk (front (get_cell_by_coords (row, col))) = col.
Proof.
  intros Hm H. rewrite get_cell_by_coords_first_block by assumption.
  cbn [front]. unfold get_col_by_char.
  destruct (Z.leb_spec (m_cols tk) 26); [|lia].
  assert (Hv : char_val (ascii_of_N (Z.to_N (65 + col))) = 65 + col).
  { unfold char_val. rewrite N_ascii_embedding.
    - rewrite Z2N.id by lia. destruct (Z.ltb_spec (65 + col) 128); lia.
    - apply N2Z.inj_lt. rewrite Z2N.id by lia. simpl. lia. }
  rewrite Hv, char_val_A. rewrite to_short_small; lia.
Qed.

(** C1.  The second block is off: column 26 gets the byte after 'z',
    not 'a', and so on up to column 51; and in a grid of 27 to 52 columns
    the letter 'a' is read as column 0, whose identity starts with 'A',
    while 'A' is no reference at all.  The first block has the letters
    'A' to 'Z'. *)
Theorem second_block_letters_off :
  get_cell_by_coords (0, 0) = "A1" /\
  get_cell_by_coords (11, 25) = "Z12" /\
  get_cell_by_coords (0, 26) = "{1" /\
  get_cell_by_coords (0, 26) <> "a1" /\
  front (get_cell_by_coords (4, 51)) = ascii_of_N 148 /\
  is_ref_candidate wide_grid "a" = true /\
  get_col_by_char wide_grid "a" = 0 /\
  get_cell_by_coords (0, get_col_by_char wide_grid "a") = "A1" /\
  is_ref_candidate wide_grid "A" = false /\
  m_expressions wide_grid = [mkExpr (0, 26) "a1"] /\
  display wide_grid 2 (0, 26) = Some "7" /\
  reserved (trace (snd (run wide_grid 2 initial))) = ["{1"; "A1"].
Proof. vm_compute. repeat split; discriminate. Qed.

(** ** More fuel changes nothing *)

Section Fuel.

Variable tk : Tokenizer.
Variables p p' : string -> M Token.

Hypothesis p_extends : extends p p'.

Lemma parse_reference_fuel (coords : coords) (st : state) r st' :
  parse_reference tk p coords st = (r, st') -> r <> OutOfFuel ->
  parse_reference tk p' coords st = (r, st').
Proof.
  unfold parse_reference.
  destruct (table_at tk coords.1 coords.2) as [s|]; [|auto].
  unfold_monad.
  destruct (map_ref_cells st !! get_cell_by_coords coords) eqn:Ek; simpl;
    [auto|].
  rewrite Ek. simpl.
  destruct (is_expression s); [|auto].
  destruct (p (substr1 s) _) as [r1 st2] eqn:E1.
  intros H Hr.
  assert (Hr1 : r1 <> OutOfFuel).
  { intros ->. injection H as <- <-. congruence. }
  now rewrite (p_extends _ _ _ _ E1 Hr1).
Qed.

Lemma step_fuel (c : ascii) (rest : string) (ls : locals) (st : state) r st' :
  step tk p c rest ls st = (r, st') -> r <> OutOfFuel ->
  step tk p' c rest ls st = (r, st').
Proof.
  destruct (is_ref_candidate tk c) eqn:Er.
  2:{ unfold step. now rewrite Er. }
  rewrite !step_reference by assumption. cbv zeta.
  destruct (_ || _); [auto|].
  destruct (map_ref_cells st !! _) as [[|n|s]|]; auto.
  unfold bind at 1 3.
  destruct (parse_reference tk p _ st) as [r1 st1] eqn:E1.
  intros H Hr.
  assert (Hr1 : r1 <> OutOfFuel).
  { intros ->. injection H as <- <-. congruence. }
  now rewrite (parse_reference_fuel _ _ _ _ E1 Hr1).
Qed.

Lemma scan_fuel (gas : nat) (it : string) (ls : locals) (st : state) r st' :
  scan tk p gas it ls st = (r, st') -> r <> OutOfFuel ->
  scan tk p' gas it ls st = (r, st').
Proof.
  revert it ls st. induction gas as [|gas IH]; intros it ls st;
    destruct it as [|c rest]; simpl; auto.
  unfold bind. destruct (step tk p c rest ls st) as [r1 st1] eqn:E1.
  intros H Hr.
  assert (Hr1 : r1 <> OutOfFuel).
  { intros ->. injection H as <- <-. congruence. }
  rewrite (step_fuel _ _ _ _ _ _ E1 Hr1).
  destruct r1 as [[it1 ls1]| | |]; auto.
Qed.

End Fuel.

Lemma parse_expr_fuel_S (tk : Tokenizer) (fuel : nat) :
  extends (parse_expr tk fuel) (parse_expr tk (S fuel)).
Proof.
  induction fuel as [|fuel IH]; intros str st r st' H Hr.
  - injection H as <- <-. congruence.
  - rewrite parse_expr_unfold in H. rewrite parse_expr_unfold.
    destruct (scan tk (parse_expr tk fuel) _ str start st) as [r1 st1] eqn:E1.
    assert (Hr1 : r1 <> OutOfFuel).
    { intros ->. injection H as <- <-. congruence. }
    now rewrite (scan_fuel tk _ _ IH _ _ _ _ _ _ E1 Hr1).
Qed.

Lemma parse_expr_fuel (tk : Tokenizer) (fuel fuel' : nat) :
  (fuel <= fuel')%nat -> extends (parse_expr tk fuel) (parse_expr tk fuel').
Proof.
  induction 1 as [|fuel' _ IH]; intros str st r st' H Hr; [assumption|].
  apply parse_expr_fuel_S; [|assumption]. now apply IH.
Qed.

(** With fuel beyond the number of cells a reference can name, the
    result of [run] does not depend on the fuel. *)
Lemma run_loop_fuel (tk : Tokenizer) (fuel fuel' : nat) (exprs : list Expr) (st : state) :
  (size (grid_ids tk) < fuel)%nat -> (fuel <= fuel')%nat ->
  run_loop tk fuel' exprs st = run_loop tk fuel exprs st.
Proof.
  intros Hf Hle. revert st. induction exprs as [|ex exprs IH]; intros st;
    [reflexivity|].
  destruct (map_ref_cells st !! get_cell_by_coords (m_coords ex)) as [t|] eqn:Ek.
  - rewrite !(run_skip _ _ _ _ _ t Ek). apply IH.
  - rewrite !(run_turn _ _ _ _ _ Ek). cbv zeta.
    set (st0 := reserve _ st).
    pose proof (parse_expr_total tk fuel (m_value ex) st0) as Ht.
    pose proof (unresolved_le tk st0). specialize (Ht ltac:(lia)).
    destruct (parse_expr tk fuel (m_value ex) st0) as [r1 st1] eqn:E1.
    rewrite (parse_expr_fuel tk fuel fuel' Hle _ _ _ _ E1 Ht).
    destruct r1 as [t|[w|w|w]| |]; auto.
Qed.

(** ** The example of the source *)

(** The embedding gives the formula cells of the example above [main]
    the values its comment expects: -4 in the first line, 4, -16 and -4
    in the second, 1 in the third. *)
Example sample_grid_output :
  map (display sample_grid 4) [(0, 1); (1, 0); (1, 1); (1, 2); (2, 1)] =
  [Some "-4"; Some "4"; Some "-16"; Some "-4"; Some "1"].
Proof. vm_compute. reflexivity. Qed.

(** ** The overwrite of an entry *)











(** * More of the code *)

(** ** Numbers in formulas, in cells and in identities *)

Lemma isdigit_value (c : ascii) :
  isdigit c = true -> 0 <= char_val c - char_val "0" <= 9.
Proof.
  unfold isdigit. change (char_val "0") with 48. lia.
Qed.

Lemma to_int_small (z : Z) : INT_MIN <= z <= INT_MAX -> to_int z = z.
Proof.
  unfold INT_MIN, INT_MAX, to_int, wrap. intros H.
  rewrite Z.mod_small; lia.
Qed.

Lemma to_int_range (z : Z) : INT_MIN <= to_int z <= INT_MAX.
Proof.
  unfold INT_MIN, INT_MAX, to_int, wrap.
  pose proof (Z.mod_pos_bound (z + 2 ^ (32 - 1)) (2 ^ 32) ltac:(lia)). lia.
Qed.

Lemma digits_value_mono (s : string) (acc : Z) :
  all_digits s = true -> 0 <= acc -> acc <= digits_value acc s.
Proof.
  revert acc. induction s as [|c s IH]; intros acc Hd Hacc; simpl; [lia|].
  simpl in Hd. apply andb_true_iff in Hd as [Hc Hs].
  pose proof (isdigit_value c Hc).
  specialize (IH (acc * 10 + (char_val c - char_val "0")) Hs). lia.
Qed.

Lemma get_number_loop_value (rest : string) (num : Z) (c : ascii) :
  isdigit c = true -> all_digits rest = true -> 0 <= num ->
  digits_value num (String c rest) <= INT_MAX ->
  get_number_loop num c rest = (digits_value num (String c rest), EmptyString).
Proof.
  revert num c. induction rest as [|d rest IH]; intros num c Hc Hd Hnum Hmax.
  - simpl in *. pose proof (isdigit_value c Hc).
    rewrite to_int_small by (unfold INT_MIN; lia). f_equal. lia.
  - simpl in Hd. apply andb_true_iff in Hd as [Hd Hrest].
    pose proof (isdigit_value c Hc).
    assert (Hv : num * 10 + (char_val c - char_val "0")
                 <= digits_value num (String c (String d rest))).
    { simpl. apply (digits_value_mono (String d rest)); [|lia].
      simpl. now rewrite Hd, Hrest. }
    cbn [get_number_loop]. rewrite Hd.
    rewrite to_int_small by (unfold INT_MIN; lia).
    replace (char_val c - char_val "0" + num * 10)
      with (num * 10 + (char_val c - char_val "0")) by lia.
    rewrite IH; [reflexivity|assumption|assumption|lia|exact Hmax].
Qed.

Lemma get_number_by_str_value (d : string) :
  is_number d = true -> digits_value 0 d <= INT_MAX ->
  get_number_by_str d = (digits_value 0 d, EmptyString) /\ 0 <= digits_value 0 d.
Proof.
  intros Hd Hle.
  destruct (is_number_front d Hd) as (c & rest & -> & Hc).
  unfold is_number in Hd. simpl in Hd. rewrite Hc in Hd. simpl in Hd.
  split.
  - apply get_number_loop_value; auto; lia.
  - apply (digits_value_mono (String c rest)); [|lia]. simpl. now rewrite Hc, Hd.
Qed.

(** X1. On a text of digits that [stoi] accepts, [get_number_by_str]
    returns the number [stoi] returns and stops at the end of the text:
    a number means the same in a formula as in a cell a formula refers
    to. *)
Theorem get_number_by_str_agrees_with_stoi (d : string) (n : Z) :
  is_number d = true -> stoi d = Ret n ->
  get_number_by_str d = (n, EmptyString) /\ 0 <= n <= INT_MAX.
Proof.
  intros Hd. unfold stoi. destruct (Z.leb_spec (digits_value 0 d) INT_MAX) as [Hle|];
    [|discriminate].
  intros [= <-].
  destruct (get_number_by_str_value d Hd Hle) as [-> H0]. auto.
Qed.

Lemma get_number_by_str_agrees_with_stoi_witness :
  get_number_by_str "2147483647" = (2147483647, EmptyString) /\
  0 <= 2147483647 <= INT_MAX.
Proof.
  apply (get_number_by_str_agrees_with_stoi "2147483647" 2147483647);
    vm_compute; reflexivity.
Defined.

Lemma pretty_N_char_value (x : N) :
  (x < 10)%N ->
  isdigit (pretty_N_char x) = true /\
  char_val (pretty_N_char x) - char_val "0" = Z.of_N x.
Proof.
  intros H.
  assert (Hx : x = 0%N \/ x = 1%N \/ x = 2%N \/ x = 3%N \/ x = 4%N \/ x = 5%N \/
               x = 6%N \/ x = 7%N \/ x = 8%N \/ x = 9%N) by lia.
  destruct Hx as [->|[->|[->|[->|[->|[->|[->|[->|[->| ->]]]]]]]]];
    split; reflexivity.
Qed.

Lemma pretty_N_go_digits (x : N) (s : string) :
  digits_value 0 (pretty_N_go x s) = digits_value (Z.of_N x) s /\
  all_digits (pretty_N_go x s) = all_digits s /\
  (empty s = false -> empty (pretty_N_go x s) = false).
Proof.
  revert s. induction (N.lt_wf_0 x) as [x _ IH]. intros s.
  destruct (decide (x = 0%N)) as [->|Hx].
  - rewrite pretty_N_go_0. auto.
  - rewrite pretty_N_go_step by lia.
    assert (Hlt : (x `div` 10 < x)%N) by (apply N.div_lt; lia).
    destruct (IH _ Hlt (String (pretty_N_char (x `mod` 10)) s)) as (Hv & Hd & He).
    assert (Hm : (x `mod` 10 < 10)%N) by (apply N.mod_lt; lia).
    destruct (pretty_N_char_value _ Hm) as [Hc Hcv].
    rewrite Hv, Hd. cbn [digits_value all_digits]. rewrite Hc, Hcv.
    split; [|split; [reflexivity|intros _; now apply He]].
    f_equal. pose proof (N.div_mod x 10 ltac:(lia)). lia.
Qed.

Lemma to_string_digits (n : Z) :
  0 <= n -> is_number (to_string n) = true /\ digits_value 0 (to_string n) = n.
Proof.
  intros Hn. unfold to_string, pretty, pretty_Z.
  destruct n as [|p|p]; [split; reflexivity| |lia].
  unfold pretty_positive, pretty, pretty_N.
  destruct (decide (N.pos p = 0%N)) as [|_]; [lia|].
  rewrite pretty_N_go_step by lia.
  set (s := String _ EmptyString).
  destruct (pretty_N_go_digits (N.pos p `div` 10) s) as (Hv & Hd & He).
  assert (Hm : (N.pos p `mod` 10 < 10)%N) by (apply N.mod_lt; lia).
  destruct (pretty_N_char_value _ Hm) as [Hc Hcv].
  unfold is_number. rewrite Hv, Hd, (He eq_refl). subst s.
  cbn [digits_value all_digits negb andb]. rewrite Hc, Hcv.
  split; [reflexivity|].
  pose proof (N.div_mod (N.pos p) 10 ltac:(lia)). lia.
Qed.

(** X2. What [to_string] prints for a number that is not negative,
    [get_number_by_str] reads back, whatever follows the digits as long
    as it is not one more digit. *)
Theorem get_number_by_str_reads_to_string (n : Z) (more : string) :
  0 <= n <= INT_MAX -> starts_with_digit more = false ->
  get_number_by_str (to_string n +:+ more) = (n, more).
Proof.
  intros Hn Hmore.
  destruct (to_string_digits n ltac:(lia)) as [Hd Hv].
  rewrite get_number_by_str_app by assumption. f_equal.
  unfold number.
  destruct (get_number_by_str_value (to_string n) Hd) as [-> _];
    [rewrite Hv; lia|]. now rewrite Hv.
Qed.

Lemma get_number_by_str_reads_to_string_witness :
  get_number_by_str (to_string 32767 +:+ "+1") = (32767, "+1").
Proof.
  apply (get_number_by_str_reads_to_string 32767 "+1");
    [unfold INT_MAX; lia | reflexivity].
Defined.

(** ** A formula that is the identity of a cell *)

Lemma char_val_first_block (col : Z) :
  0 <= col < 26 -> char_val (ascii_of_N (Z.to_N (65 + col))) = 65 + col.
Proof.
  intros H. unfold char_val.
  rewrite N_ascii_embedding by lia.
  rewrite Z2N.id by lia.
  destruct (Z.ltb_spec (65 + col) 128); lia.
Qed.

Lemma first_block_letter (tk : Tokenizer) (col : Z) :
  m_cols tk <= 26 -> 0 <= col < m_cols tk ->
  is_ref_candidate tk (ascii_of_N (Z.to_N (65 + col))) = true /\
  get_col_by_char tk (ascii_of_N (Z.to_N (65 + col))) = col.
Proof.
  intros Hc Hcol. unfold is_ref_candidate, get_col_by_char.
  rewrite char_val_first_block by lia. rewrite char_val_A.
  destruct (Z.leb_spec (m_cols tk) 26); [|lia]. split.
  - apply orb_true_iff. left. simpl. apply andb_true_iff. split; lia.
  - replace (65 + col - 65) with col by lia. apply to_short_small. lia.
Qed.

Lemma row_of_to_string (tk : Tokenizer) (row : Z) :
  0 <= row < m_rows tk -> m_rows tk <= 32767 ->
  get_number_by_str (to_string (row + 1)) = (row + 1, EmptyString) /\
  to_short (to_int (row + 1 - 1)) = row /\
  (row + 1 >? m_rows tk) || (row <? 0) = false.
Proof.
  intros Hrow Hmax.
  destruct (to_string_digits (row + 1) ltac:(lia)) as [Hd Hv].
  destruct (get_number_by_str_value _ Hd) as [-> _];
    [rewrite Hv; unfold INT_MAX; lia|].
  rewrite Hv. replace (row + 1 - 1) with row by lia.
  rewrite to_int_small by (unfold INT_MIN, INT_MAX; lia).
  rewrite to_short_small by lia.
  repeat split. apply orb_false_iff. split; lia.
Qed.

Lemma scan_empty (tk : Tokenizer) (prec : string -> M Token) (gas : nat)
    (ls : locals) (st : state) :
  scan tk prec gas EmptyString ls st = (Ret ls, st).
Proof. destruct gas; reflexivity. Qed.

Lemma scan_identity (tk : Tokenizer) (prec : string -> M Token)
    (row col : Z) (st : state) :
  m_cols tk <= 26 -> 0 <= col < m_cols tk ->
  0 <= row < m_rows tk -> m_rows tk <= 32767 ->
  let scell := get_cell_by_coords (row, col) in
  scan tk prec (String.length scell) scell start st =
  match map_ref_cells st !! scell with
  | Some T_UNDEFINED => (Throw (domain_error "#E_CROSS_REF"), st)
  | Some t => (Ret (mkLocals [t] OP_NONE t), st)
  | None =>
      (t <- parse_reference tk prec (row, col);; ret (mkLocals [t] OP_NONE t)) st
  end.
Proof.
  intros Hc Hcol Hrow Hmax scell.
  destruct (first_block_letter tk col Hc Hcol) as [Hcand Hcolumn].
  destruct (row_of_to_string tk row Hrow Hmax) as (Hnum & Hshort & Hin).
  subst scell.
  rewrite (get_cell_by_coords_first_block row col) at 1 2 by lia.
  cbn [String.length scan]. unfold bind at 1.
  rewrite step_reference by assumption. cbv zeta.
  rewrite Hcolumn, Hnum. cbn [fst snd]. rewrite Hshort, Hin.
  destruct (map_ref_cells st !! get_cell_by_coords (row, col)) as [[|n|s]|];
    try reflexivity.
  - unfold bind, reduce, ret. cbn. now rewrite scan_empty.
  - unfold bind, reduce, ret. cbn. now rewrite scan_empty.
  - unfold bind at 1 3.
    destruct (parse_reference tk prec (row, col) st)
      as [[t| | |] st1]; try reflexivity.
    unfold bind, reduce, ret. cbn. now rewrite scan_empty.
Qed.

(** X3. In a grid of at most 26 columns, the identity
    [get_cell_by_coords] gives a cell of the grid, read as a formula,
    is a reference to that very cell: [parse_expr] returns the token of
    the entry when it holds a number or a text, raises "#E_CROSS_REF"
    when it holds the token of [Token()], and does what
    [parse_reference] does on the coordinates when there is no entry. *)
Theorem parse_expr_of_identity
    (tk : Tokenizer) (fuel : nat) (row col : Z) (st : state) :
  m_cols tk <= 26 -> 0 <= col < m_cols tk ->
  0 <= row < m_rows tk -> m_rows tk <= 32767 ->
  parse_expr tk (S fuel) (get_cell_by_coords (row, col)) st =
  match map_ref_cells st !! get_cell_by_coords (row, col) with
  | Some T_UNDEFINED => (Throw (domain_error "#E_CROSS_REF"), st)
  | Some t => (Ret t, st)
  | None => parse_reference tk (parse_expr tk fuel) (row, col) st
  end.
Proof.
  intros Hc Hcol Hrow Hmax.
  rewrite parse_expr_unfold, scan_identity by assumption.
  destruct (map_ref_cells st !! get_cell_by_coords (row, col)) as [[|n|s]|];
    try reflexivity.
  unfold bind.
  destruct (parse_reference tk (parse_expr tk fuel) (row, col) st)
    as [[t| | |] st1]; reflexivity.
Qed.

Lemma parse_expr_of_identity_witness :
  parse_expr sample_grid 3 (get_cell_by_coords (1, 2)) initial =
  parse_reference sample_grid (parse_expr sample_grid 2) (1, 2) initial.
Proof.
  apply (parse_expr_of_identity sample_grid 2 1 2 initial); simpl; lia.
Defined.

Lemma is_string_literal_not_number (s : string) :
  is_string_literal s = true ->
  is_expression s = false /\ is_number s = false /\ empty s = false.
Proof.
  unfold is_string_literal, is_expression, is_number.
  destruct s as [|c s]; [intros H; apply bool_decide_eq_true_1 in H; discriminate|].
  simpl. intros H. apply bool_decide_eq_true_1 in H. subst c.
  repeat split.
Qed.

Lemma is_number_not_expression (s : string) :
  is_number s = true -> is_expression s = false.
Proof.
  intros H. destruct (is_number_front s H) as (c & rest & -> & Hc).
  unfold is_expression. simpl. apply bool_decide_eq_false_2. intros ->.
  discriminate.
Qed.

Lemma parse_reference_literal (tk : Tokenizer) (prec : string -> M Token)
    (coords : coords) (s : string) (st : state) :
  table_at tk coords.1 coords.2 = Some s ->
  map_ref_cells st !! get_cell_by_coords coords = None ->
  is_expression s = false ->
  parse_reference tk prec coords st =
  let scell := get_cell_by_coords coords in
  if is_number s then
    match stoi s with
    | Ret n => (Ret (T_NUMBER n), commit scell (T_NUMBER n) (reserve scell st))
    | Throw e => (Throw e, reserve scell st)
    | Undefined => (Undefined, reserve scell st)
    | OutOfFuel => (OutOfFuel, reserve scell st)
    end
  else if is_string_literal s then
    (Ret (T_STRING (substr1 s)),
     commit scell (T_STRING (substr1 s)) (reserve scell st))
  else if empty s then
    (Ret (T_STRING EmptyString),
     commit scell (T_STRING EmptyString) (reserve scell st))
  else (Throw (domain_error "E_WRONG_REF"), reserve scell st).
Proof.
  intros Ht Hk He. unfold parse_reference. rewrite Ht, He.
  unfold_monad. rewrite Hk. simpl. rewrite Hk. cbv zeta.
  destruct (is_number s).
  - destruct (stoi s); reflexivity.
  - destruct (is_string_literal s); [reflexivity|].
    destruct (empty s); reflexivity.
Qed.

(** X4. In a grid of at most 26 columns, a formula that is the identity
    of a cell without an entry resolves the cell by its text: a number
    cell gives the number [stoi] reads, a cell that starts with a quote
    gives the text after the quote, an empty cell gives the empty text;
    the token is returned and committed as the entry of the cell.  A
    number [stoi] rejects leaves the entry as reserved. *)
Theorem reference_to_literal
    (tk : Tokenizer) (fuel : nat) (row col : Z) (s : string) (st : state) :
  m_cols tk <= 26 -> 0 <= col < m_cols tk ->
  0 <= row < m_rows tk -> m_rows tk <= 32767 ->
  table_at tk row col = Some s ->
  map_ref_cells st !! get_cell_by_coords (row, col) = None ->
  let scell := get_cell_by_coords (row, col) in
  (forall n, is_number s = true -> stoi s = Ret n ->
     parse_expr tk (S fuel) scell st =
       (Ret (T_NUMBER n), commit scell (T_NUMBER n) (reserve scell st))) /\
  (is_number s = true -> INT_MAX < digits_value 0 s ->
     parse_expr tk (S fuel) scell st =
       (Throw (out_of_range "stoi"), reserve scell st)) /\
  (is_string_literal s = true ->
     parse_expr tk (S fuel) scell st =
       (Ret (T_STRING (substr1 s)),
        commit scell (T_STRING (substr1 s)) (reserve scell st))) /\
  (s = EmptyString ->
     parse_expr tk (S fuel) scell st =
       (Ret (T_STRING EmptyString),
        commit scell (T_STRING EmptyString) (reserve scell st))).
Proof.
  intros Hc Hcol Hrow Hmax Ht Hk scell.
  assert (Hp : is_expression s = false ->
               parse_expr tk (S fuel) scell st =
               match parse_reference tk (parse_expr tk fuel) (row, col) st with
               | (Ret t, st') => (Ret t, st')
               | r => r
               end).
  { intros _. rewrite parse_expr_unfold. subst scell.
    rewrite scan_identity by assumption. cbv zeta. rewrite Hk. unfold bind.
    destruct (parse_reference tk (parse_expr tk fuel) (row, col) st)
      as [[t| | |] st1]; reflexivity. }
  repeat split.
  - intros n Hn Hs. pose proof (is_number_not_expression s Hn) as He.
    rewrite (Hp He), (parse_reference_literal tk _ (row, col) s st Ht Hk He).
    cbv zeta. now rewrite Hn, Hs.
  - intros Hn Hbig. pose proof (is_number_not_expression s Hn) as He.
    rewrite (Hp He), (parse_reference_literal tk _ (row, col) s st Ht Hk He).
    cbv zeta. rewrite Hn. unfold stoi.
    destruct (Z.leb_spec (digits_value 0 s) INT_MAX); [lia|reflexivity].
  - intros Hl. destruct (is_string_literal_not_number s Hl) as (He & Hn & _).
    rewrite (Hp He), (parse_reference_literal tk _ (row, col) s st Ht Hk He).
    cbv zeta. now rewrite Hn, Hl.
  - intros ->.
    rewrite (Hp eq_refl),
      (parse_reference_literal tk _ (row, col) EmptyString st Ht Hk eq_refl).
    reflexivity.
Qed.

Lemma reference_to_literal_witness :
  parse_expr sample_grid 1 "A1" initial =
    (Ret (T_NUMBER 12), commit "A1" (T_NUMBER 12) (reserve "A1" initial)) /\
  parse_expr sample_grid 1 "D2" initial =
    (Ret (T_STRING "Spread"),
     commit "D2" (T_STRING "Spread") (reserve "D2" initial)).
Proof.
  split.
  - apply (reference_to_literal sample_grid 0 0 0 "12" initial);
      try reflexivity; simpl; lia.
  - apply (reference_to_literal sample_grid 0 1 3 "'Spread" initial);
      try reflexivity; simpl; lia.
Defined.

(** X5. In a grid of at most 26 columns, a formula that names a cell
    whose text is neither a formula, a number, a quoted text nor empty,
    such as the "#E_UNKNOWN" [main] stores for an unsupported cell,
    raises "E_WRONG_REF" and leaves the entry of the cell reserved; the
    entry keeps the token of [Token()] from then on, and every later
    formula that names the cell raises "#E_CROSS_REF". *)
Theorem reference_to_unsupported_cell
    (tk : Tokenizer) (fuel : nat) (row col : Z) (s : string) (st : state) :
  m_cols tk <= 26 -> 0 <= col < m_cols tk ->
  0 <= row < m_rows tk -> m_rows tk <= 32767 ->
  table_at tk row col = Some s ->
  map_ref_cells st !! get_cell_by_coords (row, col) = None ->
  is_expression s = false -> is_number s = false ->
  is_string_literal s = false -> s <> EmptyString ->
  let scell := get_cell_by_coords (row, col) in
  parse_expr tk (S fuel) scell st =
    (Throw (domain_error "E_WRONG_REF"), reserve scell st) /\
  forall st2, grows (reserve scell st) st2 ->
    map_ref_cells st2 !! scell = Some T_UNDEFINED /\
    parse_expr tk (S fuel) scell st2 =
      (Throw (domain_error "#E_CROSS_REF"), st2).
Proof.
  intros Hc Hcol Hrow Hmax Ht Hk He Hn Hl Hs scell. split.
  - rewrite parse_expr_unfold. subst scell.
    rewrite scan_identity by assumption. cbv zeta. rewrite Hk. unfold bind.
    rewrite (parse_reference_literal tk _ (row, col) s st Ht Hk He).
    cbv zeta. rewrite Hn, Hl. destruct s; [congruence|reflexivity].
  - intros st2 Hg.
    assert (Hk2 : map_ref_cells st2 !! scell = Some T_UNDEFINED).
    { apply (grows_cache_stable _ _ _ _ Hg). simpl. apply lookup_insert_eq. }
    split; [assumption|].
    rewrite parse_expr_unfold. subst scell.
    rewrite scan_identity by assumption. cbv zeta. now rewrite Hk2.
Qed.

Lemma reference_to_unsupported_cell_witness :
  parse_expr unsupported_grid 1 "A1" initial =
    (Throw (domain_error "E_WRONG_REF"), reserve "A1" initial) /\
  forall st2, grows (reserve "A1" initial) st2 ->
    map_ref_cells st2 !! "A1" = Some T_UNDEFINED /\
    parse_expr unsupported_grid 1 "A1" st2 =
      (Throw (domain_error "#E_CROSS_REF"), st2).
Proof.
  apply (reference_to_unsupported_cell unsupported_grid 0 0 0 "#E_UNKNOWN" initial);
    try reflexivity; try discriminate; simpl; lia.
Defined.

(** ** Where the loop of [parse_expr] stops *)

Lemma parse_expr_stops_at (tk : Tokenizer) (fuel : nat) (str : string)
    (c : ascii) (rest : string) (st : state) (ls : locals) (st' : state)
    (e : exn) (st'' : state) :
  isdigit c = false ->
  scan tk (parse_expr tk fuel) (String.length str) str start st = (Ret ls, st') ->
  step tk (parse_expr tk fuel) c rest ls st' = (Throw e, st'') ->
  parse_expr tk (S fuel) (str +:+ String c rest) st = (Throw e, st'').
Proof.
  intros Hc Hs Hstep.
  rewrite parse_expr_unfold, length_append. cbn [String.length].
  destruct (scan_more _ _ _ _ (String c rest) _ _ _ _ Hc Hs
              (S (String.length rest))) as (g' & Hg & ->).
  destruct g' as [|g']; [lia|]. cbn [scan]. unfold bind. now rewrite Hstep.
Qed.

(** X6. An operator is accepted only right after an operand.  When the
    text before them is scanned without error, two operators in a row
    raise "#E_UNEXP_SYMBOL"; so does an operator at the start of a
    formula, whatever follows it: a number cannot carry a sign. *)
Theorem operator_needs_operand
    (tk : Tokenizer) (fuel : nat) (str : string) (c1 c2 : ascii) (rest : string)
    (st : state) (ls : locals) (st' : state) :
  is_operator c1 = true -> is_operator c2 = true ->
  scan tk (parse_expr tk fuel) (String.length str) str start st = (Ret ls, st') ->
  parse_expr tk (S fuel) (str +:+ String c1 (String c2 rest)) st =
    (Throw (domain_error "#E_UNEXP_SYMBOL"), st') /\
  parse_expr tk (S fuel) (String c1 rest) st =
    (Throw (domain_error "#E_UNEXP_SYMBOL"), st).
Proof.
  intros H1 H2 Hs. split.
  - rewrite parse_expr_unfold, length_append. cbn [String.length].
    destruct (scan_more _ _ _ _ (String c1 (String c2 rest)) _ _ _ _
                (is_operator_not_digit _ H1) Hs
                (S (S (String.length rest)))) as (g' & Hg & ->).
    destruct g' as [|[|g']]; [lia|lia|]. cbn [scan]. unfold bind at 1.
    rewrite step_operator by assumption.
    destruct (negb (bool_decide (op ls = OP_NONE)) || bool_decide (toks ls = []));
      [reflexivity|].
    cbn [fst snd]. unfold bind. rewrite step_operator by assumption.
    cbn [op]. destruct (is_operator_known c1 H1) as [_ Hn].
    now rewrite (bool_decide_eq_false_2 _ Hn).
  - rewrite parse_expr_unfold. cbn [String.length scan]. unfold bind.
    now rewrite step_operator by assumption.
Qed.

Lemma operator_needs_operand_witness :
  parse_expr sample_grid 1 ("2+3" +:+ String "*" (String "-" "4")) initial =
    (Throw (domain_error "#E_UNEXP_SYMBOL"), initial) /\
  parse_expr sample_grid 1 (String "-" "5") initial =
    (Throw (domain_error "#E_UNEXP_SYMBOL"), initial).
Proof.
  apply (operator_needs_operand sample_grid 0 "2+3" "*" "-" "4" initial
           (mkLocals [T_NUMBER 5] OP_NONE (T_NUMBER 5)) initial);
    reflexivity.
Defined.

(** X7. A reference is checked against the rows of the grid before any
    cell is looked at.  When the text before it is scanned without
    error, a column letter followed by the row number 0, by a row number
    beyond the last row and not above 32768, or by nothing at all raises
    "#E_INVALID_REF", and the cache is as the text before it left it. *)
Theorem reference_outside_rows_rejected
    (tk : Tokenizer) (fuel : nat) (str : string) (c : ascii) (d more : string)
    (st : state) (ls : locals) (st' : state) :
  is_ref_candidate tk c = true ->
  is_number d = true -> starts_with_digit more = false ->
  0 <= m_rows tk ->
  number d = 0 \/ m_rows tk < number d <= 32768 ->
  scan tk (parse_expr tk fuel) (String.length str) str start st = (Ret ls, st') ->
  parse_expr tk (S fuel) (str +:+ String c (d +:+ more)) st =
    (Throw (domain_error "#E_INVALID_REF"), st') /\
  parse_expr tk (S fuel) (str +:+ String c EmptyString) st =
    (Throw (domain_error "#E_INVALID_REF"), st').
Proof.
  intros Hc Hd Hmore Hrows Hn Hs.
  destruct (is_ref_candidate_not_operator tk c Hc) as [_ Hnd].
  split.
  - apply (parse_expr_stops_at tk fuel str c _ st ls st' _ st' Hnd Hs).
    rewrite step_reference by assumption. cbv zeta.
    rewrite get_number_by_str_app by assumption. cbn [fst snd].
    replace ((_ >? _) || (_ <? _)) with true; [reflexivity|].
    symmetry. apply orb_true_iff.
    destruct Hn as [-> | Hn].
    + right. reflexivity.
    + left. rewrite to_int_small by (unfold INT_MIN, INT_MAX; lia).
      rewrite to_short_small by lia. apply Z.gtb_lt. lia.
  - apply (parse_expr_stops_at tk fuel str c _ st ls st' _ st' Hnd Hs).
    rewrite step_reference by assumption. cbv zeta.
    change (to_short (to_int ((get_number_by_str EmptyString).1 - 1))) with (-1).
    now rewrite orb_true_r.
Qed.

Lemma reference_outside_rows_rejected_witness :
  parse_expr sample_grid 1 ("1+" +:+ String "A" ("4" +:+ "*2")) initial =
    (Throw (domain_error "#E_INVALID_REF"), initial) /\
  parse_expr sample_grid 1 ("1+" +:+ String "A" EmptyString) initial =
    (Throw (domain_error "#E_INVALID_REF"), initial).
Proof.
  apply (reference_outside_rows_rejected sample_grid 0 "1+" "A" "4" "*2" initial
           (mkLocals [T_NUMBER 1] OP_ADD T_UNDEFINED) initial);
    try reflexivity.
  - simpl. lia.
  - right. vm_compute. split; [reflexivity|discriminate].
Defined.

Lemma space_is_no_symbol (tk : Tokenizer) :
  is_operator " " = false /\ isdigit " " = false /\
  is_ref_candidate tk " " = false.
Proof.
  repeat split. unfold is_ref_candidate.
  change (char_val " ") with 32. rewrite char_val_A, char_val_a.
  apply orb_false_iff. split; apply andb_false_iff; right;
    apply andb_false_iff; left; lia.
Qed.

(** X8. A character that is neither an operator, nor a digit, nor a
    column letter of the grid ends the formula with "#E_UNEXP_SYMB" when
    the text before it is scanned without error.  The space is such a
    character in every grid: formulas cannot be spaced out. *)
Theorem unknown_symbol_rejected
    (tk : Tokenizer) (fuel : nat) (str : string) (c : ascii) (rest : string)
    (st : state) (ls : locals) (st' : state) :
  is_operator c = false -> isdigit c = false -> is_ref_candidate tk c = false ->
  scan tk (parse_expr tk fuel) (String.length str) str start st = (Ret ls, st') ->
  parse_expr tk (S fuel) (str +:+ String c rest) st =
    (Throw (domain_error "#E_UNEXP_SYMB"), st') /\
  parse_expr tk (S fuel) (str +:+ String " " rest) st =
    (Throw (domain_error "#E_UNEXP_SYMB"), st').
Proof.
  intros Ho Hd Hr Hs.
  destruct (space_is_no_symbol tk) as (So & Sd & Sr).
  split.
  - apply (parse_expr_stops_at tk fuel str c rest st ls st' _ st' Hd Hs).
    unfold step. now rewrite Ho, Hd, Hr.
  - apply (parse_expr_stops_at tk fuel str " " rest st ls st' _ st' Sd Hs).
    unfold step. now rewrite So, Sd, Sr.
Qed.

Lemma unknown_symbol_rejected_witness :
  parse_expr sample_grid 1 ("1+2" +:+ String "E" "1") initial =
    (Throw (domain_error "#E_UNEXP_SYMB"), initial) /\
  parse_expr sample_grid 1 ("1+2" +:+ String " " "1") initial =
    (Throw (domain_error "#E_UNEXP_SYMB"), initial).
Proof.
  apply (unknown_symbol_rejected sample_grid 0 "1+2" "E" "1" initial
           (mkLocals [T_NUMBER 3] OP_NONE (T_NUMBER 3)) initial);
    reflexivity.
Defined.

(** ** What a run does to the entries of the cache *)

Lemma run_loop_present (tk : Tokenizer) (fuel : nat) (exprs : list Expr) (st : state) :
  (forall ex, ex ∈ exprs ->
     is_Some (map_ref_cells st !! get_cell_by_coords (m_coords ex))) ->
  run_loop tk fuel exprs st = (Ret tt, st).
Proof.
  induction exprs as [|ex exprs IH]; intros H; [reflexivity|].
  destruct (H ex ltac:(apply elem_of_cons; auto)) as [t Ht].
  rewrite (run_skip _ _ _ _ _ t Ht). apply IH.
  intros ex' Hin. apply H. apply elem_of_cons. auto.
Qed.

(** X9. Neither [run] nor [parse_expr] ever changes an entry the cache
    already has: from any state, every entry present before the call is
    there after it with the same token, whatever the outcome. *)
Theorem entries_never_change
    (tk : Tokenizer) (fuel : nat) (str : string) (st : state) :
  keeps_entries st (snd (run tk fuel st)) /\
  keeps_entries st (snd (parse_expr tk fuel str st)).
Proof.
  split; intros k t Hk.
  - destruct (run tk fuel st) as [r st'] eqn:E.
    apply run_loop_sound in E as (G & _). eapply grows_cache_stable; eassumption.
  - destruct (parse_expr tk fuel str st) as [r st'] eqn:E.
    apply parse_expr_sound in E as (G & _). eapply grows_cache_stable; eassumption.
Qed.

(** X10. A second [run] does nothing: once [run] has returned, every
    cell of the work list has its entry, and [run] from the state it
    left returns at once with that state. *)
Theorem run_twice
    (tk : Tokenizer) (fuel fuel' : nat) (st st' : state) :
  run tk fuel st = (Ret tt, st') ->
  run tk fuel' st' = (Ret tt, st').
Proof.
  intros H. apply run_loop_sound in H as (_ & _ & H).
  now apply run_loop_present.
Qed.

Lemma run_twice_witness :
  run sample_grid 0 (snd (run sample_grid 4 initial)) =
  (Ret tt, snd (run sample_grid 4 initial)).
Proof.
  apply (run_twice sample_grid 4 0 initial). vm_compute. reflexivity.
Defined.

(** X11. The recursion of [parse_expr] through references ends: with
    fuel beyond the number of identities a reference can name, [run]
    never runs out of it from any state, and more fuel gives the same
    outcome and the same state. *)
Theorem run_terminates
    (tk : Tokenizer) (fuel fuel' : nat) (st : state) :
  (size (grid_ids tk) < fuel)%nat -> (fuel <= fuel')%nat ->
  fst (run tk fuel st) <> OutOfFuel /\
  run tk fuel' st = run tk fuel st.
Proof.
  intros Hf Hle. split.
  - now apply run_loop_total.
  - now apply run_loop_fuel.
Qed.

Lemma run_terminates_witness :
  fst (run cycle_grid 27 initial) <> OutOfFuel /\
  run cycle_grid 30 initial = run cycle_grid 27 initial.
Proof.
  apply (run_terminates cycle_grid 27 30 initial); vm_compute; lia.
Defined.

(** ** Numbers are [int]s *)

Lemma ints_only_reserve (k : string) (st : state) :
  ints_only st -> ints_only (reserve k st).
Proof.
  intros H k' t. simpl. destruct (decide (k = k')) as [->|Hne].
  - rewrite lookup_insert_eq. now intros [= <-].
  - rewrite lookup_insert_ne by assumption. apply H.
Qed.

Lemma ints_only_commit (k : string) (t : Token) (st : state) :
  ints_only st -> int_token t -> ints_only (commit k t st).
Proof.
  intros H Ht k' t'. simpl. destruct (decide (k = k')) as [->|Hne].
  - rewrite lookup_insert_eq. now intros [= <-].
  - rewrite lookup_insert_ne by assumption. apply H.
Qed.

Lemma get_number_by_str_int (it : string) : int_token (T_NUMBER (get_number_by_str it).1).
Proof.
  destruct it as [|c rest]; [simpl; unfold INT_MIN, INT_MAX; lia|].
  simpl. generalize 0. revert c.
  induction rest as [|d rest IH]; intros c num; simpl.
  - apply to_int_range.
  - destruct (isdigit d); [apply IH|apply to_int_range].
Qed.

Lemma evaluate_ints (ts : list Token) (o : oper) (r : Token * list Token) :
  evaluate ts o = Ret r -> Forall int_token ts ->
  int_token r.1 /\ Forall int_token r.2.
Proof.
  destruct ts as [|[|b|b] [|[|a|a] ts]]; try discriminate.
  rewrite evaluate_numbers. cbv zeta. intros H Hts.
  assert (Hr : forall z,
             (if (INT_MIN <=? z) && (z <=? INT_MAX)
              then Ret (T_NUMBER z, ts) else Undefined) = Ret r ->
             int_token r.1 /\ Forall int_token r.2).
  { intros z Hz.
    destruct (Z.leb_spec INT_MIN z); [|discriminate].
    destruct (Z.leb_spec z INT_MAX); [|discriminate].
    injection Hz as <-. simpl. split; [lia|].
    now do 2 apply Forall_inv_tail in Hts. }
  destruct o; try discriminate; try (now apply Hr in H).
  destruct (b =? 0); [destruct (a =? 0); discriminate|now apply Hr in H].
Qed.

Section Ints.

Variable tk : Tokenizer.
Variable prec : string -> M Token.

Hypothesis prec_ints :
  forall str st r st', prec str st = (r, st') -> ints_only st ->
    ints_only st' /\ forall t, r = Ret t -> int_token t.

Lemma parse_reference_ints (coords : coords) (st : state) r st' :
  parse_reference tk prec coords st = (r, st') -> ints_only st ->
  ints_only st' /\ forall t, r = Ret t -> int_token t.
Proof.
  intros H Hst. unfold parse_reference in H.
  destruct (table_at tk coords.1 coords.2) as [s|]; unfold_monad.
  2:{ injection H as <- <-. split; [assumption|discriminate]. }
  destruct (map_ref_cells st !! get_cell_by_coords coords) eqn:Ek; simpl in H.
  { injection H as <- <-. split; [assumption|discriminate]. }
  rewrite Ek in H. simpl in H.
  pose proof (ints_only_reserve (get_cell_by_coords coords) st Hst) as Hres.
  assert (Hdone : forall t st1, ints_only st1 -> int_token t ->
            ints_only (commit (get_cell_by_coords coords) t st1) /\
            forall t', Ret t = Ret t' -> int_token t').
  { intros t st1 H1 Ht. split; [now apply ints_only_commit|].
    now intros t' [= <-]. }
  destruct (is_expression s).
  { destruct (prec (substr1 s) (reserve (get_cell_by_coords coords) st))
      as [r1 st1] eqn:E1.
    apply prec_ints in E1 as [I1 T1]; [|assumption].
    destruct r1 as [t|[w|w|w]| |]; simpl in H; injection H as <- <-;
      try (split; [assumption|discriminate]).
    - apply Hdone; auto.
    - apply Hdone; [assumption|exact I]. }
  destruct (is_number s) eqn:En.
  { unfold stoi in H. destruct (Z.leb_spec (digits_value 0 s) INT_MAX);
      simpl in H; injection H as <- <-;
      [|split; [assumption|discriminate]].
    apply Hdone; [assumption|]. simpl. split; [|assumption].
    apply andb_true_iff in En as [_ En].
    pose proof (digits_value_mono s 0 En ltac:(lia)). unfold INT_MIN. lia. }
  destruct (is_string_literal s); [|destruct (empty s)];
    simpl in H; injection H as <- <-;
    try (apply Hdone; [assumption|exact I]).
  split; [assumption|discriminate].
Qed.

Lemma reduce_ints (l : locals) (it : string) (st : state) r st' :
  int_operands l ->
  bind (reduce l) (fun ls' => ret (it, ls')) st = (r, st') ->
  st' = st /\ forall p, r = Ret p -> int_operands p.2.
Proof.
  intros [Hl Ht] H. unfold reduce in H.
  destruct (_ && _).
  - unfold_monad. destruct (evaluate (toks l) (op l)) as [v| | |] eqn:Ev;
      injection H as <- <-; (split; [reflexivity|]); try discriminate.
    intros p [= <-]. destruct (evaluate_ints _ _ _ Ev Hl) as [H1 H2].
    split; simpl; [constructor|]; assumption.
  - unfold_monad. injection H as <- <-. split; [reflexivity|].
    intros p [= <-]. now split.
Qed.

Lemma step_ints (c : ascii) (rest : string) (ls : locals) (st : state) r st' :
  int_operands ls -> ints_only st ->
  step tk prec c rest ls st = (r, st') ->
  ints_only st' /\ forall p, r = Ret p -> int_operands p.2.
Proof.
  intros Hls Hst H. pose proof Hls as [Hl Ht].
  destruct (is_operator c) eqn:Eo.
  { rewrite step_operator in H by assumption.
    destruct (_ || _); injection H as <- <-; (split; [assumption|]);
      [discriminate|]. intros p [= <-]. now split. }
  destruct (isdigit c) eqn:Ed.
  { rewrite step_digit in H by assumption. cbv zeta in H.
    apply reduce_ints in H as [-> H]; [now split|].
    split; cbn [toks tok]; [constructor|]; try assumption.
    apply get_number_by_str_int. }
  destruct (is_ref_candidate tk c) eqn:Er.
  2:{ unfold step in H. rewrite Eo, Ed, Er in H. injection H as <- <-.
      split; [assumption|discriminate]. }
  rewrite step_reference in H by assumption. cbv zeta in H.
  destruct (_ || _); [injection H as <- <-; split; [assumption|discriminate]|].
  destruct (map_ref_cells st !! _) as [t|] eqn:Ek.
  - assert (Hi : int_token t) by (eapply Hst; exact Ek).
    destruct t as [|n|s];
      [injection H as <- <-; split; [assumption|discriminate]| |];
      (apply reduce_ints in H as [-> H]; [now split|]);
      (split; simpl; [constructor|]; assumption).
  - unfold bind at 1 in H.
    destruct (parse_reference tk prec _ st) as [r1 st1] eqn:E1.
    apply parse_reference_ints in E1 as [I1 T1]; [|assumption].
    destruct r1 as [t|e| |];
      try (injection H as <- <-; split; [assumption|discriminate]).
    specialize (T1 t eq_refl).
    apply reduce_ints in H as [-> H]; [now split|].
    split; simpl; [constructor|]; assumption.
Qed.

Lemma scan_ints (gas : nat) (it : string) (ls : locals) (st : state) r st' :
  int_operands ls -> ints_only st ->
  scan tk prec gas it ls st = (r, st') ->
  ints_only st' /\ forall l, r = Ret l -> int_operands l.
Proof.
  revert it ls st. induction gas as [|gas IH]; intros it ls st Hls Hst H;
    destruct it as [|c rest]; simpl in H; unfold_monad;
    try (injection H as <- <-; split; [assumption|]; try discriminate;
         now intros l [= <-]).
  destruct (step tk prec c rest ls st) as [r1 st1] eqn:E1.
  apply step_ints in E1 as [I1 T1]; [|assumption..].
  destruct r1 as [[it1 ls1]|e| |];
    try (injection H as <- <-; split; [assumption|discriminate]).
  eapply IH; [|exact I1|exact H]. exact (T1 _ eq_refl).
Qed.

End Ints.

Lemma result_int (ls : locals) : int_operands ls -> int_token (result ls).
Proof.
  intros [Hl Ht]. unfold result. destruct (_ =? _)%nat; [|assumption].
  destruct (toks ls) as [|t ts]; [exact I|]. simpl. now inversion Hl.
Qed.

Lemma parse_expr_ints (tk : Tokenizer) (fuel : nat) (str : string)
    (st : state) r st' :
  parse_expr tk fuel str st = (r, st') -> ints_only st ->
  ints_only st' /\ forall t, r = Ret t -> int_token t.
Proof.
  revert str st r st'. induction fuel as [|fuel IH]; intros str st r st' H Hst.
  - injection H as <- <-. split; [assumption|discriminate].
  - rewrite parse_expr_unfold in H.
    destruct (scan tk (parse_expr tk fuel) _ str start st) as [r1 st1] eqn:E1.
    apply scan_ints in E1 as [I1 T1];
      [|exact IH|split; [constructor|exact I]|assumption].
    destruct r1 as [ls|e| |]; injection H as <- <-;
      (split; [assumption|]); try discriminate.
    intros t [= <-]. apply result_int. now apply T1.
Qed.

Lemma run_loop_ints (tk : Tokenizer) (fuel : nat) (exprs : list Expr)
    (st : state) r st' :
  run_loop tk fuel exprs st = (r, st') -> ints_only st -> ints_only st'.
Proof.
  revert st. induction exprs as [|ex exprs IH]; intros st H Hst.
  - now injection H as <- <-.
  - destruct (map_ref_cells st !! get_cell_by_coords (m_coords ex)) as [t|] eqn:Ek.
    + rewrite (run_skip _ _ _ _ _ t Ek) in H. now apply IH in H.
    + rewrite (run_turn _ _ _ _ _ Ek) in H. cbv zeta in H.
      destruct (parse_expr tk fuel (m_value ex) _) as [r1 st1] eqn:E1.
      apply parse_expr_ints in E1 as [I1 T1]; [|now apply ints_only_reserve].
      destruct r1 as [t|[w|w|w]| |];
        try (injection H as <- <-; assumption);
        (apply IH in H; [assumption|]); apply ints_only_commit;
        try exact I; try assumption.
      now apply T1.
Qed.

(** X12. Every number the engine keeps is an [int]: after a [run] from
    the empty cache, whatever its outcome, each number in the cache lies
    between [INT_MIN] and [INT_MAX], so the cast in [Token::to_string]
    that [get_value] goes through is defined for it; and so does each
    number a later call of [parse_expr] returns. *)
Theorem numbers_are_ints
    (tk : Tokenizer) (fuel : nat) (r : outcome unit) (st' : state) :
  run tk fuel initial = (r, st') ->
  ints_only st' /\
  (forall str n, fst (parse_expr tk fuel str st') = Ret (T_NUMBER n) ->
     INT_MIN <= n <= INT_MAX).
Proof.
  intros H. apply run_loop_ints in H.
  2:{ intros k' t'. simpl. now rewrite lookup_empty. }
  split; [assumption|]. intros str n Hn.
  destruct (parse_expr tk fuel str st') as [r1 st1] eqn:E1. simpl in Hn.
  apply parse_expr_ints in E1 as [_ T1]; [|assumption].
  exact (T1 _ Hn).
Qed.

Lemma numbers_are_ints_witness :
  ints_only (snd (run sample_grid 4 initial)) /\
  (forall str n,
     fst (parse_expr sample_grid 4 str (snd (run sample_grid 4 initial)))
       = Ret (T_NUMBER n) ->
     INT_MIN <= n <= INT_MAX).
Proof.
  apply (numbers_are_ints sample_grid 4 (Ret tt)). vm_compute. reflexivity.
Defined.

(** ** The table [main] fills *)

Lemma upto_tab_shorter (c : ascii) (s : string) :
  (String.length (upto_tab (String c s)).2 <= String.length s)%nat.
Proof.
  revert c. induction s as [|d s IH]; intros c; simpl.
  - destruct (bool_decide (c = tab)); simpl; lia.
  - destruct (bool_decide (c = tab)); simpl; [lia|].
    specialize (IH d). simpl in IH. lia.
Qed.

Lemma fields_getline (s : string) :
  match getline_tab s with
  | None => s = EmptyString /\ fields s = []
  | Some (data, rest) =>
      fields s = data :: fields rest /\
      (String.length rest < String.length s)%nat
  end.
Proof.
  induction s as [|c s IH]; [split; reflexivity|].
  unfold getline_tab. cbn [empty].
  pose proof (upto_tab_shorter c s) as Hlen.
  destruct (upto_tab (String c s)) as [data rest] eqn:E.
  simpl in Hlen. split; [|simpl; lia].
  simpl in E. simpl. destruct (bool_decide (c = tab)).
  - now injection E as <- <-.
  - injection E as <- <-. unfold getline_tab in IH.
    destruct s as [|d s]; [reflexivity|].
    cbn [empty] in IH. destruct (upto_tab (String d s)) as [data' rest'].
    destruct IH as [-> _]. reflexivity.
Qed.

Lemma set_cell_row (table : list (list string)) (i j : nat) (data : string)
    (row : list string) (st : state) :
  table !! i = Some row -> (j < length row)%nat ->
  set_cell table (Z.of_nat i) (Z.of_nat j) data st =
  (Ret (<[i := <[j := data]> row]> table), st).
Proof.
  intros Hrow Hj. unfold set_cell.
  destruct (Z.ltb_spec (Z.of_nat i) 0); [lia|].
  destruct (Z.ltb_spec (Z.of_nat j) 0); [lia|]. simpl.
  rewrite !Nat2Z.id, Hrow.
  destruct (Nat.ltb_spec j (length row)); [reflexivity|lia].
Qed.

Lemma store_row (f : filling) (i j : nat) (data : string)
    (row : list string) (st : state) :
  cells f !! i = Some row -> (j < length row)%nat ->
  store f (Z.of_nat i) (Z.of_nat j) data st =
  (Ret (mkFilling (<[i := <[j := stored data]> row]> (cells f))
                  (expressions f ++ exprs_from (Z.of_nat i) (Z.of_nat j) [data])),
   st).
Proof.
  intros Hrow Hj. unfold store, stored. simpl.
  destruct (is_expression data); [|destruct (_ || _)];
    unfold bind; rewrite (set_cell_row _ _ _ _ row) by assumption;
    unfold ret; simpl; now rewrite ?app_nil_r.
Qed.

Lemma filling_eta (f : filling) : mkFilling (cells f) (expressions f) = f.
Proof. now destruct f. Qed.

Lemma fill_line_spec (nc i : nat) (gas : nat) (s : string) (j : nat)
    (f : filling) (done : list string) (st : state) :
  (String.length s <= gas)%nat -> length done = j -> (j <= nc)%nat ->
  cells f !! i = Some (done ++ replicate (nc - j) EmptyString) ->
  fill_line gas (Z.of_nat nc) (Z.of_nat i) s (Z.of_nat j) f st =
  (Ret (mkFilling
          (<[i := done ++ resize (nc - j) EmptyString (stored <$> fields s)]>
             (cells f))
          (expressions f ++
           exprs_from (Z.of_nat i) (Z.of_nat j) (take (nc - j) (fields s)))),
   st).
Proof.
  revert s j f done.
  induction gas as [|gas IH]; intros s j f done Hgas Hdone Hj Hrow;
    pose proof (fields_getline s) as Hf;
    destruct (getline_tab s) as [[data rest]|] eqn:Eg.
  - destruct Hf as [_ Hlen]. lia.
  - destruct Hf as [-> ->]. simpl. rewrite resize_nil, take_nil.
    rewrite list_insert_id by assumption. simpl.
    now rewrite app_nil_r, filling_eta.
  - destruct Hf as [Hf Hlen].
    cbn [fill_line]. rewrite Eg.
    destruct (Z.gtb_spec (Z.of_nat j) (Z.of_nat nc - 1)) as [Hge|Hlt].
    + replace (nc - j)%nat with 0%nat in * by lia.
      rewrite resize_0, take_0. simpl in *.
      rewrite list_insert_id by assumption.
      unfold ret. now rewrite app_nil_r, filling_eta.
    + unfold bind.
      rewrite (store_row f i j data _ st Hrow)
        by (rewrite length_app, length_replicate; lia).
      replace (Z.of_nat j + 1) with (Z.of_nat (S j)) by lia.
      assert (Hi : (i < length (cells f))%nat) by (eapply lookup_lt_Some; eassumption).
      assert (Hins : <[j := stored data]> (done ++ replicate (nc - j) EmptyString)
                     = (done ++ [stored data]) ++ replicate (nc - S j) EmptyString).
      { replace (nc - j)%nat with (S (nc - S j)) by lia.
        rewrite <- Hdone at 1.
        replace (length done) with (length done + 0)%nat at 1 by lia.
        rewrite insert_app_r. simpl. now rewrite <- app_assoc. }
      rewrite (IH rest (S j) _ (done ++ [stored data])).
      * cbn [cells expressions]. rewrite list_insert_insert_eq.
        rewrite Hf. replace (nc - j)%nat with (S (nc - S j)) by lia.
        cbn [fmap list_fmap resize firstn take exprs_from].
        rewrite <- !app_assoc. simpl.
        replace (Z.of_nat j + 1) with (Z.of_nat (S j)) by lia.
        reflexivity.
      * lia.
      * rewrite length_app. simpl. lia.
      * lia.
      * cbn [cells]. rewrite list_lookup_insert_eq by assumption.
        now rewrite Hins.
  - destruct Hf as [-> ->]. simpl. rewrite resize_nil, take_nil.
    rewrite list_insert_id by assumption. simpl.
    now rewrite app_nil_r, filling_eta.
Qed.

Lemma stored_expression (data : string) :
  is_expression (stored data) = is_expression data /\
  (is_expression data = true -> stored data = data).
Proof.
  unfold stored. destruct (is_expression data) eqn:E; [now rewrite E|].
  destruct (_ || _); [now rewrite E|]. split; [reflexivity|discriminate].
Qed.

Lemma exprs_from_empty (i j : Z) (n : nat) :
  exprs_from i j (replicate n EmptyString) = [].
Proof.
  revert j. induction n as [|n IH]; intros j; [reflexivity|]. simpl. apply IH.
Qed.

Lemma exprs_from_resize (i j : Z) (n : nat) (texts : list string) :
  exprs_from i j (resize n EmptyString (stored <$> texts)) =
  exprs_from i j (take n texts).
Proof.
  revert j texts. induction n as [|n IH]; intros j texts.
  - now rewrite resize_0, take_0.
  - destruct texts as [|data texts].
    + rewrite fmap_nil, resize_nil, take_nil. apply exprs_from_empty.
    + cbn [fmap list_fmap resize firstn take exprs_from].
      destruct (stored_expression data) as [-> Hs].
      rewrite IH. destruct (is_expression data); [|reflexivity].
      now rewrite Hs.
Qed.

Lemma rows_from_app (i : Z) (a b : list (list string)) :
  rows_from i (a ++ b) = rows_from i a ++ rows_from (i + Z.of_nat (length a)) b.
Proof.
  revert i. induction a as [|line a IH]; intros i.
  - simpl. now rewrite Z.add_0_r.
  - cbn [app rows_from length]. rewrite IH, <- app_assoc.
    replace (i + 1 + Z.of_nat (length a)) with (i + Z.of_nat (S (length a))) by lia.
    reflexivity.
Qed.

Lemma rows_from_empty (i : Z) (n m : nat) :
  rows_from i (replicate n (replicate m EmptyString)) = [].
Proof.
  revert i. induction n as [|n IH]; intros i; [reflexivity|].
  simpl. now rewrite exprs_from_empty, IH.
Qed.

Lemma rows_from_resize (i : Z) (n m : nat) (rows : list (list string)) :
  rows_from i (resize n (replicate m EmptyString) rows) =
  rows_from i (take n rows).
Proof.
  rewrite resize_spec, rows_from_app, rows_from_empty. apply app_nil_r.
Qed.

Lemma fill_lines_spec (nr nc : nat) (lines : list string) (i : nat)
    (f : filling) (done : list (list string)) (st : state) :
  length done = i -> (i <= nr)%nat ->
  cells f = done ++ replicate (nr - i) (replicate nc EmptyString) ->
  fill_lines (Z.of_nat nr) (Z.of_nat nc) lines (Z.of_nat i) f st =
  (Ret (mkFilling
          (done ++ resize (nr - i) (replicate nc EmptyString)
                          (row_of (Z.of_nat nc) <$> lines))
          (expressions f ++
           rows_from (Z.of_nat i) (row_of (Z.of_nat nc) <$> take (nr - i) lines))),
   st).
Proof.
  revert i f done. induction lines as [|line lines IH]; intros i f done Hdone Hi Hc.
  - simpl. rewrite resize_nil, take_nil. simpl.
    now rewrite <- Hc, app_nil_r, filling_eta.
  - cbn [fill_lines].
    destruct (Z.eqb_spec (Z.of_nat i) (Z.of_nat nr)) as [He|Hne].
    + replace (nr - i)%nat with 0%nat in * by lia.
      rewrite resize_0, take_0. simpl in *.
      unfold ret. now rewrite <- Hc, app_nil_r, filling_eta.
    + unfold bind.
      assert (Hrow : cells f !! i = Some ([] ++ replicate (nc - 0) EmptyString)).
      { rewrite Hc, lookup_app_r by lia.
        rewrite Hdone, Nat.sub_diag, Nat.sub_0_r. simpl.
        apply lookup_replicate_2. lia. }
      pose proof (fill_line_spec nc i _ line 0 f [] st (le_n _) eq_refl
                    ltac:(lia) Hrow) as Hl.
      change (Z.of_nat 0) with 0 in Hl. rewrite Hl. clear Hl.
      replace (Z.of_nat i + 1) with (Z.of_nat (S i)) by lia.
      rewrite Nat.sub_0_r. cbn [app].
      assert (Hr : resize nc EmptyString (stored <$> fields line)
                   = row_of (Z.of_nat nc) line).
      { unfold row_of. now rewrite Nat2Z.id. }
      rewrite (IH (S i) _ (done ++ [row_of (Z.of_nat nc) line])).
      * cbn [cells expressions].
        replace (nr - i)%nat with (S (nr - S i)) by lia.
        cbn [fmap list_fmap resize firstn take rows_from].
        rewrite <- !app_assoc. simpl.
        replace (Z.of_nat i + 1) with (Z.of_nat (S i)) by lia.
        rewrite <- exprs_from_resize, Hr. reflexivity.
      * rewrite length_app. simpl. lia.
      * lia.
      * cbn [cells]. rewrite Hc.
        replace (nr - i)%nat with (S (nr - S i)) by lia.
        rewrite <- Hdone at 1.
        replace (length done) with (length done + 0)%nat at 1 by lia.
        rewrite insert_app_r. simpl. rewrite Hr, <- app_assoc. reflexivity.
Qed.

Lemma exprs_from_imap (i : Z) (j0 : nat) (line : list string) :
  omap (fun x => x)
       (imap (fun j data =>
                if is_expression data
                then Some (mkExpr (i, Z.of_nat (j0 + j)) (substr1 data))
                else None) line)
  = exprs_from i (Z.of_nat j0) line.
Proof.
  revert j0. induction line as [|data line IH]; intros j0; [reflexivity|].
  rewrite imap_cons. cbn [exprs_from].
  rewrite Nat.add_0_r.
  rewrite (imap_ext _ (fun j data =>
             if is_expression data
             then Some (mkExpr (i, Z.of_nat (S j0 + j)) (substr1 data))
             else None)).
  2:{ intros j x _. simpl. now rewrite Nat.add_succ_r. }
  replace (Z.of_nat j0 + 1) with (Z.of_nat (S j0)) by lia.
  rewrite <- (IH (S j0)).
  now destruct (is_expression data).
Qed.

Lemma rows_from_imap (i0 : nat) (table : list (list string)) :
  concat
    (imap (fun i line =>
             omap (fun x => x)
                  (imap (fun j data =>
                           if is_expression data
                           then Some (mkExpr (Z.of_nat (i0 + i), Z.of_nat j)
                                             (substr1 data))
                           else None) line))
          table)
  = rows_from (Z.of_nat i0) table.
Proof.
  revert i0. induction table as [|line table IH]; intros i0; [reflexivity|].
  rewrite imap_cons. cbn [concat rows_from].
  rewrite Nat.add_0_r.
  pose proof (exprs_from_imap (Z.of_nat i0) 0 line) as Hx.
  cbn [Nat.add] in Hx. change (Z.of_nat 0) with 0 in Hx. rewrite Hx. clear Hx.
  rewrite (imap_ext _ (fun i line =>
             omap (fun x => x)
                  (imap (fun j data =>
                           if is_expression data
                           then Some (mkExpr (Z.of_nat (S i0 + i), Z.of_nat j)
                                             (substr1 data))
                           else None) line))).
  2:{ intros i x _. simpl. now rewrite Nat.add_succ_r. }
  rewrite IH. replace (Z.of_nat i0 + 1) with (Z.of_nat (S i0)) by lia.
  reflexivity.
Qed.

Lemma expressions_of_rows (table : list (list string)) :
  expressions_of table = rows_from 0 table.
Proof. exact (rows_from_imap 0 table). Qed.

Lemma fill_lines_table (n_rows n_cols : Z) (lines : list string) (st : state) :
  0 <= n_rows -> 0 <= n_cols ->
  fill_lines n_rows n_cols lines 0 (mkFilling (allocate n_rows n_cols) []) st =
  (Ret (mkFilling (table_of n_rows n_cols lines)
                  (expressions_of (table_of n_rows n_cols lines))), st).
Proof.
  intros Hr Hc.
  pose proof (fill_lines_spec (Z.to_nat n_rows) (Z.to_nat n_cols) lines 0
                (mkFilling (allocate n_rows n_cols) []) [] st eq_refl
                ltac:(lia)) as H.
  rewrite !Z2Nat.id in H by assumption. rewrite Nat.sub_0_r in H.
  change (Z.of_nat 0) with 0 in H.
  rewrite (H eq_refl). simpl.
  rewrite expressions_of_rows. unfold table_of.
  rewrite rows_from_resize, fmap_take. reflexivity.
Qed.

Lemma elem_of_exprs_from (ex : Expr) (i j : Z) (line : list string) :
  ex ∈ exprs_from i j line <->
  exists (k : nat) (data : string),
    line !! k = Some data /\ is_expression data = true /\
    ex = mkExpr (i, j + Z.of_nat k) (substr1 data).
Proof.
  revert j. induction line as [|d line IH]; intros j.
  - simpl. split; [intros H; inversion H|intros (k & data & H & _); discriminate].
  - cbn [exprs_from]. rewrite elem_of_app, IH. split.
    + intros [H|(k & data & Hk & He & ->)].
      * destruct (is_expression d) eqn:Ed; [|inversion H].
        apply list_elem_of_singleton in H as ->.
        exists 0%nat, d. rewrite Z.add_0_r. auto.
      * exists (S k), data. repeat split; try assumption.
        do 2 f_equal. lia.
    + intros ([|k] & data & Hk & He & ->).
      * injection Hk as ->. left. rewrite He, Z.add_0_r.
        now apply list_elem_of_singleton.
      * right. exists k, data. repeat split; try assumption.
        do 2 f_equal. lia.
Qed.

Lemma elem_of_rows_from (ex : Expr) (i : Z) (table : list (list string)) :
  ex ∈ rows_from i table <->
  exists (r k : nat) (line : list string) (data : string),
    table !! r = Some line /\ line !! k = Some data /\
    is_expression data = true /\
    ex = mkExpr (i + Z.of_nat r, Z.of_nat k) (substr1 data).
Proof.
  revert i. induction table as [|l table IH]; intros i.
  - simpl. split; [intros H; inversion H|intros (r & k & line & data & H & _); discriminate].
  - cbn [rows_from]. rewrite elem_of_app, IH, elem_of_exprs_from. split.
    + intros [(k & data & Hk & He & ->)|(r & k & line & data & Hr & Hk & He & ->)].
      * exists 0%nat, k, l, data. rewrite Z.add_0_r. auto.
      * exists (S r), k, line, data. repeat split; try assumption.
        do 2 f_equal. lia.
    + intros ([|r] & k & line & data & Hr & Hk & He & ->).
      * injection Hr as ->. left. exists k, data. rewrite Z.add_0_r. auto.
      * right. exists r, k, line, data. repeat split; try assumption.
        do 2 f_equal. lia.
Qed.

Lemma table_at_lookup (tk : Tokenizer) (r k : nat) :
  table_at tk (Z.of_nat r) (Z.of_nat k) =
  match m_table tk !! r with
  | Some line => line !! k
  | None => None
  end.
Proof.
  unfold table_at.
  destruct (Z.ltb_spec (Z.of_nat r) 0); [lia|].
  destruct (Z.ltb_spec (Z.of_nat k) 0); [lia|]. simpl.
  now rewrite !Nat2Z.id.
Qed.

Lemma elem_of_expressions_of (tk : Tokenizer) (ex : Expr) :
  ex ∈ expressions_of (m_table tk) <-> record_of tk ex.
Proof.
  rewrite expressions_of_rows, elem_of_rows_from. unfold record_of. split.
  - intros (r & k & line & data & Hr & Hk & He & ->). exists data.
    cbn [m_coords m_value fst snd]. rewrite Z.add_0_l, table_at_lookup, Hr. auto.
  - intros (s & Ht & He & Hv).
    destruct (table_at_nonneg _ _ _ _ Ht) as [H1 H2].
    rewrite <- (Z2Nat.id (m_coords ex).1), <- (Z2Nat.id (m_coords ex).2) in Ht
      by assumption.
    rewrite table_at_lookup in Ht.
    destruct (m_table tk !! Z.to_nat (m_coords ex).1) as [line|] eqn:Hr;
      [|discriminate].
    exists (Z.to_nat (m_coords ex).1), (Z.to_nat (m_coords ex).2), line, s.
    repeat split; try assumption.
    destruct ex as [[row col] v]. simpl in *. subst v.
    rewrite !Z2Nat.id by assumption. reflexivity.
Qed.

Lemma stored_classified (data : string) : classified (stored data).
Proof.
  unfold stored, classified.
  destruct (is_expression data) eqn:Ee; [auto|].
  destruct (empty data) eqn:Em; [destruct data; [auto|discriminate]|].
  destruct (is_number data) eqn:En; [auto|].
  destruct (is_string_literal data) eqn:El; simpl; auto 6.
Qed.

Lemma table_of_shaped (n_rows n_cols : Z) (lines : list string) :
  shaped n_rows n_cols (table_of n_rows n_cols lines) /\
  Forall (Forall classified) (table_of n_rows n_cols lines).
Proof.
  unfold shaped, table_of. rewrite length_resize. repeat split.
  - apply Forall_resize; [apply length_replicate|].
    apply Forall_fmap, Forall_true. intros line. simpl. unfold row_of.
    apply length_resize.
  - apply Forall_resize.
    + apply Forall_replicate. unfold classified. auto.
    + apply Forall_fmap, Forall_true. intros line. simpl. unfold row_of.
      apply Forall_resize; [unfold classified; auto|].
      apply Forall_fmap, Forall_true. intros data. apply stored_classified.
Qed.

(** X13. The input phase of [main] never writes outside the arrays it
    allocated and returns for every input.  The table it leaves is the
    input cut or filled up to the size of the header: row [i] holds the
    texts of line [i], each one kept when it is a formula, a number, a
    quoted text or empty and replaced by "#E_UNKNOWN" otherwise; texts
    beyond [n_cols] and lines beyond [n_rows] are dropped, missing ones
    are empty cells. *)
Theorem main_fills_table
    (n_rows n_cols : Z) (lines : list string) (st : state) :
  0 < n_rows -> 0 < n_cols ->
  exists f,
    fill_lines n_rows n_cols lines 0 (mkFilling (allocate n_rows n_cols) []) st
      = (Ret f, st) /\
    cells f = table_of n_rows n_cols lines /\
    shaped n_rows n_cols (cells f) /\
    Forall (Forall classified) (cells f).
Proof.
  intros Hr Hc. eexists. split; [apply fill_lines_table; lia|].
  cbn [cells]. split; [reflexivity|]. apply table_of_shaped.
Qed.

Lemma main_fills_table_witness :
  exists f,
    fill_lines 2 2 [tabbed ["1"; "x y"; "3"]; EmptyString; "=A1"] 0
               (mkFilling (allocate 2 2) []) initial = (Ret f, initial) /\
    cells f = table_of 2 2 [tabbed ["1"; "x y"; "3"]; EmptyString; "=A1"] /\
    shaped 2 2 (cells f) /\
    Forall (Forall classified) (cells f).
Proof.
  apply (main_fills_table 2 2 [tabbed ["1"; "x y"; "3"]; EmptyString; "=A1"] initial);
    lia.
Defined.

(** X14. The work list [main] hands to the [Tokenizer] is the list of
    the formula cells of the table it filled, row by row and from left
    to right: a record is in the list exactly when the cell at its
    coordinates holds a formula and its text is what follows the "=". *)
Theorem main_collects_formulas
    (n_rows n_cols : Z) (lines : list string) (st : state)
    (f : filling) (st' : state) :
  0 < n_rows -> 0 < n_cols ->
  fill_lines n_rows n_cols lines 0 (mkFilling (allocate n_rows n_cols) []) st
    = (Ret f, st') ->
  let tokenizer := mkTokenizer n_rows n_cols (cells f) (expressions f) in
  expressions f = expressions_of (cells f) /\
  (forall ex, ex ∈ m_expressions tokenizer <-> record_of tokenizer ex).
Proof.
  intros Hr Hc H tokenizer.
  rewrite fill_lines_table in H by lia. injection H as <- <-.
  split; [reflexivity|]. intros ex. subst tokenizer. cbn [cells expressions].
  apply (elem_of_expressions_of
           (mkTokenizer n_rows n_cols (table_of n_rows n_cols lines)
                        (expressions_of (table_of n_rows n_cols lines)))).
Qed.

Lemma main_collects_formulas_witness :
  let f := mkFilling [["=B1+1"; "2"]] [mkExpr (0, 0) "B1+1"] in
  let tokenizer := mkTokenizer 1 2 (cells f) (expressions f) in
  expressions f = expressions_of (cells f) /\
  (forall ex, ex ∈ m_expressions tokenizer <-> record_of tokenizer ex).
Proof.
  apply (main_collects_formulas 1 2 [tabbed ["=B1+1"; "2"]] initial _ initial);
    [lia|lia|vm_compute; reflexivity].
Defined.

(** ** Reads of the table *)

Lemma get_col_by_char_inside (tk : Tokenizer) (c : ascii) :
  is_ref_candidate tk c = true -> 0 <= get_col_by_char tk c < m_cols tk.
Proof.
  intros H. apply is_ref_candidate_range in H. unfold get_col_by_char.
  rewrite char_val_A, char_val_a.
  destruct H as [[H1 H2]|[H1 H2]].
  - destruct (Z.leb_spec (m_cols tk) 26); [|lia].
    rewrite to_short_small by lia. lia.
  - destruct (Z.leb_spec (m_cols tk) 26); [lia|].
    destruct (Z.ltb_spec 26 (m_cols tk)); [|lia].
    destruct (Z.leb_spec (m_cols tk) 52); [|lia]. simpl.
    rewrite to_short_small by lia. lia.
Qed.

Lemma table_at_shaped (tk : Tokenizer) (row col : Z) :
  shaped (m_rows tk) (m_cols tk) (m_table tk) ->
  0 <= row < m_rows tk -> 0 <= col < m_cols tk ->
  is_Some (table_at tk row col).
Proof.
  intros [Hl Hf] Hrow Hcol. unfold table_at.
  destruct (Z.ltb_spec row 0); [lia|].
  destruct (Z.ltb_spec col 0); [lia|]. simpl.
  destruct (lookup_lt_is_Some_2 (m_table tk) (Z.to_nat row) ltac:(lia))
    as [line Hline].
  rewrite Hline. apply lookup_lt_is_Some_2.
  rewrite Forall_forall in Hf.
  rewrite (Hf line) by (eapply list_elem_of_lookup_2; eassumption).
  lia.
Qed.

(** X15. The reads [m_table[row][col]] stay inside the table.  In a
    table of [m_rows] rows of [m_cols] cells, as [main] builds it, the
    coordinates the loop of [parse_expr] computes for a reference that
    passes its check of the row name a cell of the table, for the letters
    of both blocks. *)
Theorem reference_inside_table
    (tk : Tokenizer) (c : ascii) (rest : string) :
  shaped (m_rows tk) (m_cols tk) (m_table tk) ->
  is_ref_candidate tk c = true ->
  let row := to_short (to_int ((get_number_by_str rest).1 - 1)) in
  let col := get_col_by_char tk c in
  (row + 1 >? m_rows tk) || (row <? 0) = false ->
  (0 <= row < m_rows tk /\ 0 <= col < m_cols tk) /\
  is_Some (table_at tk row col).
Proof.
  intros Hs Hc row col Hin.
  apply orb_false_iff in Hin as [H1 H2].
  assert (Hrow : 0 <= row < m_rows tk).
  { split; [now apply Z.ltb_ge|].
    rewrite Z.gtb_ltb in H1. apply Z.ltb_ge in H1. lia. }
  pose proof (get_col_by_char_inside tk c Hc) as Hcol.
  split; [now split|]. now apply table_at_shaped.
Qed.

Lemma reference_inside_table_witness :
  (0 <= 1 < 3 /\ 0 <= 2 < 4) /\ is_Some (table_at sample_grid 1 2).
Proof.
  apply (reference_inside_table sample_grid "C" "2+1");
    [|reflexivity|reflexivity].
  split; [reflexivity|]. repeat constructor.
Defined.

(** ** What [main] prints *)

Lemma append_assoc_tab (v rest : string) :
  (v +:+ String tab EmptyString) +:+ rest = v +:+ String tab rest.
Proof.
  induction v as [|c v IH].
  - now rewrite !append_nil_l, append_cons, append_nil_l.
  - now rewrite !append_cons, IH.
Qed.

Lemma print_cell_spec (tk : Tokenizer) (i j : Z) (st : state) :
  shaped (m_rows tk) (m_cols tk) (m_table tk) ->
  0 <= i < m_rows tk -> 0 <= j < m_cols tk ->
  (forall ex, record_of tk ex ->
     is_Some (map_ref_cells st !! get_cell_by_coords (m_coords ex))) ->
  print_cell tk i j st = (Ret (shown tk st i j +:+ String tab EmptyString), st).
Proof.
  intros Hs Hi Hj Hex. unfold print_cell, shown.
  destruct (table_at_shaped tk i j Hs Hi Hj) as [cell Hcell]. rewrite Hcell.
  destruct (is_string_literal cell); [reflexivity|].
  destruct (is_expression cell) eqn:He; [|reflexivity].
  destruct (Hex (mkExpr (i, j) (substr1 cell))) as [t Ht].
  { exists cell. auto. }
  cbn [m_coords] in Ht. unfold get_value. unfold_monad. now rewrite Ht.
Qed.

Lemma print_line_spec (tk : Tokenizer) (i : Z) (js : list Z) (st : state) :
  shaped (m_rows tk) (m_cols tk) (m_table tk) ->
  0 <= i < m_rows tk -> Forall (fun j => 0 <= j < m_cols tk) js ->
  (forall ex, record_of tk ex ->
     is_Some (map_ref_cells st !! get_cell_by_coords (m_coords ex))) ->
  print_line tk i js st = (Ret (tab_ended (shown tk st i <$> js)), st).
Proof.
  intros Hs Hi Hjs Hex. induction Hjs as [|j js Hj _ IH]; [reflexivity|].
  cbn [print_line]. unfold bind.
  rewrite (print_cell_spec tk i j st Hs Hi Hj Hex), IH.
  unfold ret. cbn [fmap list_fmap tab_ended]. now rewrite append_assoc_tab.
Qed.

Lemma print_lines_spec (tk : Tokenizer) (rows : list Z) (st : state) :
  shaped (m_rows tk) (m_cols tk) (m_table tk) ->
  Forall (fun i => 0 <= i < m_rows tk) rows ->
  (forall ex, record_of tk ex ->
     is_Some (map_ref_cells st !! get_cell_by_coords (m_coords ex))) ->
  print_lines tk rows st =
  (Ret ((fun i => tab_ended (shown tk st i <$> seqZ 0 (m_cols tk))) <$> rows), st).
Proof.
  intros Hs Hrows Hex. induction Hrows as [|i rows Hi _ IH]; [reflexivity|].
  cbn [print_lines]. unfold bind.
  rewrite (print_line_spec tk i _ st Hs Hi), IH; [reflexivity| |assumption].
  apply Forall_forall. intros j Hj%elem_of_seqZ. lia.
Qed.

Lemma main_after_run (n_rows n_cols : Z) (lines : list string) (fuel : nat)
    (st : state) (r1 : outcome unit) (st1 : state) :
  0 < n_rows -> 0 < n_cols ->
  let tokenizer := load n_rows n_cols (table_of n_rows n_cols lines) in
  run tokenizer fuel st = (r1, st1) ->
  main n_rows n_cols lines fuel st =
  (match r1 with
   | Ret _ => Ret (0, tab_ended <$> shown_rows tokenizer st1)
   | Throw e => Throw e
   | Undefined => Undefined
   | OutOfFuel => OutOfFuel
   end, st1).
Proof.
  intros Hr Hc tokenizer Erun. unfold main.
  destruct (Z.leb_spec n_rows 0); [lia|].
  destruct (Z.leb_spec n_cols 0); [lia|]. cbn [orb].
  unfold bind at 1. rewrite fill_lines_table by lia.
  cbn [cells expressions].
  fold (load n_rows n_cols (table_of n_rows n_cols lines)).
  fold tokenizer. unfold bind at 1. rewrite Erun.
  pose proof Erun as Hsound. apply run_loop_sound in Hsound as (_ & _ & Hsound).
  destruct r1 as [[]|e| |]; try reflexivity.
  assert (Hs : shaped (m_rows tokenizer) (m_cols tokenizer) (m_table tokenizer))
    by apply table_of_shaped.
  assert (Hex : forall ex, record_of tokenizer ex ->
             is_Some (map_ref_cells st1 !! get_cell_by_coords (m_coords ex))).
  { intros ex Hrec. apply Hsound.
    apply (elem_of_expressions_of tokenizer ex). exact Hrec. }
  unfold bind. rewrite (print_lines_spec tokenizer _ st1 Hs);
    [|apply Forall_forall; intros i Hi%elem_of_seqZ;
      cbn [m_rows tokenizer load]; lia|assumption].
  unfold ret, shown_rows. now rewrite <- list_fmap_compose.
Qed.

(** X16. [main] on a header of positive numbers never ends with an
    exception, and with fuel beyond the number of identities a reference
    can name it does not run out of fuel.  When it returns, the status is
    0, the cache is as [run] left it on the table of the input, and the
    output has one line for each row with, for each cell, a text and a
    tab: the text after the quote, the text of the entry of a formula, or
    the cell itself. *)
Theorem main_prints_the_cache
    (n_rows n_cols : Z) (lines : list string) (fuel : nat)
    (st : state) (r : outcome (Z * list string)) (st' : state) :
  0 < n_rows -> 0 < n_cols ->
  main n_rows n_cols lines fuel st = (r, st') ->
  let tokenizer := load n_rows n_cols (table_of n_rows n_cols lines) in
  (forall e, r <> Throw e) /\
  ((size (grid_ids tokenizer) < fuel)%nat -> r <> OutOfFuel) /\
  (forall status out, r = Ret (status, out) ->
     status = 0 /\
     run tokenizer fuel st = (Ret tt, st') /\
     out = tab_ended <$> shown_rows tokenizer st').
Proof.
  intros Hr Hc H tokenizer.
  destruct (run tokenizer fuel st) as [r1 st1] eqn:Erun.
  rewrite (main_after_run n_rows n_cols lines fuel st r1 st1 Hr Hc Erun) in H.
  fold tokenizer in H. injection H as <- <-.
  pose proof (run_loop_total tokenizer fuel (m_expressions tokenizer) st) as Htot.
  fold (run tokenizer fuel) in Htot. rewrite Erun in Htot.
  apply run_loop_sound in Erun as (_ & _ & Hsound).
  destruct r1 as [[]|e| |]; try contradiction.
  - split; [discriminate|]. split; [discriminate|].
    intros status out [= <- <-]. repeat split.
  - repeat split; discriminate.
  - split; [discriminate|]. split; [|discriminate].
    intros Hf _. now apply Htot.
Qed.

Lemma main_prints_the_cache_witness :
  let tokenizer := load 1 2 (table_of 1 2 [tabbed ["=B1+1"; "2"]]) in
  (forall e, Ret (0, [tab_ended ["3"; "2"]]) <> Throw e) /\
  ((size (grid_ids tokenizer) < 2)%nat ->
   Ret (0, [tab_ended ["3"; "2"]]) <> OutOfFuel) /\
  (forall status out, Ret (0, [tab_ended ["3"; "2"]]) = Ret (status, out) ->
     status = 0 /\
     run tokenizer 2 initial =
       (Ret tt, snd (main 1 2 [tabbed ["=B1+1"; "2"]] 2 initial)) /\
     out = tab_ended
             <$> shown_rows tokenizer (snd (main 1 2 [tabbed ["=B1+1"; "2"]] 2 initial))).
Proof.
  apply (main_prints_the_cache 1 2 [tabbed ["=B1+1"; "2"]] 2 initial);
    [lia|lia|vm_compute; reflexivity].
Defined.

(** On the example in the comment above [main], the embedding of [main]
    prints the output the comment expects. *)
Example main_sample_output :
  fst (main 3 4 [ tabbed ["12"; "=C2"; "3"; "'Sample"];
                  tabbed ["=A1+B1*C1/5"; "=A2*B1"; "=B3-C3"; "'Spread"];
                  tabbed ["'Test"; "=4-3"; "5"; "'Sheet"] ] 4 initial) =
  Ret (0, [ tab_ended ["12"; "-4"; "3"; "Sample"];
            tab_ended ["4"; "-16"; "-4"; "Spread"];
            tab_ended ["Test"; "1"; "5"; "Sheet"] ]).
Proof. vm_compute. reflexivity. Qed.

(** ** The texts in the cache *)

Lemma known_cache_reserve (tk : Tokenizer) (k : string) (st : state) :
  known_cache tk st -> known_cache tk (reserve k st).
Proof.
  intros H k' t. simpl. destruct (decide (k = k')) as [->|Hne].
  - rewrite lookup_insert_eq. now intros [= <-].
  - rewrite lookup_insert_ne by assumption. apply H.
Qed.

Lemma known_cache_commit (tk : Tokenizer) (k : string) (t : Token) (st : state) :
  known_cache tk st -> known_token tk t -> known_cache tk (commit k t st).
Proof.
  intros H Ht k' t'. simpl. destruct (decide (k = k')) as [->|Hne].
  - rewrite lookup_insert_eq. now intros [= <-].
  - rewrite lookup_insert_ne by assumption. apply H.
Qed.

Lemma known_code (tk : Tokenizer) (what : string) :
  what ∈ error_codes -> known_token tk (T_STRING what).
Proof. intros H. now left. Qed.

Ltac known_code := unfold error_codes; set_solver.

Lemma evaluate_known (tk : Tokenizer) (ts : list Token) (o : oper) :
  o <> OP_NONE -> o <> OP_UNKNOWN -> Forall (known_token tk) ts ->
  known_error (evaluate ts o) /\
  forall r, evaluate ts o = Ret r ->
    known_token tk r.1 /\ Forall (known_token tk) r.2.
Proof.
  intros Hn Hu Hts.
  destruct ts as [|b [|a ts]];
    try (split; [intros w|intros r]; discriminate).
  assert (Hnot : (forall l r, (a, b) <> (T_NUMBER l, T_NUMBER r)) ->
                 known_error (evaluate (b :: a :: ts) o) /\
                 forall r, evaluate (b :: a :: ts) o = Ret r ->
                   known_token tk r.1 /\ Forall (known_token tk) r.2).
  { intros Hnot. rewrite evaluate_not_numbers by assumption.
    split; [|intros r0; discriminate]. intros w [= <-]. known_code. }
  destruct a as [|l|sa]; try solve [apply Hnot; intros l' r'; discriminate].
  destruct b as [|r|sb]; try solve [apply Hnot; intros l' r'; discriminate].
  clear Hnot. rewrite evaluate_numbers. cbv zeta.
  assert (Hr : forall z,
             let c := (if (INT_MIN <=? z) && (z <=? INT_MAX)
                       then Ret (T_NUMBER z, ts) else Undefined) in
             known_error c /\
             forall r, c = Ret r ->
               known_token tk r.1 /\ Forall (known_token tk) r.2).
  { intros z c. subst c. destruct (_ && _).
    - split; [intros w; discriminate|]. intros r0 [= <-]. simpl.
      split; [exact I|]. now do 2 apply Forall_inv_tail in Hts.
    - split; [intros w|intros r0]; discriminate. }
  destruct o; try congruence; try apply Hr.
  destruct (r =? 0); [|apply Hr].
  destruct (l =? 0).
  - split; [intros w|intros r0]; discriminate.
  - split; [|intros r0; discriminate]. intros w [= <-]. known_code.
Qed.

Section Texts.

Variable tk : Tokenizer.
Variable prec : string -> M Token.

Hypothesis prec_known :
  forall str st r st', prec str st = (r, st') -> known_cache tk st ->
    known_cache tk st' /\ known_error r /\
    forall t, r = Ret t -> known_token tk t.

Lemma parse_reference_known (coords : coords) (st : state) r st' :
  parse_reference tk prec coords st = (r, st') -> known_cache tk st ->
  known_cache tk st' /\ known_error r /\
  forall t, r = Ret t -> known_token tk t.
Proof.
  intros H Hst. unfold parse_reference in H.
  destruct (table_at tk coords.1 coords.2) as [s|] eqn:Et; unfold_monad.
  2:{ injection H as <- <-. split; [assumption|].
      split; [intros w|intros t]; discriminate. }
  destruct (map_ref_cells st !! get_cell_by_coords coords) eqn:Ek; simpl in H.
  { injection H as <- <-. split; [assumption|].
    split; [intros w|intros t']; discriminate. }
  rewrite Ek in H. simpl in H.
  pose proof (known_cache_reserve tk (get_cell_by_coords coords) st Hst) as Hres.
  assert (Hdone : forall t st1, known_cache tk st1 -> known_token tk t ->
            known_cache tk (commit (get_cell_by_coords coords) t st1) /\
            known_error (Ret t) /\
            forall t', Ret t = Ret t' -> known_token tk t').
  { intros t st1 H1 Ht. split; [now apply known_cache_commit|].
    split; [intros w; discriminate|]. now intros t' [= <-]. }
  destruct (is_expression s).
  { destruct (prec (substr1 s) (reserve (get_cell_by_coords coords) st))
      as [r1 st1] eqn:E1.
    apply prec_known in E1 as (I1 & E1 & T1); [|assumption].
    destruct r1 as [t|[w|w|w]| |]; simpl in H; injection H as <- <-;
      try (split; [assumption|]; split; [intros w'|intros t']; discriminate).
    - apply Hdone; auto.
    - apply Hdone; [assumption|]. apply known_code. now apply E1. }
  destruct (is_number s) eqn:En.
  { unfold stoi in H. destruct (_ <=? _);
      simpl in H; injection H as <- <-;
      [|split; [assumption|]; split; [intros w'|intros t']; discriminate].
    apply Hdone; [assumption|exact I]. }
  destruct (is_string_literal s) eqn:El; [|destruct (empty s)];
    simpl in H; injection H as <- <-.
  - apply Hdone; [assumption|]. right. right.
    exists coords.1, coords.2, s. auto.
  - apply Hdone; [assumption|]. right. now left.
  - split; [assumption|]. split; [|intros t'; discriminate].
    intros w [= <-]. known_code.
Qed.

Lemma reduce_known (l : locals) (it : string) (st : state) r st' :
  known_operands tk l ->
  bind (reduce l) (fun ls' => ret (it, ls')) st = (r, st') ->
  st' = st /\ known_error r /\ forall p, r = Ret p -> known_operands tk p.2.
Proof.
  intros [Hl Ht] H. unfold reduce in H.
  destruct (_ && _) eqn:Eg.
  - apply andb_true_iff in Eg as [Eg Hu]. apply andb_true_iff in Eg as [_ Hn].
    apply negb_true_iff, bool_decide_eq_false in Hn, Hu.
    destruct (evaluate_known tk (toks l) (op l) Hn Hu Hl) as [He Hr].
    unfold_monad. destruct (evaluate (toks l) (op l)) as [v|e| |] eqn:Ev;
      injection H as <- <-; (split; [reflexivity|]).
    + split; [intros w; discriminate|]. intros p [= <-].
      destruct (Hr v eq_refl) as [H1 H2].
      split; simpl; [constructor|]; assumption.
    + split; [|intros p; discriminate]. intros w [= ->]. now apply He.
    + split; [intros w|intros p]; discriminate.
    + split; [intros w|intros p]; discriminate.
  - unfold_monad. injection H as <- <-. split; [reflexivity|].
    split; [intros w; discriminate|]. intros p [= <-]. now split.
Qed.

Lemma step_known (c : ascii) (rest : string) (ls : locals) (st : state) r st' :
  known_operands tk ls -> known_cache tk st ->
  step tk prec c rest ls st = (r, st') ->
  known_cache tk st' /\ known_error r /\
  forall p, r = Ret p -> known_operands tk p.2.
Proof.
  intros Hls Hst H. pose proof Hls as [Hl Ht].
  destruct (is_operator c) eqn:Eo.
  { rewrite step_operator in H by assumption.
    destruct (_ || _); injection H as <- <-; (split; [assumption|]).
    - split; [|intros p; discriminate]. intros w [= <-]. known_code.
    - split; [intros w; discriminate|]. intros p [= <-]. now split. }
  destruct (isdigit c) eqn:Ed.
  { rewrite step_digit in H by assumption. cbv zeta in H.
    apply reduce_known in H as [-> H]; [now split|].
    split; cbn [toks tok]; [constructor|]; try assumption. exact I. }
  destruct (is_ref_candidate tk c) eqn:Er.
  2:{ unfold step in H. rewrite Eo, Ed, Er in H. injection H as <- <-.
      split; [assumption|]. split; [|intros p; discriminate].
      intros w [= <-]. known_code. }
  rewrite step_reference in H by assumption. cbv zeta in H.
  destruct (_ || _).
  { injection H as <- <-. split; [assumption|].
    split; [|intros p; discriminate]. intros w [= <-]. known_code. }
  destruct (map_ref_cells st !! _) as [t|] eqn:Ek.
  - assert (Hi : known_token tk t) by (eapply Hst; exact Ek).
    destruct t as [|n|s].
    + injection H as <- <-. split; [assumption|].
      split; [|intros p; discriminate]. intros w [= <-]. known_code.
    + apply reduce_known in H as [-> H]; [now split|].
      split; simpl; [constructor|]; assumption.
    + apply reduce_known in H as [-> H]; [now split|].
      split; simpl; [constructor|]; assumption.
  - unfold bind at 1 in H.
    destruct (parse_reference tk prec _ st) as [r1 st1] eqn:E1.
    apply parse_reference_known in E1 as (I1 & X1 & T1); [|assumption].
    destruct r1 as [t|e| |].
    + specialize (T1 t eq_refl).
      apply reduce_known in H as [-> H]; [now split|].
      split; simpl; [constructor|]; assumption.
    + injection H as <- <-. split; [assumption|].
      split; [|intros p; discriminate]. intros w [= ->]. now apply X1.
    + injection H as <- <-. split; [assumption|].
      split; [intros w|intros p]; discriminate.
    + injection H as <- <-. split; [assumption|].
      split; [intros w|intros p]; discriminate.
Qed.

Lemma scan_known (gas : nat) (it : string) (ls : locals) (st : state) r st' :
  known_operands tk ls -> known_cache tk st ->
  scan tk prec gas it ls st = (r, st') ->
  known_cache tk st' /\ known_error r /\
  forall l, r = Ret l -> known_operands tk l.
Proof.
  revert it ls st. induction gas as [|gas IH]; intros it ls st Hls Hst H;
    destruct it as [|c rest]; simpl in H; unfold_monad;
    try (injection H as <- <-; split; [assumption|];
         split; [intros w; discriminate|]; try discriminate;
         now intros l [= <-]).
  destruct (step tk prec c rest ls st) as [r1 st1] eqn:E1.
  apply step_known in E1 as (I1 & X1 & T1); [|assumption..].
  destruct r1 as [[it1 ls1]|e| |].
  - eapply IH; [|exact I1|exact H]. exact (T1 _ eq_refl).
  - injection H as <- <-. split; [assumption|].
    split; [|intros p; discriminate]. intros w [= ->]. now apply X1.
  - injection H as <- <-. split; [assumption|].
    split; [intros w|intros p]; discriminate.
  - injection H as <- <-. split; [assumption|].
    split; [intros w|intros p]; discriminate.
Qed.

End Texts.

Lemma result_known (tk : Tokenizer) (ls : locals) :
  known_operands tk ls -> known_token tk (result ls).
Proof.
  intros [Hl Ht]. unfold result. destruct (_ =? _)%nat; [|assumption].
  destruct (toks ls) as [|t ts]; [exact I|]. simpl. now inversion Hl.
Qed.

Lemma parse_expr_known (tk : Tokenizer) (fuel : nat) (str : string)
    (st : state) r st' :
  parse_expr tk fuel str st = (r, st') -> known_cache tk st ->
  known_cache tk st' /\ known_error r /\
  forall t, r = Ret t -> known_token tk t.
Proof.
  revert str st r st'. induction fuel as [|fuel IH]; intros str st r st' H Hst.
  - injection H as <- <-. split; [assumption|].
    split; [intros w|intros t]; discriminate.
  - rewrite parse_expr_unfold in H.
    destruct (scan tk (parse_expr tk fuel) _ str start st) as [r1 st1] eqn:E1.
    apply scan_known in E1 as (I1 & X1 & T1);
      [|exact IH|split; [constructor|exact I]|assumption].
    destruct r1 as [ls|e| |]; injection H as <- <-;
      (split; [assumption|]).
    + split; [intros w; discriminate|].
      intros t [= <-]. apply result_known. now apply T1.
    + split; [|intros p; discriminate]. intros w [= ->]. now apply X1.
    + split; [intros w|intros p]; discriminate.
    + split; [intros w|intros p]; discriminate.
Qed.

Lemma run_loop_known (tk : Tokenizer) (fuel : nat) (exprs : list Expr)
    (st : state) r st' :
  run_loop tk fuel exprs st = (r, st') -> known_cache tk st -> known_cache tk st'.
Proof.
  revert st. induction exprs as [|ex exprs IH]; intros st H Hst.
  - now injection H as <- <-.
  - destruct (map_ref_cells st !! get_cell_by_coords (m_coords ex)) as [t|] eqn:Ek.
    + rewrite (run_skip _ _ _ _ _ t Ek) in H. now apply IH in H.
    + rewrite (run_turn _ _ _ _ _ Ek) in H. cbv zeta in H.
      destruct (parse_expr tk fuel (m_value ex) _) as [r1 st1] eqn:E1.
      apply parse_expr_known in E1 as (I1 & X1 & T1);
        [|now apply known_cache_reserve].
      destruct r1 as [t|[w|w|w]| |];
        try (injection H as <- <-; assumption);
        (apply IH in H; [assumption|]); apply known_cache_commit;
        try exact I; try assumption.
      * now apply T1.
      * apply known_code. now apply X1.
Qed.

(** X17. What the cache can hold after a [run] from the empty cache,
    whatever its outcome: the token of [Token()], a number, or a text
    that is one of seven error codes, the empty text, or what follows
    the quote in a cell of the table.  The error a formula ends with
    carries one of the seven codes; "#E_UNKNOWN_OP" is not among them,
    as [evaluate] is never called with an operator it does not know. *)
Theorem cache_holds_known_texts
    (tk : Tokenizer) (fuel : nat) (r : outcome unit) (st' : state) :
  run tk fuel initial = (r, st') ->
  (forall k s, map_ref_cells st' !! k = Some (T_STRING s) -> known_text tk s) /\
  (forall str what,
     fst (parse_expr tk fuel str st') = Throw (domain_error what) ->
     what ∈ error_codes /\ what <> "#E_UNKNOWN_OP").
Proof.
  intros H. apply run_loop_known in H.
  2:{ intros k' t'. simpl. now rewrite lookup_empty. }
  split.
  - intros k s Hk. exact (H k _ Hk).
  - intros str what Hw.
    destruct (parse_expr tk fuel str st') as [r1 st1] eqn:E1. simpl in Hw.
    apply parse_expr_known in E1 as (_ & X1 & _); [|assumption].
    specialize (X1 what Hw). split; [assumption|].
    intros ->. unfold error_codes in X1. set_solver.
Qed.

Lemma cache_holds_known_texts_witness :
  (forall k s,
     map_ref_cells (snd (run unsupported_grid 2 initial)) !! k = Some (T_STRING s) ->
     known_text unsupported_grid s) /\
  (forall str what,
     fst (parse_expr unsupported_grid 2 str (snd (run unsupported_grid 2 initial)))
       = Throw (domain_error what) ->
     what ∈ error_codes /\ what <> "#E_UNKNOWN_OP").
Proof.
  apply (cache_holds_known_texts unsupported_grid 2 (Ret tt)).
  vm_compute. reflexivity.
Defined.

(** ** Texts are no operands *)

Lemma reduce_text (a b t0 : Token) (o : oper) (it : string) (st : state) :
  o <> OP_NONE -> o <> OP_UNKNOWN ->
  (forall l r, (a, b) <> (T_NUMBER l, T_NUMBER r)) ->
  bind (reduce (mkLocals [b; a] o t0)) (fun ls' => ret (it, ls')) st =
  (Throw (domain_error "#E_UNEXP_EXPR"), st).
Proof.
  intros Hn Hu Hab. unfold reduce. cbn [toks op length Nat.eqb].
  rewrite (bool_decide_eq_false_2 _ Hn), (bool_decide_eq_false_2 _ Hu).
  cbn [negb andb]. unfold bind, lift.
  now rewrite evaluate_not_numbers.
Qed.

(** X18. A text is never an operand.  When the text of a formula
    scanned so far leaves a text as its only operand, an operator
    followed by a number raises "#E_UNEXP_EXPR"; and when it leaves any
    single operand, an operator followed by a reference to a cell whose
    entry holds a text raises it too.  The cache is not changed by the
    operator and what follows it. *)
Theorem text_operand_rejected
    (tk : Tokenizer) (fuel : nat) (str : string) (o c : ascii) (rest : string)
    (st : state) (ls : locals) (st' : state) (a : Token) (s : string) :
  is_operator o = true ->
  scan tk (parse_expr tk fuel) (String.length str) str start st = (Ret ls, st') ->
  toks ls = [a] -> op ls = OP_NONE ->
  (isdigit c = true /\ (forall n, a <> T_NUMBER n)) \/
  (is_ref_candidate tk c = true /\
   let row := to_short (to_int ((get_number_by_str rest).1 - 1)) in
   (row + 1 >? m_rows tk) || (row <? 0) = false /\
   map_ref_cells st' !! get_cell_by_coords (row, get_col_by_char tk c)
     = Some (T_STRING s)) ->
  parse_expr tk (S fuel) (str +:+ String o (String c rest)) st =
    (Throw (domain_error "#E_UNEXP_EXPR"), st').
Proof.
  intros Ho Hs Ht Hop Hc.
  destruct (is_operator_known o Ho) as [Hu Hn].
  rewrite parse_expr_unfold, length_append. cbn [String.length].
  destruct (scan_more _ _ _ _ (String o (String c rest)) _ _ _ _
              (is_operator_not_digit _ Ho) Hs
              (S (S (String.length rest)))) as (g' & Hg & ->).
  destruct g' as [|[|g']]; [lia|lia|]. cbn [scan]. unfold bind at 1.
  rewrite step_operator by assumption.
  rewrite (bool_decide_eq_true_2 _ Hop), Ht. cbn [negb orb bool_decide fst snd].
  rewrite bool_decide_eq_false_2 by discriminate.
  cbn [fst snd]. unfold bind at 1.
  destruct Hc as [[Hd Ha]|(Hr & Hin & Hk)].
  - rewrite step_digit by assumption. cbv zeta. cbn [toks op tok].
    rewrite reduce_text; try assumption; [reflexivity|].
    intros l r [= -> _]. now apply (Ha l).
  - rewrite step_reference by assumption. cbv zeta. cbv zeta in Hin, Hk.
    rewrite Hin, Hk. cbn [toks op tok].
    rewrite reduce_text; try assumption; [reflexivity|].
    intros l r [= _ ?].
Qed.

Lemma text_operand_rejected_witness :
  parse_expr sample_grid 1 ("D1" +:+ String "+" (String "1" "0")) initial =
    (Throw (domain_error "#E_UNEXP_EXPR"),
     commit "D1" (T_STRING "Sample") (reserve "D1" initial)).
Proof.
  apply (text_operand_rejected sample_grid 0 "D1" "+" "1" "0" initial
           (mkLocals [T_STRING "Sample"] OP_NONE (T_STRING "Sample"))
           _ (T_STRING "Sample") EmptyString);
    try reflexivity.
  left. split; [reflexivity|discriminate].
Defined.

(** ** Identities as keys of the cache *)

(** X19. The identities of the cells of the first 26 columns are keys
    of their own: such a cell shares its identity with no other cell of
    a column that is not negative, so two of them never share an entry of
    the cache.  The identity is the letter of the column followed by the
    decimal number of the row counted from 1. *)
Theorem identities_are_distinct (row col row' col' : Z) :
  0 <= col < 26 -> 0 <= col' ->
  (get_cell_by_coords (row, col) = get_cell_by_coords (row', col') <->
   (row, col) = (row', col')) /\
  get_cell_by_coords (row, col) =
    String (ascii_of_N (Z.to_N (65 + col))) (to_string (row + 1)).
Proof.
  intros Hc Hc'. split; [split|].
  - intros H. destruct (get_cell_by_coords_inj _ _ _ _ Hc Hc' H) as [-> ->].
    reflexivity.
  - now intros [= -> ->].
  - now apply get_cell_by_coords_first_block.
Qed.

Lemma identities_are_distinct_witness :
  (get_cell_by_coords (11, 2) = get_cell_by_coords (0, 60) <->
   (11, 2) = (0, 60)) /\
  get_cell_by_coords (11, 2) = "C12".
Proof.
  apply (identities_are_distinct 11 2 0 60); lia.
Defined.

(** ** The output can be read back *)

Lemma fields_no_tab (line : string) :
  Forall (fun data => no_tab data = true) (fields line).
Proof.
  induction line as [|c line IH]; [constructor|]. simpl.
  destruct (bool_decide (c = tab)) eqn:Ec; [now constructor|].
  destruct (fields line) as [|data others]; constructor.
  - simpl. now rewrite Ec.
  - constructor.
  - simpl. rewrite Ec. simpl. now inversion IH.
  - now inversion IH.
Qed.

Lemma fields_tab_ended (texts : list string) :
  Forall (fun data => no_tab data = true) texts ->
  fields (tab_ended texts) = texts.
Proof.
  induction 1 as [|v texts Hv _ IH]; [reflexivity|].
  cbn [tab_ended]. rewrite <- IH at 2. clear IH.
  induction v as [|c v IHv].
  - rewrite append_nil_l. reflexivity.
  - simpl in Hv. apply andb_true_iff in Hv as [Hc Hv].
    rewrite append_cons. cbn [fields].
    apply negb_true_iff in Hc. rewrite Hc. now rewrite (IHv Hv).
Qed.

Lemma all_digits_no_tab (s : string) : all_digits s = true -> no_tab s = true.
Proof.
  induction s as [|c s IH]; [reflexivity|]. simpl.
  intros [Hc Hs]%andb_true_iff. rewrite (IH Hs), andb_true_r.
  apply negb_true_iff, bool_decide_eq_false_2. intros ->. discriminate.
Qed.

Lemma to_string_no_tab (n : Z) : no_tab (to_string n) = true.
Proof.
  assert (Hp : forall p, no_tab (pretty (N.pos p)) = true).
  { intros p. apply all_digits_no_tab.
    destruct (to_string_digits (Z.pos p) ltac:(lia)) as [Hd _].
    apply andb_true_iff in Hd as [_ Hd]. exact Hd. }
  destruct n as [|p|p]; [reflexivity|apply Hp|].
  unfold to_string, pretty, pretty_Z.
  change ("-" +:+ pretty p) with (String "-" EmptyString +:+ pretty (N.pos p)).
  rewrite append_cons, append_nil_l. simpl. apply Hp.
Qed.

Lemma substr1_no_tab (s : string) : no_tab s = true -> no_tab (substr1 s) = true.
Proof.
  destruct s as [|c s]; [auto|]. simpl. now intros [_ H]%andb_true_iff.
Qed.

Lemma stored_no_tab (data : string) :
  no_tab data = true -> no_tab (stored data) = true.
Proof.
  intros H. unfold stored. destruct (is_expression data); [assumption|].
  destruct (_ || _); [assumption|reflexivity].
Qed.

Lemma table_of_no_tab (n_rows n_cols : Z) (lines : list string) :
  Forall (Forall (fun data => no_tab data = true)) (table_of n_rows n_cols lines).
Proof.
  unfold table_of. apply Forall_resize.
  - now apply Forall_replicate.
  - apply Forall_fmap, Forall_true. intros line. simpl. unfold row_of.
    apply Forall_resize; [reflexivity|].
    apply Forall_fmap. eapply Forall_impl; [apply fields_no_tab|].
    intros data. apply stored_no_tab.
Qed.

Lemma table_at_Forall (P : string -> Prop) (tk : Tokenizer) (row col : Z)
    (cell : string) :
  Forall (Forall P) (m_table tk) -> table_at tk row col = Some cell -> P cell.
Proof.
  intros H. unfold table_at. destruct (_ || _); [discriminate|].
  destruct (m_table tk !! Z.to_nat row) as [line|] eqn:Hl; [|discriminate].
  intros Hc. rewrite Forall_forall in H.
  specialize (H line ltac:(eapply list_elem_of_lookup_2; eassumption)).
  rewrite Forall_forall in H. apply H.
  eapply list_elem_of_lookup_2; eassumption.
Qed.

Lemma known_text_no_tab (tk : Tokenizer) (s : string) :
  Forall (Forall (fun data => no_tab data = true)) (m_table tk) ->
  known_text tk s -> no_tab s = true.
Proof.
  intros Ht [Hs|[->|(row & col & cell & Hc & _ & ->)]].
  - unfold error_codes in Hs.
    repeat (apply elem_of_cons in Hs as [->|Hs]; [reflexivity|]).
    inversion Hs.
  - reflexivity.
  - apply substr1_no_tab.
    exact (table_at_Forall (fun data => no_tab data = true) tk row col cell Ht Hc).
Qed.

Lemma shown_no_tab (tk : Tokenizer) (st : state) (i j : Z) :
  Forall (Forall (fun data => no_tab data = true)) (m_table tk) ->
  known_cache tk st -> no_tab (shown tk st i j) = true.
Proof.
  intros Ht Hst. unfold shown.
  destruct (table_at tk i j) as [cell|] eqn:Hc; [|reflexivity].
  pose proof (table_at_Forall (fun data => no_tab data = true) tk i j cell Ht Hc)
    as Hcell.
  destruct (is_string_literal cell); [now apply substr1_no_tab|].
  destruct (is_expression cell); [|assumption].
  destruct (map_ref_cells st !! get_cell_by_coords (i, j)) as [[|n|s]|] eqn:Hk;
    simpl; try reflexivity.
  - apply to_string_no_tab.
  - apply (known_text_no_tab tk s Ht). exact (Hst _ _ Hk).
Qed.

(** X20. What [main] prints can be read back the way [main] reads its
    input.  When [main] returns from the empty cache on a header of
    positive numbers, no text it prints for a cell holds a tab, so each
    line of the output splits at its tabs into exactly [n_cols] texts,
    those printed for the cells of its row. *)
Theorem main_output_reads_back
    (n_rows n_cols : Z) (lines : list string) (fuel : nat)
    (status : Z) (out : list string) (st' : state) :
  0 < n_rows -> 0 < n_cols ->
  main n_rows n_cols lines fuel initial = (Ret (status, out), st') ->
  let tokenizer := load n_rows n_cols (table_of n_rows n_cols lines) in
  fields <$> out = shown_rows tokenizer st' /\
  length out = Z.to_nat n_rows /\
  Forall (fun line => length (fields line) = Z.to_nat n_cols) out.
Proof.
  intros Hr Hc H tokenizer.
  destruct (run tokenizer fuel initial) as [r1 st1] eqn:Erun.
  rewrite (main_after_run n_rows n_cols lines fuel initial r1 st1 Hr Hc Erun) in H.
  fold tokenizer in H. destruct r1 as [[]|e| |]; try discriminate.
  injection H as <- <- <-.
  apply run_loop_known in Erun;
    [|intros k' t'; simpl; now rewrite lookup_empty].
  assert (Hrows : fields <$> (tab_ended <$> shown_rows tokenizer st1)
                  = shown_rows tokenizer st1).
  { rewrite <- list_fmap_compose. rewrite <- (list_fmap_id (shown_rows _ _)) at 2.
    apply list_fmap_ext. intros idx texts Htexts. simpl.
    apply fields_tab_ended.
    apply list_elem_of_lookup_2 in Htexts. unfold shown_rows in Htexts.
    apply list_elem_of_fmap in Htexts as (i & -> & _).
    apply Forall_fmap, Forall_true. intros j. simpl.
    apply shown_no_tab; [apply table_of_no_tab|assumption]. }
  split; [exact Hrows|]. split.
  - unfold shown_rows. rewrite !length_fmap, length_seqZ. reflexivity.
  - assert (HF : Forall (fun texts : list string => length texts = Z.to_nat n_cols)
                        (fields <$> (tab_ended <$> shown_rows tokenizer st1))).
    { rewrite Hrows. unfold shown_rows.
      apply Forall_fmap, Forall_true. intros i. simpl.
      now rewrite length_fmap, length_seqZ. }
    rewrite Forall_fmap in HF. exact HF.
Qed.

Lemma main_output_reads_back_witness :
  let tokenizer := load 1 2 (table_of 1 2 [tabbed ["=B1+1"; "2"]]) in
  fields <$> [tab_ended ["3"; "2"]] =
    shown_rows tokenizer (snd (main 1 2 [tabbed ["=B1+1"; "2"]] 2 initial)) /\
  length [tab_ended ["3"; "2"]] = Z.to_nat 1 /\
  Forall (fun line => length (fields line) = Z.to_nat 2) [tab_ended ["3"; "2"]].
Proof.
  apply (main_output_reads_back 1 2 [tabbed ["=B1+1"; "2"]] 2 0);
    [lia|lia|vm_compute; reflexivity].
Defined.

(** ** Formulas over numbers and resolved cells *)

Lemma tail_operands_no_digit (tk : Tokenizer) (st : state)
    (more : list (ascii * operand)) :
  Forall (fun p => is_operator p.1 = true /\ resolved_operand tk st p.2 = true) more ->
  starts_with_digit (tail_operands more) = false.
Proof.
  intros H. destruct H as [|[o x] more [Ho _] _]; [reflexivity|].
  simpl. now apply is_operator_not_digit.
Qed.

Section Operands.

Variable tk : Tokenizer.
Variable prec : string -> M Token.

Lemma step_operand (x : operand) (more : string) (ls : locals) (st : state) :
  resolved_operand tk st x = true -> starts_with_digit more = false ->
  exists c rest t',
    operand_text x +:+ more = String c rest /\
    step tk prec c rest ls st =
    bind (reduce (mkLocals (operand_token tk st x :: toks ls) (op ls) t'))
         (fun ls' => ret (more, ls')) st.
Proof.
  intros Hx Hmore. destruct x as [d|c d]; simpl in Hx.
  - destruct (is_number_front _ Hx) as (c & d' & -> & Hc).
    exists c, (d' +:+ more), (tok ls). split; [apply append_cons|].
    rewrite step_digit by assumption. cbv zeta.
    rewrite <- append_cons, (get_number_by_str_app _ _ Hx Hmore). reflexivity.
  - apply andb_true_iff in Hx as [Hx Hk].
    apply andb_true_iff in Hx as [Hx Hin].
    apply andb_true_iff in Hx as [Hc Hd].
    apply negb_true_iff in Hin.
    destruct (map_ref_cells st !! get_cell_by_coords (named_cell tk c d))
      as [t|] eqn:Ek; [|discriminate].
    exists c, (d +:+ more), t. split; [apply append_cons|].
    rewrite step_reference by assumption. cbv zeta.
    rewrite (get_number_by_str_app _ _ Hd Hmore). cbn [fst snd].
    unfold named_cell in Hin, Ek. cbn [fst snd] in Hin.
    rewrite Hin. unfold operand_token, named_cell. rewrite Ek. simpl.
    destruct t; [discriminate|reflexivity..].
Qed.

Lemma operand_text_length (st : state) (x : operand) :
  resolved_operand tk st x = true -> (1 <= String.length (operand_text x))%nat.
Proof.
  destruct x as [d|c d]; simpl; [|lia].
  intros H. destruct (is_number_front _ H) as (c & d' & -> & _). simpl. lia.
Qed.

Lemma scan_operands (more : list (ascii * operand)) (gas : nat)
    (acc t0 : Token) (st : state) :
  Forall (fun p => is_operator p.1 = true /\ resolved_operand tk st p.2 = true) more ->
  (String.length (tail_operands more) <= gas)%nat ->
  match fold_flat tk st acc more with
  | Ret t => exists t1,
      scan tk prec gas (tail_operands more) (mkLocals [acc] OP_NONE t0) st =
      (Ret (mkLocals [t] OP_NONE t1), st)
  | Throw e =>
      scan tk prec gas (tail_operands more) (mkLocals [acc] OP_NONE t0) st =
      (Throw e, st)
  | Undefined =>
      scan tk prec gas (tail_operands more) (mkLocals [acc] OP_NONE t0) st =
      (Undefined, st)
  | OutOfFuel => False
  end.
Proof.
  intros Hall. revert gas acc t0.
  induction Hall as [|[o x] more [Ho Hx] Hmore IH]; intros gas acc t0 Hgas.
  - simpl. exists t0. now destruct gas.
  - simpl in Ho, Hx.
    pose proof (operand_text_length st x Hx) as Hlen.
    cbn [tail_operands] in Hgas |- *.
    simpl String.length in Hgas. rewrite length_append in Hgas.
    destruct (step_operand x (tail_operands more)
                (mkLocals [acc] (get_operator o) t0) st Hx
                (tail_operands_no_digit tk st _ Hmore))
      as (c & rest & t' & Htext & Hstep).
    rewrite Htext.
    destruct gas as [|[|gas]]; [lia|lia|].
    destruct (is_operator_known _ Ho) as [Hu Hn].
    assert (Hscan :
      scan tk prec (S (S gas)) (String o (String c rest))
           (mkLocals [acc] OP_NONE t0) st =
      match evaluate [operand_token tk st x; acc] (get_operator o) with
      | Ret r => scan tk prec gas (tail_operands more) (mkLocals [r.1] OP_NONE r.1) st
      | Throw e => (Throw e, st)
      | Undefined => (Undefined, st)
      | OutOfFuel => (OutOfFuel, st)
      end).
    { cbn [scan]. unfold bind at 1.
      rewrite step_operator by assumption. simpl.
      unfold bind at 1. rewrite Hstep. cbn [toks op tok].
      unfold bind at 1.
      rewrite reduces_at_once_holds by assumption.
      now destruct (evaluate _ _). }
    rewrite Hscan. cbn [fold_flat].
    pose proof (evaluate_outcome [operand_token tk st x; acc]
                  (get_operator o)) as Hev.
    destruct (evaluate _ _) as [r|e| |]; try reflexivity; try contradiction.
    apply IH. lia.
Qed.

End Operands.

(** X21. A formula over numbers and references to cells of the grid
    whose entries hold a number or a text is evaluated strictly left to
    right on the tokens of its operands, a reference standing for the
    entry of its cell; the cache is left as it was. *)
Theorem parse_expr_over_resolved_cells
    (tk : Tokenizer) (fuel : nat) (st : state)
    (x0 : operand) (more : list (ascii * operand)) :
  resolved_operand tk st x0 = true ->
  Forall (fun p => is_operator p.1 = true /\ resolved_operand tk st p.2 = true) more ->
  parse_expr tk (S fuel) (operand_text x0 +:+ tail_operands more) st =
    (fold_flat tk st (operand_token tk st x0) more, st).
Proof.
  intros Hx Hall.
  pose proof (operand_text_length tk st x0 Hx) as Hlen.
  destruct (step_operand tk (parse_expr tk fuel) x0 (tail_operands more)
              start st Hx (tail_operands_no_digit tk st _ Hall))
    as (c & rest & t' & Htext & Hstep).
  set (gas := String.length rest).
  assert (Hgas : (String.length (tail_operands more) <= gas)%nat).
  { apply (f_equal String.length) in Htext. rewrite length_append in Htext.
    simpl in Htext. unfold gas. lia. }
  assert (Hfirst :
    scan tk (parse_expr tk fuel)
         (String.length (operand_text x0 +:+ tail_operands more))
         (operand_text x0 +:+ tail_operands more) start st =
    scan tk (parse_expr tk fuel) gas (tail_operands more)
         (mkLocals [operand_token tk st x0] OP_NONE t') st).
  { rewrite Htext. cbn [String.length scan]. fold gas.
    unfold bind at 1. rewrite Hstep. reflexivity. }
  rewrite parse_expr_unfold, Hfirst.
  pose proof (scan_operands tk (parse_expr tk fuel) more gas
                (operand_token tk st x0) t' st Hall Hgas) as H.
  destruct (fold_flat tk st _ more) as [t|e| |].
  - destruct H as [t1 ->]. reflexivity.
  - now rewrite H.
  - now rewrite H.
  - contradiction.
Qed.

Lemma parse_expr_over_resolved_cells_witness :
  parse_expr sample_grid 1 "A1+3*A1"
             (commit "A1" (T_NUMBER 12) (reserve "A1" initial)) =
    (Ret (T_NUMBER 180), commit "A1" (T_NUMBER 12) (reserve "A1" initial)).
Proof.
  apply (parse_expr_over_resolved_cells sample_grid 0
           (commit "A1" (T_NUMBER 12) (reserve "A1" initial))
           (Ref "A" "1") [("+"%char, Digits "3"); ("*"%char, Ref "A" "1")]).
  - reflexivity.
  - repeat constructor.
Defined.

(** ** A reference to a formula cell *)

(** X22. In a grid of at most 26 columns, a formula that is the
    identity of a formula cell without an entry reserves the entry,
    evaluates the formula of the cell and commits what it gives: the
    token it returns, or, when it ends with a [domain_error], the text
    of the error code, which the referring formula gets as a value and
    not as an error.  Any other outcome leaves the entry reserved. *)
Theorem reference_to_formula
    (tk : Tokenizer) (fuel : nat) (row col : Z) (s : string) (st : state) :
  m_cols tk <= 26 -> 0 <= col < m_cols tk ->
  0 <= row < m_rows tk -> m_rows tk <= 32767 ->
  table_at tk row col = Some s -> is_expression s = true ->
  map_ref_cells st !! get_cell_by_coords (row, col) = None ->
  let scell := get_cell_by_coords (row, col) in
  parse_expr tk (S fuel) scell st =
  match parse_expr tk fuel (substr1 s) (reserve scell st) with
  | (Ret t, st1) => (Ret t, commit scell t st1)
  | (Throw (domain_error what), st1) =>
      (Ret (T_STRING what), commit scell (T_STRING what) st1)
  | other => other
  end.
Proof.
  intros Hc Hcol Hrow Hmax Ht He Hk scell.
  rewrite parse_expr_unfold. subst scell.
  rewrite scan_identity by assumption. cbv zeta. rewrite Hk.
  unfold bind at 1. unfold parse_reference. cbn [fst snd]. rewrite Ht, He.
  unfold_monad. rewrite Hk. simpl. rewrite Hk.
  destruct (parse_expr tk fuel (substr1 s) _) as [[t|[w|w|w]| |] st1];
    reflexivity.
Qed.

Lemma reference_to_formula_witness :
  parse_expr division_grid 2 "A1" initial =
    (Ret (T_STRING "#E_INFINITE"),
     commit "A1" (T_STRING "#E_INFINITE") (reserve "A1" initial)).
Proof.
  apply (reference_to_formula division_grid 1 0 0 "=5/0" initial);
    try reflexivity; simpl; lia.
Defined.
